(** * Lyric timeline synchronisation and frame export: a shallow embedding

    The development follows the TypeScript sources of the lyric video maker:
    - [src/components/VideoPlayer.tsx]: the playback window selection
      ([lyricLines]), the background selection ([currentBg]) and the export
      loop ([handleExport]) with its inlined copy of the window selection;
    - [src/App.tsx]: the subtitle parser ([parseSrt]), its caller
      ([handleSrtImport]) and the hand-off of captured timings
      ([handleTimingComplete]);
    - the background generation service ([generateVisualsForLyrics]).

    Conventions of the embedding.
    - A JavaScript string is the list of its UTF-16 code units.
    - A JavaScript number that holds a time is a rational: every finite
      double is one, and the comparisons of the source are exact on them.
      Where the source counts with a result, taking its floor or rounding it
      to an integer or handing it on as a time (the frame count, the frame
      times, the percentages, the seconds of a timecode), the arithmetic is
      that of doubles ([Double]): each operation rounds its exact result.
      The karaoke fraction and the minutes and seconds of [formatTime] are
      taken as the quotients they are, without the rounding of their last
      place.  A division whose divisor may be zero returns a [JsNum], which
      has the non-finite results of the source. *)

From Stdlib Require Import QArith Qround Qpower Qreduction Lqa.
From stdpp Require Import gmap list strings pretty sorting.

Local Open Scope Z_scope.

(** ** JavaScript strings *)

Module Js.

Definition char := N.
Definition jsstring := list char.

(** Code units of an ASCII literal. *)
Fixpoint lit (s : string) : jsstring :=
  match s with
  | EmptyString => []
  | String a s' => Ascii.N_of_ascii a :: lit s'
  end.

(** White space and line terminators, the code units [String.prototype.trim]
    strips. *)
Definition isWhiteSpace (c : char) : bool :=
  ((9 <=? c) && (c <=? 13) || (c =? 32) || (c =? 160) || (c =? 5760)
   || (8192 <=? c) && (c <=? 8202) || (c =? 8232) || (c =? 8233)
   || (c =? 8239) || (c =? 8287) || (c =? 12288) || (c =? 65279))%N.

Fixpoint trimStart (s : jsstring) : jsstring :=
  match s with
  | [] => []
  | c :: s' => if isWhiteSpace c then trimStart s' else s
  end.

Definition trimEnd (s : jsstring) : jsstring := rev (trimStart (rev s)).

Definition trim (s : jsstring) : jsstring := trimEnd (trimStart s).

Definition isEmpty (s : jsstring) : bool :=
  match s with [] => true | _ => false end.

(** [s1 === s2] on strings. *)
Definition streq (s1 s2 : jsstring) : bool := bool_decide (s1 = s2).

(** [arr[i]] for a possibly negative or too large index: [None] stands for
    [undefined]. *)
Definition at_ {A} (l : list A) (i : Z) : option A :=
  if i <? 0 then None else l !! Z.to_nat i.

(** [Array.prototype.findIndex]: the first index whose element satisfies
    [p], or [-1]. *)
Fixpoint findIndex_from {A} (p : A -> bool) (l : list A) (i : Z) : Z :=
  match l with
  | [] => -1
  | x :: l' => if p x then i else findIndex_from p l' (i + 1)
  end.

Definition findIndex {A} (p : A -> bool) (l : list A) : Z :=
  findIndex_from p l 0.

(** [Array.prototype.find]. *)
Definition find_ {A} (p : A -> bool) (l : list A) : option A :=
  List.find p l.

End Js.

Import Js.

(** ** Comparisons of times *)

Definition Qleb (x y : Q) : bool := Qle_bool x y.
Definition Qltb (x y : Q) : bool := negb (Qle_bool y x).

(** ** Numbers ([number]) *)

(** A JavaScript number is a binary64 floating-point value.  The finite ones
    are rationals, and the result of an arithmetic operation is the exact
    result rounded to the nearest value with 53 significant bits, ties to
    the even one.  The range of the exponent is not modelled: every
    quantity of this program (seconds, frame counts, percentages) is zero
    or lies far inside it. *)
Module Double.

Definition pow2 (k : Z) : Q := (2 ^ k)%Q.

(** [floor (log2 x)] for [0 < x]. *)
Definition ilog2 (x : Q) : Z :=
  let e := Z.log2 (Qnum x) - Z.log2 (Zpos (Qden x)) in
  if Qle_bool (pow2 e) x then e else e - 1.

(** The nearest integer, ties to the even one. *)
Definition rne (s : Q) : Z :=
  let f := Qfloor s in
  match (s - inject_Z f ?= 1 # 2)%Q with
  | Lt => f
  | Gt => f + 1
  | Eq => if Z.even f then f else f + 1
  end.

(** The unit in the last place of [x], for [0 < x]: the significand has 53
    bits. *)
Definition ulp (x : Q) : Q := pow2 (ilog2 x - 52).

Definition roundPos (x : Q) : Q :=
  Qred (inject_Z (rne (x / ulp x)) * ulp x).

(** The binary64 value nearest to [x]. *)
Definition round (x : Q) : Q :=
  match (x ?= 0)%Q with
  | Eq => 0%Q
  | Gt => roundPos x
  | Lt => (- roundPos (- x))%Q
  end.

(** [x + y], [x - y], [x * y] and [x / y] on numbers, [y] not zero in the
    last. *)
Definition add (x y : Q) : Q := round (x + y).
Definition sub (x y : Q) : Q := round (x - y).
Definition mul (x y : Q) : Q := round (x * y).
Definition div (x y : Q) : Q := round (x / y).

End Double.

(** ** Lyric lines and the window selection *)

Record TimedLyric := mkLyric {
  text : jsstring;
  startTime : Q;
  endTime : Q
}.

(** The result object [{ prev, current, next }]; [None] is [null]. *)
Record LyricWindow := mkWindow {
  prev : option TimedLyric;
  current : option TimedLyric;
  next : option TimedLyric
}.

Definition nullWindow : LyricWindow := mkWindow None None None.

(** [l => l.text.trim() !== ''] *)
Definition isRealLyric (l : TimedLyric) : bool := negb (isEmpty (trim (text l))).

(** [lyric => time >= lyric.startTime && time < lyric.endTime] *)
Definition inWindow (time : Q) (lyric : TimedLyric) : bool :=
  Qleb (startTime lyric) time && Qltb time (endTime lyric).

(** The backward scan
    [for (let i = n - 1; i >= 0; i--) if (time >= realLyrics[i].endTime) { prevLyricIndex = i; break; }]
    started with [n] elements left to visit; [-1] when the loop ends without
    a [break]. *)
Fixpoint scanBack (realLyrics : list TimedLyric) (time : Q) (n : nat) : Z :=
  match n with
  | O => -1
  | S i =>
      match realLyrics !! i with
      | Some l => if Qleb (endTime l) time then Z.of_nat i
                  else scanBack realLyrics time i
      | None => scanBack realLyrics time i
      end
  end.

(** [lyricLines] of [VideoPlayer.tsx], the [useMemo] that playback renders
    from.  [realLyrics[0]] and [realLyrics[realLyrics.length - 1]] are read
    after the length test, so they are defined; the [None] branches of the
    two lookups stand for the [TypeError] JavaScript would raise on
    [undefined.startTime] and are never taken (see [lyricLines_cascade]). *)
Definition lyricLines (timedLyrics : list TimedLyric) (currentTime : Q)
  : LyricWindow :=
  let realLyrics := List.filter isRealLyric timedLyrics in
  if (length realLyrics =? 0)%nat then nullWindow
  else
    let currentIndex := findIndex (inWindow currentTime) realLyrics in
    match at_ realLyrics 0 with
    | None => nullWindow
    | Some first =>
        if Qltb currentTime (startTime first) then
          mkWindow None None (Some first)
        else
          match at_ realLyrics (Z.of_nat (length realLyrics) - 1) with
          | None => nullWindow
          | Some lastLyric =>
              if Qleb (endTime lastLyric) currentTime then
                mkWindow (Some lastLyric) None None
              else if negb (currentIndex =? -1) then
                mkWindow (at_ realLyrics (currentIndex - 1))
                         (at_ realLyrics currentIndex)
                         (at_ realLyrics (currentIndex + 1))
              else
                let prevLyricIndex :=
                  scanBack realLyrics currentTime (length realLyrics) in
                if negb (prevLyricIndex =? -1) then
                  mkWindow (at_ realLyrics prevLyricIndex)
                           None
                           (at_ realLyrics (prevLyricIndex + 1))
                else nullWindow
          end
    end.

(** [currentLyricLines], the immediately applied function inside the frame
    loop of [handleExport]. *)
Definition currentLyricLines (timedLyrics : list TimedLyric) (frameTime : Q)
  : LyricWindow :=
  let realLyrics := List.filter isRealLyric timedLyrics in
  if (length realLyrics =? 0)%nat then nullWindow
  else
    let currentIndex := findIndex (inWindow frameTime) realLyrics in
    match at_ realLyrics 0 with
    | None => nullWindow
    | Some first =>
        if Qltb frameTime (startTime first) then
          mkWindow None None (Some first)
        else
          match at_ realLyrics (Z.of_nat (length realLyrics) - 1) with
          | None => nullWindow
          | Some lastLyric =>
              if Qleb (endTime lastLyric) frameTime then
                mkWindow (Some lastLyric) None None
              else if negb (currentIndex =? -1) then
                mkWindow (at_ realLyrics (currentIndex - 1))
                         (at_ realLyrics currentIndex)
                         (at_ realLyrics (currentIndex + 1))
              else
                let prevLyricIndex :=
                  scanBack realLyrics frameTime (length realLyrics) in
                if negb (prevLyricIndex =? -1) then
                  mkWindow (at_ realLyrics prevLyricIndex)
                           None
                           (at_ realLyrics (prevLyricIndex + 1))
                else nullWindow
          end
    end.

(** The precondition on the real lines: every window has
    [startTime <= endTime] and ends no later than the next one starts, which
    is what sorted by [startTime] with non-overlapping half-open windows
    means for a sequence. *)
Fixpoint sortedWindows (ls : list TimedLyric) : bool :=
  match ls with
  | [] => true
  | l :: ls' =>
      Qleb (startTime l) (endTime l)
      && match ls' with
         | [] => true
         | l' :: _ => Qleb (endTime l) (startTime l')
         end
      && sortedWindows ls'
  end.

(** The sequence neighbour before index [i]; absent at the front. *)
Definition neighbourBefore {A} (l : list A) (i : nat) : option A :=
  match i with
  | O => None
  | S j => l !! j
  end.

(** The four boundary classes of a time [t] for the real lines [rl]. *)
Definition beforeFirst (rl : list TimedLyric) (t : Q) : Prop :=
  exists first, head rl = Some first /\ (t < startTime first)%Q.

Definition afterLast (rl : list TimedLyric) (t : Q) : Prop :=
  exists lastLyric, last rl = Some lastLyric /\ (endTime lastLyric <= t)%Q.

Definition inLine (rl : list TimedLyric) (t : Q) : Prop :=
  exists i l, rl !! i = Some l /\ (startTime l <= t)%Q /\ (t < endTime l)%Q.

Definition inGap (rl : list TimedLyric) (t : Q) : Prop :=
  ~ beforeFirst rl t /\ ~ afterLast rl t /\ ~ inLine rl t.

Definition hello : TimedLyric := mkLyric (lit "Hello") 10 12.

(** ** Karaoke progress of the exported frame *)

(** The value of a JavaScript division: finite, or one of the results of a
    division by zero. *)
Inductive JsNum :=
| Finite (q : Q)
| PosInfinity
| NegInfinity
| NaN.

(** [a / b] for finite [a] and [b]; [b] is a difference [x - y], which is
    [+0] when it vanishes. *)
Definition jsDiv (a b : Q) : JsNum :=
  if Qeq_bool b 0 then
    if Qeq_bool a 0 then NaN
    else if Qltb 0 a then PosInfinity else NegInfinity
  else Finite (a / b).

(** Equality of numbers as [===] sees it: rationals up to [==], and [NaN]
    equal to nothing. *)
Definition JsNum_eq (x y : JsNum) : Prop :=
  match x, y with
  | Finite p, Finite q => (p == q)%Q
  | PosInfinity, PosInfinity => True
  | NegInfinity, NegInfinity => True
  | _, _ => False
  end.

(** [(frameTime - current.startTime) / (current.endTime - current.startTime)] *)
Definition karaokeProgress (cur : TimedLyric) (frameTime : Q) : JsNum :=
  jsDiv (frameTime - startTime cur) (endTime cur - startTime cur).

(** The progress a frame is drawn with: computed only under
    [if (currentLyricLines.current)]. *)
Definition frameKaraokeProgress (timedLyrics : list TimedLyric) (frameTime : Q)
  : option JsNum :=
  match current (currentLyricLines timedLyrics frameTime) with
  | Some cur => Some (karaokeProgress cur frameTime)
  | None => None
  end.

(** The fraction as section 4.2 of the specification words it: one for a
    line of zero length, otherwise the quotient clamped to [[0, 1]]. *)
Definition clamp01 (x : Q) : Q :=
  if Qltb x 0 then 0%Q else if Qltb 1 x then 1%Q else x.

Definition progressOf_spec (cur : TimedLyric) (t : Q) : Q :=
  if Qeq_bool (endTime cur) (startTime cur) then 1%Q
  else clamp01 ((t - startTime cur) / (endTime cur - startTime cur)).

(** The lines a window shows. *)
Definition shownIn (w : LyricWindow) (l : TimedLyric) : Prop :=
  prev w = Some l \/ current w = Some l \/ next w = Some l.

Definition silentIntro : TimedLyric := mkLyric (lit "") 0 5.
Definition lineA : TimedLyric := mkLyric (lit "A") 5 8.

(** A silent line of white space only, between two real lines. *)
Definition lineBefore : TimedLyric := mkLyric (lit "A") 0 2.
Definition silentMiddle : TimedLyric := mkLyric (lit "  ") 2 5.
Definition lineAfter : TimedLyric := mkLyric (lit "B") 5 8.

Definition degenerateLine : TimedLyric := mkLyric (lit "la") 5 5.

(** ** Background selection *)

Module AiImage.
Record t := mk {
  url : jsstring;
  startTime : Q;
  endTime : Q
}.
End AiImage.

(** A string in a boolean position: only the empty string is falsy. *)
Definition truthy (s : jsstring) : bool := negb (isEmpty s).

(** [img => time >= img.startTime && time < img.endTime] *)
Definition inImageWindow (time : Q) (img : AiImage.t) : bool :=
  Qleb (AiImage.startTime img) time && Qltb time (AiImage.endTime img).

(** The background of an exported frame:
    [aiImages.length > 0
       ? (aiImages.find(...)?.url || aiImages[0].url)
       : imageUrl].
    The last [None] stands for the [TypeError] of [aiImages[0].url] on an
    empty array, excluded by the length test. *)
Definition currentExportBgUrl (aiImages : list AiImage.t) (imageUrl : jsstring)
    (frameTime : Q) : jsstring :=
  if (0 <? length aiImages)%nat then
    match find_ (inImageWindow frameTime) aiImages with
    | Some img =>
        if truthy (AiImage.url img) then AiImage.url img
        else match at_ aiImages 0 with
             | Some img0 => AiImage.url img0
             | None => []
             end
    | None =>
        match at_ aiImages 0 with
        | Some img0 => AiImage.url img0
        | None => []
        end
    end
  else imageUrl.

(** [currentBg.current] of playback:
    [if (aiImages.length === 0) return imageUrl;
     const current = aiImages[currentImageIndex] || aiImages[0];
     return current?.url || imageUrl]. *)
Definition currentBg (aiImages : list AiImage.t) (imageUrl : jsstring)
    (currentTime : Q) : jsstring :=
  if (length aiImages =? 0)%nat then imageUrl
  else
    let currentImageIndex := findIndex (inImageWindow currentTime) aiImages in
    let cur :=
      match at_ aiImages currentImageIndex with
      | Some img => Some img
      | None => at_ aiImages 0
      end in
    match cur with
    | Some img => if truthy (AiImage.url img) then AiImage.url img else imageUrl
    | None => imageUrl
    end.


Definition imgA : AiImage.t := AiImage.mk (lit "a") 0 5.
Definition imgNoUrl : AiImage.t := AiImage.mk (lit "") 5 10.

(** ** Hand-off of captured timings ([App.tsx]) *)

Inductive AppState := FORM | TIMING | PREVIEW.

(** The part of the component state [handleTimingComplete] sets. *)
Record AppModel := mkApp {
  timedLyrics : list TimedLyric;
  audioDuration : Q;
  appState : AppState
}.

(** The double that the literal [0.1] denotes. *)
Definition js_0_1 : Q := 3602879701896397 # 36028797018963968.

(** The number nearest to 0.3. *)
Definition js_0_3 : Q := 5404319552844595 # 18014398509481984.

(** [handleTimingComplete(lyrics, duration)].  [lyrics[0]] is read after the
    length test; its [None] branch stands for the [TypeError] on
    [undefined.startTime]. *)
Definition handleTimingComplete (lyrics : list TimedLyric) (duration : Q)
  : AppModel :=
  if (length lyrics =? 0)%nat then mkApp [] duration PREVIEW
  else
    match at_ lyrics 0 with
    | None => mkApp [] duration PREVIEW
    | Some lyric0 =>
        let firstLyricStartTime := startTime lyric0 in
        let processedLyrics : list TimedLyric := [] in
        let processedLyrics :=
          if Qltb js_0_1 firstLyricStartTime then
            processedLyrics ++ [mkLyric (lit "") 0 firstLyricStartTime]
          else processedLyrics in
        let processedLyrics := processedLyrics ++ lyrics in
        mkApp processedLyrics duration PREVIEW
    end.

(** ** Background generation service ([generateVisualsForLyrics]) *)

(** [arr.slice(i, j)] for [0 <= i <= j]. *)
Definition slice {A} (l : list A) (i j : nat) : list A := take (j - i) (drop i l).

(** [arr.join(sep)] on strings. *)
Fixpoint join (sep : jsstring) (l : list jsstring) : jsstring :=
  match l with
  | [] => []
  | [s] => s
  | s :: l' => s ++ sep ++ join sep l'
  end.

Definition newline : jsstring := [10%N].

Module Stanza.
Record t := mk {
  text : jsstring;
  startTime : Q;
  endTime : Q
}.
End Stanza.

Module ImageGenerationTask.
Record t := mk {
  prompt : jsstring;
  startTime : Q;
  endTime : Q
}.
End ImageGenerationTask.

Module GeneratedPrompt.
Record t := mk {
  stanza : jsstring;
  prompt : jsstring
}.
End GeneratedPrompt.

(** [l => l.text && l.text.trim() !== '' && l.text !== 'END'] *)
Definition toProcess (l : TimedLyric) : bool :=
  truthy (text l) && negb (isEmpty (trim (text l)))
  && negb (streq (text l) (lit "END")).

Definition lyricsToProcess (timedLyrics : list TimedLyric) : list TimedLyric :=
  List.filter toProcess timedLyrics.

(** The stanza pushed for one chunk; [None] stands for the [TypeError] of
    [chunk[0].startTime] on an empty chunk. *)
Definition stanzaOfChunk (chunk : list TimedLyric) : option Stanza.t :=
  match at_ chunk 0, at_ chunk (Z.of_nat (length chunk) - 1) with
  | Some c0, Some cl =>
      Some (Stanza.mk (join newline (map text chunk)) (startTime c0) (endTime cl))
  | _, _ => None
  end.

(** [for (let i = 0; i < lyricsToProcess.length; i += 2) { ... }], entered at
    index [i] with the stanzas pushed so far.  [None] is a run that did not
    finish: the fuel ran out or a chunk was empty. *)
Fixpoint stanzaLoop (fuel : nat) (toGroup : list TimedLyric) (i : nat)
    (stanzas : list Stanza.t) : option (list Stanza.t) :=
  if (i <? length toGroup)%nat then
    match fuel with
    | O => None
    | S fuel' =>
        match stanzaOfChunk (slice toGroup i (i + 2)) with
        | Some stanza => stanzaLoop fuel' toGroup (i + 2) (stanzas ++ [stanza])
        | None => None
        end
    end
  else Some stanzas.

Definition groupStanzas (toGroup : list TimedLyric) : option (list Stanza.t) :=
  stanzaLoop (length toGroup) toGroup 0 [].

(** The prompt used when the model returned no entry for a stanza. *)
Definition genericPrompt (songTitle : jsstring) : jsstring :=
  lit "A beautiful abstract visualization of the feeling of the song '"
  ++ songTitle ++ lit "'".

(** [stanzas.map(stanza => { const foundPrompt = generatedPrompts.find(p => p.stanza === stanza.text); ... })] *)
Definition taskOfStanza (generatedPrompts : list GeneratedPrompt.t)
    (songTitle : jsstring) (stanza : Stanza.t) : ImageGenerationTask.t :=
  let foundPrompt :=
    find_ (fun p => streq (GeneratedPrompt.stanza p) (Stanza.text stanza))
          generatedPrompts in
  ImageGenerationTask.mk
    (match foundPrompt with
     | Some p => GeneratedPrompt.prompt p
     | None => genericPrompt songTitle
     end)
    (Stanza.startTime stanza) (Stanza.endTime stanza).

Definition tasksOfStanzas (generatedPrompts : list GeneratedPrompt.t)
    (songTitle : jsstring) (stanzas : list Stanza.t)
  : list ImageGenerationTask.t :=
  map (taskOfStanza generatedPrompts songTitle) stanzas.

(** A value that [JSON.parse] returns.  The properties of an object are in
    the order of the text. *)
#[local] Unset Elimination Schemes.
Inductive Json :=
| JNull
| JBool (b : bool)
| JNumber (x : Q)
| JString (s : jsstring)
| JArray (elements : list Json)
| JObject (properties : list (jsstring * Json)).
#[local] Set Elimination Schemes.

(** A value read from a property; [None] is [undefined]. *)
Definition JsValue : Type := option Json.

(** [o[key]] on a parsed object: of two properties of one name the text's
    later one is kept; a name that is not there gives [undefined]. *)
Fixpoint property (key : jsstring) (properties : list (jsstring * Json))
  : JsValue :=
  match properties with
  | [] => None
  | (name, value) :: rest =>
      match property key rest with
      | Some later => Some later
      | None => if streq name key then Some value else None
      end
  end.

(** What the two remote calls answer.  The image model returns the bytes of
    an image, or no image, or the call rejects, which stands also for an
    answer whose [generatedImages] cannot be read.  The prompt model returns a
    text that parses to what was asked for, an array of objects with a string
    [stanza] and a string [prompt]; or a text that parses to a value
    [generatedPrompts] of any shape, where [generateImagesFrom] is what the
    image model answers to a prompt that is not a string, which only such a
    value leads to; or a text that does not parse; or the call rejects. *)
Inductive ImageResponse :=
| ImageBytes (base64ImageBytes : jsstring)
| NoImage
| ImageCallRejected.

Inductive PromptResponse :=
| PromptsParsed (generatedPrompts : list GeneratedPrompt.t)
| PromptsParsedAs (generatedPrompts : Json)
                  (generateImagesFrom : JsValue -> ImageResponse)
| PromptsUnparseable
| PromptCallRejected.

Inductive Outcome (A : Type) :=
| Resolved (a : A)
| Rejected (message : jsstring).
Arguments Resolved {A} a.
Arguments Rejected {A} message.

(** The image loop: one call per task, in order; a task whose call returns
    no image is skipped, a rejected call rejects the whole generation. *)
Fixpoint imageLoop (generateImages : jsstring -> ImageResponse)
    (tasks : list ImageGenerationTask.t) (generatedImages : list AiImage.t)
  : Outcome (list AiImage.t) :=
  match tasks with
  | [] => Resolved generatedImages
  | task :: tasks' =>
      match generateImages (ImageGenerationTask.prompt task) with
      | ImageBytes base64ImageBytes =>
          imageLoop generateImages tasks'
            (generatedImages
             ++ [AiImage.mk (lit "data:image/jpeg;base64," ++ base64ImageBytes)
                            (ImageGenerationTask.startTime task)
                            (ImageGenerationTask.endTime task)])
      | NoImage => imageLoop generateImages tasks' generatedImages
      | ImageCallRejected => Rejected (lit "generateImages rejected")
      end
  end.

(** *** A parsed answer of any shape *)

(** [p.stanza === stanza.text] for an element [p] of the array; [None] is the
    [TypeError] of reading a property of [null].  A boolean, a number, a
    string and an array have no property [stanza]. *)
Definition stanzaIs (text : jsstring) (p : Json) : option bool :=
  match p with
  | JNull => None
  | JObject properties =>
      Some (match property (lit "stanza") properties with
            | Some (JString s) => streq s text
            | _ => false
            end)
  | JBool _ | JNumber _ | JString _ | JArray _ => Some false
  end.

(** [generatedPrompts.find(p => p.stanza === stanza.text)] on an array:
    [Some None] is [undefined], [None] the [TypeError] of an element
    [null] that is reached. *)
Fixpoint findPrompt (text : jsstring) (elements : list Json)
  : option (option Json) :=
  match elements with
  | [] => Some None
  | p :: rest =>
      match stanzaIs text p with
      | None => None
      | Some true => Some (Some p)
      | Some false => findPrompt text rest
      end
  end.

(** [foundPrompt.prompt]; what [find] returns is an object. *)
Definition promptOf (foundPrompt : Json) : JsValue :=
  match foundPrompt with
  | JObject properties => property (lit "prompt") properties
  | _ => None
  end.

Module JsonTask.
Record t := mk {
  prompt : JsValue;
  startTime : Q;
  endTime : Q
}.
End JsonTask.

(** The callback of [stanzas.map] on a parsed value of any shape.  [None] is
    a [TypeError]: a value that is not an array has no method [find], and the
    callback of [find] fails on an element [null]. *)
Definition jsonTaskOfStanza (generatedPrompts : Json) (songTitle : jsstring)
    (stanza : Stanza.t) : option JsonTask.t :=
  match generatedPrompts with
  | JArray elements =>
      match findPrompt (Stanza.text stanza) elements with
      | None => None
      | Some foundPrompt =>
          Some (JsonTask.mk
                  (match foundPrompt with
                   | Some p => promptOf p
                   | None => Some (JString (genericPrompt songTitle))
                   end)
                  (Stanza.startTime stanza) (Stanza.endTime stanza))
      end
  | _ => None
  end.

(** [stanzas.map(...)]: the first [TypeError] ends it. *)
Fixpoint jsonTasksOfStanzas (generatedPrompts : Json) (songTitle : jsstring)
    (stanzas : list Stanza.t) : option (list JsonTask.t) :=
  match stanzas with
  | [] => Some []
  | stanza :: rest =>
      match jsonTaskOfStanza generatedPrompts songTitle stanza with
      | None => None
      | Some task =>
          match jsonTasksOfStanzas generatedPrompts songTitle rest with
          | None => None
          | Some tasks => Some (task :: tasks)
          end
      end
  end.

(** What the image model answers to the prompt of a task. *)
Definition askImage (generateImages : jsstring -> ImageResponse)
    (generateImagesFrom : JsValue -> ImageResponse) (prompt : JsValue)
  : ImageResponse :=
  match prompt with
  | Some (JString s) => generateImages s
  | _ => generateImagesFrom prompt
  end.

(** The image loop on such tasks. *)
Fixpoint jsonImageLoop (generateImages : JsValue -> ImageResponse)
    (tasks : list JsonTask.t) (generatedImages : list AiImage.t)
  : Outcome (list AiImage.t) :=
  match tasks with
  | [] => Resolved generatedImages
  | task :: tasks' =>
      match generateImages (JsonTask.prompt task) with
      | ImageBytes base64ImageBytes =>
          jsonImageLoop generateImages tasks'
            (generatedImages
             ++ [AiImage.mk (lit "data:image/jpeg;base64," ++ base64ImageBytes)
                            (JsonTask.startTime task)
                            (JsonTask.endTime task)])
      | NoImage => jsonImageLoop generateImages tasks' generatedImages
      | ImageCallRejected => Rejected (lit "generateImages rejected")
      end
  end.



(** [generateVisualsForLyrics(timedLyrics, songTitle, artistName, onProgress)];
    the progress callback only reports and is left out. *)
Definition generateVisualsForLyrics (timedLyrics : list TimedLyric)
    (songTitle : jsstring) (promptResponse : PromptResponse)
    (generateImages : jsstring -> ImageResponse)
  : Outcome (list AiImage.t) :=
  let toGroup := lyricsToProcess timedLyrics in
  if (length toGroup =? 0)%nat then Resolved []
  else
    match groupStanzas toGroup with
    | None => Rejected (lit "TypeError")
    | Some stanzas =>
        match promptResponse with
        | PromptCallRejected => Rejected (lit "generateContent rejected")
        | PromptsUnparseable =>
            Rejected (lit "AI failed to generate prompts in the correct format.")
        | PromptsParsed generatedPrompts =>
            imageLoop generateImages
              (tasksOfStanzas generatedPrompts songTitle stanzas) []
        | PromptsParsedAs generatedPrompts generateImagesFrom =>
            match jsonTasksOfStanzas generatedPrompts songTitle stanzas with
            | None => Rejected (lit "TypeError")
            | Some tasks =>
                jsonImageLoop (askImage generateImages generateImagesFrom)
                              tasks []
            end
        end
    end.

(** Grouping by two as the specification words it: stanzas of two
    consecutive lines, the last one of a single line when the count is
    odd. *)
Fixpoint stanzasByTwo (ls : list TimedLyric) : list Stanza.t :=
  match ls with
  | [] => []
  | [a] => [Stanza.mk (text a) (startTime a) (endTime a)]
  | a :: b :: rest =>
      Stanza.mk (text a ++ newline ++ text b) (startTime a) (endTime b)
      :: stanzasByTwo rest
  end.

Definition lineEnd : TimedLyric := mkLyric (lit "END") 1 2.
Definition lineB : TimedLyric := mkLyric (lit "B") 2 3.
Definition lineA01 : TimedLyric := mkLyric (lit "A") 0 1.

(** ** The export ([handleExport]) *)

Module ExportJob.

(** How a statement completes.  [Threw] is a JavaScript exception or a
    rejected promise under [await]; [OutOfFuel] is a loop of the embedding
    that was given too little fuel, which no run of [handleExport] is. *)
Inductive Completion (A : Type) :=
| Normal (a : A)
| Threw (error : jsstring)
| OutOfFuel.
Arguments Normal {A} a.
Arguments Threw {A} error.
Arguments OutOfFuel {A}.

(** What a file of the encoder's working storage holds. *)
Inductive Blob :=
| AudioData
| FrameImage (i : Z)
| VideoData.

(** What the run leaves to observe. *)
Inductive Event :=
| Progress (percent : Z)
| Drawn (i : Z) (frameTime : Q) (bgUrl : jsstring) (window : LyricWindow)
        (karaoke : option JsNum)
| Encoded (frameRate : Z)
| Downloaded (fileName : jsstring)
| Alert.

(** The module-level [ffmpeg] object, which outlives a call of
    [handleExport], and the component state the call sets. *)
Record State := mkState {
  isLoaded : bool;
  FS : gmap jsstring Blob;
  isExporting : bool;
  exportProgress : option Z;
  events : list Event
}.

(** The answers of the collaborators during one run. *)
Record World := mkWorld {
  loadSucceeds : bool;
  audioFetchSucceeds : bool;
  contextAvailable : bool;
  imageLoads : jsstring -> bool;
  frameFetchSucceeds : Z -> bool;
  encodeSucceeds : bool
}.

(** Props and state of the component that the export reads. *)
Record Props := mkProps {
  timedLyrics : list TimedLyric;
  imageUrl : jsstring;
  aiImages : list AiImage.t;
  duration : Q;
  songTitle : jsstring;
  artistName : jsstring
}.

Definition M (A : Type) : Type := State -> State * Completion A.

Definition ret {A} (a : A) : M A := fun s => (s, Normal a).

Definition bind {A B} (m : M A) (k : A -> M B) : M B :=
  fun s =>
    match m s with
    | (s', Normal a) => k a s'
    | (s', Threw e) => (s', Threw e)
    | (s', OutOfFuel) => (s', OutOfFuel)
    end.

Definition throw {A} (e : jsstring) : M A := fun s => (s, Threw e).

Definition outOfFuel {A} : M A := fun s => (s, OutOfFuel).

Definition modify (f : State -> State) : M unit := fun s => (f s, Normal tt).

Definition gets {A} (f : State -> A) : M A := fun s => (s, Normal (f s)).

Notation "x <- c1 ;; c2" := (bind c1 (fun x => c2))
  (at level 100, c1 at next level, right associativity).
Notation "c1 ;; c2" := (bind c1 (fun _ => c2))
  (at level 100, right associativity).

(** [try { body } catch (err) { handler } finally { cleanup }] where neither
    the handler nor the cleanup throws. *)
Definition tryCatchFinally (body handler cleanup : M unit) : M unit :=
  fun s =>
    match body s with
    | (s', Normal tt) => cleanup s'
    | (s', Threw _) => (handler ;; cleanup) s'
    | (s', OutOfFuel) => (s', OutOfFuel)
    end.

Definition setIsExporting (b : bool) : M unit :=
  modify (fun s => mkState (isLoaded s) (FS s) b (exportProgress s) (events s)).

Definition emit (e : Event) : M unit :=
  modify (fun s => mkState (isLoaded s) (FS s) (isExporting s)
                           (exportProgress s) (events s ++ [e])).

(** [setExportProgress({ message, progress })] *)
Definition setExportProgress (percent : Z) : M unit :=
  modify (fun s => mkState (isLoaded s) (FS s) (isExporting s)
                           (Some percent) (events s ++ [Progress percent])).

(** [setExportProgress(null)] *)
Definition clearExportProgress : M unit :=
  modify (fun s => mkState (isLoaded s) (FS s) (isExporting s) None (events s)).

Definition setFS (fs : gmap jsstring Blob) : M unit :=
  modify (fun s => mkState (isLoaded s) fs (isExporting s)
                           (exportProgress s) (events s)).

(** [ffmpeg.FS('writeFile', name, data)] *)
Definition writeFile (name : jsstring) (data : Blob) : M unit :=
  fs <- gets FS ;; setFS (<[name := data]> fs).

(** [ffmpeg.FS('readFile', name)]: throws when there is no such file. *)
Definition readFile (name : jsstring) : M Blob :=
  fs <- gets FS ;;
  match fs !! name with
  | Some data => ret data
  | None => throw (lit "ENOENT")
  end.

(** [ffmpeg.FS('unlink', name)]: throws when there is no such file. *)
Definition unlink (name : jsstring) : M unit :=
  fs <- gets FS ;;
  match fs !! name with
  | Some _ => setFS (delete name fs)
  | None => throw (lit "ENOENT")
  end.

(** [if (!ffmpeg.isLoaded()) await ffmpeg.load()] *)
Definition ensureLoaded (w : World) : M unit :=
  loaded <- gets isLoaded ;;
  if negb loaded then
    if loadSucceeds w then
      modify (fun s => mkState true (FS s) (isExporting s)
                               (exportProgress s) (events s))
    else throw (lit "ffmpeg.load rejected")
  else ret tt.

(** [await fetchFile(...)] with the answer [ok] of the collaborator. *)
Definition fetchFile (ok : bool) : M unit :=
  if ok then ret tt else throw (lit "fetchFile rejected").

(** [String(i).padStart(5, '0')] for a frame index. *)
Definition padStart (n : nat) (c : char) (s : jsstring) : jsstring :=
  replicate (n - length s) c ++ s.

Definition frameNum (i : Z) : jsstring := padStart 5 48%N (lit (pretty i)).

(** [`frame-${frameNum}.jpg`] *)
Definition frameName (i : Z) : jsstring :=
  lit "frame-" ++ frameNum i ++ lit ".jpg".

Definition inputName : jsstring := lit "input.mp3".
Definition outputName : jsstring := lit "output.mp4".

Definition frameRate : Z := 30.

(** [Math.floor(duration * frameRate)]: the floor of the rounded product. *)
Definition totalFrames (duration : Q) : Z :=
  Qfloor (Double.mul duration (inject_Z frameRate)).

(** [i / frameRate]: the rounded quotient. *)
Definition frameTimeOf (i : Z) : Q :=
  Double.div (inject_Z i) (inject_Z frameRate).

(** [10 + Math.floor((i / totalFrames) * 80)] *)
Definition frameProgress (total i : Z) : Z :=
  10 + Qfloor (Double.mul (Double.div (inject_Z i) (inject_Z total)) 80).

(** [await Promise.all(allImageUrls.map(url => new Promise(...)))]: rejects
    as soon as one image fails to load. *)
Definition preloadImages (w : World) (allImageUrls : list jsstring) : M unit :=
  if forallb (imageLoads w) allImageUrls then ret tt
  else throw (lit "image failed to load").

(** One turn of the frame loop: report, draw, hand the still to the
    encoder. *)
Definition captureFrame (w : World) (p : Props) (total i : Z) : M unit :=
  let frameTime := frameTimeOf i in
  let progress := frameProgress total i in
  setExportProgress progress ;;
  emit (Drawn i frameTime
          (currentExportBgUrl (aiImages p) (imageUrl p) frameTime)
          (currentLyricLines (timedLyrics p) frameTime)
          (frameKaraokeProgress (timedLyrics p) frameTime)) ;;
  fetchFile (frameFetchSucceeds w i) ;;
  writeFile (frameName i) (FrameImage i).

(** [for (let i = 0; i < totalFrames; i++) { ... }] entered at [i]. *)
Fixpoint frameLoop (fuel : nat) (w : World) (p : Props) (total i : Z)
  : M unit :=
  if i <? total then
    match fuel with
    | O => outOfFuel
    | S fuel' =>
        captureFrame w p total i ;; frameLoop fuel' w p total (i + 1)
    end
  else ret tt.

(** [await ffmpeg.run(...)]: on success the encoder has written
    [output.mp4]. *)
Definition run (w : World) : M unit :=
  emit (Encoded frameRate) ;;
  if encodeSucceeds w then writeFile outputName VideoData
  else throw (lit "ffmpeg.run rejected").

(** The cleanup loop
    [for (let i = 0; i < totalFrames; i++) ffmpeg.FS('unlink', ...)]. *)
Fixpoint unlinkLoop (fuel : nat) (total i : Z) : M unit :=
  if i <? total then
    match fuel with
    | O => outOfFuel
    | S fuel' => unlink (frameName i) ;; unlinkLoop fuel' total (i + 1)
    end
  else ret tt.

(** The body of the [try] block. *)
Definition exportBody (w : World) (p : Props) : M unit :=
  ensureLoaded w ;;
  setExportProgress 5 ;;
  fetchFile (audioFetchSucceeds w) ;;
  writeFile inputName AudioData ;;
  (if contextAvailable w then ret tt else throw (lit "no canvas context")) ;;
  let total := totalFrames (duration p) in
  let allImageUrls := imageUrl p :: map AiImage.url (aiImages p) in
  preloadImages w allImageUrls ;;
  frameLoop (Z.to_nat total) w p total 0 ;;
  setExportProgress 90 ;;
  run w ;;
  setExportProgress 99 ;;
  _ <- readFile outputName ;;
  emit (Downloaded (songTitle p ++ lit " - " ++ artistName p ++ lit ".mp4")) ;;
  unlinkLoop (Z.to_nat total) total 0 ;;
  unlink inputName ;;
  unlink outputName.

(** [handleExport]. *)
Definition handleExport (w : World) (p : Props) : M unit :=
  setIsExporting true ;;
  setExportProgress 0 ;;
  tryCatchFinally
    (exportBody w p)
    (emit Alert)
    (setIsExporting false ;; clearExportProgress).

(** Two states with the same files, and with the same frames drawn. *)
Definition sameFiles (s s' : State) : Prop := FS s' = FS s.

(** The frames a run drew, in the order of drawing. *)
Definition drawnFrames (evs : list Event) : list (Z * Q) :=
  omap (fun e => match e with
                 | Drawn i frameTime _ _ _ => Some (i, frameTime)
                 | _ => None
                 end) evs.

Definition sameFrames (s s' : State) : Prop :=
  drawnFrames (events s') = drawnFrames (events s).

(** A computation that draws no frame, however it completes. *)
Definition NoDraw {A} (m : M A) : Prop :=
  forall s s' c, m s = (s', c) -> sameFrames s s'.

(** A computation that draws the frames [lo], [lo + 1], ... in this order,
    each at its time, stops before [hi] at the latest, and has drawn them
    all up to [hi - 1] when it completes normally. *)
Definition DrawsFrames {A} (lo hi : Z) (m : M A) : Prop :=
  forall s s' c,
    m s = (s', c) ->
    exists k,
      lo <= k <= hi
      /\ drawnFrames (events s') =
         drawnFrames (events s)
         ++ map (fun i => (i, frameTimeOf i)) (seqZ lo (k - lo))
      /\ (forall a, c = Normal a -> k = hi).

(** The files an export of [total] frames creates. *)
Definition transientNames (total : Z) : list jsstring :=
  map frameName (seqZ 0 total) ++ [inputName; outputName].

Definition freshState : State := mkState false ∅ false None [].

Definition allSucceeds : World :=
  mkWorld true true true (fun _ => true) (fun _ => true) true.

Definition imageFails : World :=
  mkWorld true true true (fun _ => false) (fun _ => true) true.

Definition encodeFails : World :=
  mkWorld true true true (fun _ => true) (fun _ => true) false.

Definition someProps (duration : Q) : Props :=
  mkProps [hello] (lit "cover.jpg") [] duration (lit "Song") (lit "Artist").

End ExportJob.

(** ** Subtitle import ([parseSrt], [handleSrtImport]) *)

Module Srt.

(** [s.replace(/\r/g, '')] *)
Definition removeCR (s : jsstring) : jsstring :=
  List.filter (fun c => negb (c =? 13)%N) s.

(** [s.split(/\n\n+/)]: the separators are the maximal runs of two or more
    line feeds.  The scan is in a block, or has read one line feed that may
    start a separator, or is inside a separator. *)
Inductive SplitState := InBlock | AfterLineFeed | InSeparator.

Fixpoint splitBlocks_go (st : SplitState) (cur : jsstring) (s : jsstring)
  : list jsstring :=
  match s with
  | [] =>
      match st with
      | InBlock => [rev cur]
      | AfterLineFeed => [rev (10%N :: cur)]
      | InSeparator => [[]]
      end
  | c :: s' =>
      if (c =? 10)%N then
        match st with
        | InBlock => splitBlocks_go AfterLineFeed cur s'
        | AfterLineFeed => rev cur :: splitBlocks_go InSeparator [] s'
        | InSeparator => splitBlocks_go InSeparator [] s'
        end
      else
        match st with
        | InBlock => splitBlocks_go InBlock (c :: cur) s'
        | AfterLineFeed => splitBlocks_go InBlock (c :: 10%N :: cur) s'
        | InSeparator => splitBlocks_go InBlock [c] s'
        end
  end.

Definition splitBlocks (s : jsstring) : list jsstring :=
  splitBlocks_go InBlock [] s.

(** [s.split(sep)] for a separator of one code unit. *)
Fixpoint splitOn_go (sep : char) (cur : jsstring) (s : jsstring)
  : list jsstring :=
  match s with
  | [] => [rev cur]
  | c :: s' =>
      if (c =? sep)%N then rev cur :: splitOn_go sep [] s'
      else splitOn_go sep (c :: cur) s'
  end.

Definition splitOn (sep : char) (s : jsstring) : list jsstring :=
  splitOn_go sep [] s.

Fixpoint startsWith (pat s : jsstring) : bool :=
  match pat, s with
  | [], _ => true
  | p :: pat', c :: s' => (p =? c)%N && startsWith pat' s'
  | _ :: _, [] => false
  end.

(** [s.includes(pat)] *)
Fixpoint includes (pat s : jsstring) : bool :=
  startsWith pat s
  || match s with
     | [] => false
     | _ :: s' => includes pat s'
     end.

Definition arrow : jsstring := lit "-->".

(** [\d] *)
Definition isDigit (c : char) : bool := ((48 <=? c) && (c <=? 57))%N.

(** [\d{2}:\d{2}:\d{2}[,.]\d{3}] at the head of [s]: the text matched and
    what follows it. *)
Definition timecodeAt (s : jsstring) : option (jsstring * jsstring) :=
  match s with
  | h1 :: h2 :: c1 :: m1 :: m2 :: c2 :: s1 :: s2 :: sep :: f1 :: f2 :: f3
    :: rest =>
      if (isDigit h1 && isDigit h2 && (c1 =? 58) && isDigit m1 && isDigit m2
          && (c2 =? 58) && isDigit s1 && isDigit s2
          && ((sep =? 44) || (sep =? 46))
          && isDigit f1 && isDigit f2 && isDigit f3)%N
      then Some ([h1; h2; c1; m1; m2; c2; s1; s2; sep; f1; f2; f3], rest)
      else None
  | _ => None
  end.

(** The whole pattern
    [(\d{2}:\d{2}:\d{2}[,.]\d{3}) --> (\d{2}:\d{2}:\d{2}[,.]\d{3})] at the head
    of [s]: its two groups. *)
Definition timeLineAt (s : jsstring) : option (jsstring * jsstring) :=
  match timecodeAt s with
  | Some (g1, rest) =>
      if startsWith (lit " --> ") rest then
        match timecodeAt (drop 5 rest) with
        | Some (g2, _) => Some (g1, g2)
        | None => None
        end
      else None
  | None => None
  end.

(** [timeLine.match(/.../)]: the groups of the leftmost match, [None] for
    [null]. *)
Fixpoint timeMatch (s : jsstring) : option (jsstring * jsstring) :=
  match timeLineAt s with
  | Some groups => Some groups
  | None =>
      match s with
      | [] => None
      | _ :: s' => timeMatch s'
      end
  end.

(** [s.replace(',', '.')]: the first comma only. *)
Fixpoint replaceFirstComma (s : jsstring) : jsstring :=
  match s with
  | [] => []
  | c :: s' => if (c =? 44)%N then 46%N :: s' else c :: replaceFirstComma s'
  end.

Fixpoint takeDigits (s : jsstring) : jsstring :=
  match s with
  | c :: s' => if isDigit c then c :: takeDigits s' else []
  | [] => []
  end.

Fixpoint dropDigits (s : jsstring) : jsstring :=
  match s with
  | c :: s' => if isDigit c then dropDigits s' else s
  | [] => []
  end.

(** The number a run of decimal digits denotes. *)
Definition digitsValue (ds : jsstring) : Z :=
  fold_left (fun acc c => 10 * acc + (Z.of_N c - 48)) ds 0.

(** [parseInt(s)] and [parseFloat(s)] on the strings the parser passes:
    text that starts with decimal digits, without sign, white space, radix
    prefix or exponent.  The result is the number nearest to the decimal
    value.  [None] is [NaN], also for [undefined]. *)
Definition parseInt (s : option jsstring) : option Q :=
  match s with
  | None => None
  | Some s =>
      match takeDigits s with
      | [] => None
      | ds => Some (Double.round (inject_Z (digitsValue ds)))
      end
  end.

Definition parseFloat (s : option jsstring) : option Q :=
  match s with
  | None => None
  | Some s =>
      let ip := takeDigits s in
      match dropDigits s with
      | 46%N :: rest =>
          let fp := takeDigits rest in
          match ip, fp with
          | [], [] => None
          | _, _ =>
              Some (Double.round
                      (inject_Z (digitsValue ip)
                       + inject_Z (digitsValue fp)
                         / inject_Z (10 ^ Z.of_nat (length fp))))%Q
          end
      | _ =>
          match ip with
          | [] => None
          | _ => Some (Double.round (inject_Z (digitsValue ip)))
          end
      end
  end.

(** [timecodeToSeconds(time)]; arithmetic on [NaN] gives [NaN]. *)
Definition timecodeToSeconds (time : jsstring) : option Q :=
  let parts := splitOn 58%N (replaceFirstComma time) in
  match parseInt (at_ parts 0), parseInt (at_ parts 1),
        parseFloat (at_ parts 2) with
  | Some h, Some m, Some sec =>
      Some (Double.add (Double.add (Double.mul h 3600) (Double.mul m 60)) sec)
  | _, _, _ => None
  end.

(** The callback of [blocks.map(...)]; [None] is [null].  The last [None]
    stands for an entry with a [NaN] time, which the groups of a match never
    give (see [timeMatch_groups]). *)
Definition parseBlock (block : jsstring) : option TimedLyric :=
  let lines := splitOn 10%N block in
  if (length lines <? 2)%nat then None
  else
    let timeLineIndex := findIndex (includes arrow) lines in
    if (timeLineIndex =? -1) || (Z.of_nat (length lines) <? timeLineIndex + 1)
    then None
    else
      match at_ lines timeLineIndex with
      | None => None
      | Some timeLine =>
          let textLines :=
            join newline (drop (Z.to_nat (timeLineIndex + 1)) lines) in
          match timeMatch timeLine with
          | None => None
          | Some (g1, g2) =>
              match timecodeToSeconds g1, timecodeToSeconds g2 with
              | Some startSeconds, Some endSeconds =>
                  Some (mkLyric textLines startSeconds endSeconds)
              | _, _ => None
              end
          end
      end.

(** [parseSrt(srt)]: [blocks.map(...).filter(lyric => lyric !== null)]. *)
Definition parseSrt (srt : jsstring) : list TimedLyric :=
  let blocks := splitBlocks (removeCR (trim srt)) in
  omap id (map parseBlock blocks).

(** What [handleSrtImport] ends in. *)
Inductive SrtImport :=
| NothingChosen
| AlertNoAudio
| AlertParseFailed
| AlertNoDuration
| TimingComplete (app : AppModel).

(** [handleSrtImport]: [file] is the text of the chosen file, if one was
    chosen; [audioFile] is [None] when no audio was uploaded, and otherwise
    the duration the audio element reports, [None] when it fires
    [onerror]. *)
Definition handleSrtImport (file : option jsstring)
    (audioFile : option (option Q)) : SrtImport :=
  match file with
  | None => NothingChosen
  | Some srtContent =>
      match audioFile with
      | None => AlertNoAudio
      | Some audioDuration =>
          let parsedLyrics := parseSrt srtContent in
          if (length parsedLyrics =? 0)%nat then AlertParseFailed
          else
            match audioDuration with
            | Some duration =>
                TimingComplete (handleTimingComplete parsedLyrics duration)
            | None => AlertNoDuration
            end
      end
  end.

(** The seconds a matched timecode [HH:MM:SS,mmm] denotes, as a number:
    the hours and the minutes are whole numbers, the seconds are the number
    nearest to [SS.mmm], and each product and sum is rounded. *)
Definition digit (c : char) : Z := Z.of_N c - 48.

Definition secondsOf (h1 h2 m1 m2 s1 s2 f1 f2 f3 : char) : Q :=
  Double.add
    (Double.add
       (Double.mul (Double.round (inject_Z (10 * digit h1 + digit h2))) 3600)
       (Double.mul (Double.round (inject_Z (10 * digit m1 + digit m2))) 60))
    (Double.round
       (inject_Z (10 * digit s1 + digit s2)
        + inject_Z (100 * digit f1 + 10 * digit f2 + digit f3) / 1000)).

(** [g] is a timecode [HH:MM:SS,mmm] or [HH:MM:SS.mmm] and denotes [q]
    seconds. *)
Definition timecodeValue (g : jsstring) (q : Q) : Prop :=
  exists h1 h2 m1 m2 s1 s2 sep f1 f2 f3,
    g = [h1; h2; 58%N; m1; m2; 58%N; s1; s2; sep; f1; f2; f3]
    /\ forallb isDigit [h1; h2; m1; m2; s1; s2; f1; f2; f3] = true
    /\ (sep = 44%N \/ sep = 46%N)
    /\ (q == secondsOf h1 h2 m1 m2 s1 s2 f1 f2 f3)%Q.

Definition sampleBlock : jsstring :=
  lit "7" ++ newline ++ lit "00:01:03.250 --> 00:01:04,000" ++ newline
  ++ lit "Bye" ++ newline ++ lit "now".

Definition sampleSrt : jsstring :=
  lit "1" ++ newline ++ lit "00:00:01,000 --> 00:00:02,500" ++ newline
  ++ lit "Hello" ++ newline ++ lit "World" ++ newline ++ newline
  ++ lit "no time line here" ++ newline ++ lit "at all" ++ newline ++ newline
  ++ lit "3" ++ newline ++ lit "00:00:03 --> 00:00:04" ++ newline
  ++ lit "bad timecode" ++ newline ++ newline ++ newline
  ++ lit "4" ++ newline ++ lit "00:01:03.250 --> 00:01:04.000" ++ newline
  ++ lit "Bye" ++ newline.

End Srt.

(** * Further parts of the code *)

(** ** Line endings *)

(** The text [s] with Windows line endings: every line feed preceded by a
    carriage return. *)
Definition crlf (s : jsstring) : jsstring :=
  flat_map (fun c => if (c =? 10)%N then [13%N; 10%N] else [c]) s.

(** The same read backwards. *)
Definition lfcr (s : jsstring) : jsstring :=
  flat_map (fun c => if (c =? 10)%N then [10%N; 13%N] else [c]) s.

(** ** Subtitle files by their blocks and lines *)

(** A line holds no line feed and no carriage return. *)
Definition isLine (l : jsstring) : bool :=
  forallb (fun c => negb (c =? 10)%N && negb (c =? 13)%N) l.

(** The first and the last code unit of [s] are there and are not white
    space. *)
Definition solidEnds (s : jsstring) : bool :=
  match head s, last s with
  | Some c, Some d => negb (isWhiteSpace c) && negb (isWhiteSpace d)
  | _, _ => false
  end.

(** A block as it stands in a file, by its lines: there is one at least,
    and none of them is empty, since an empty line ends a block. *)
Definition isBlock (lines : list jsstring) : bool :=
  negb (match lines with [] => true | _ => false end)
  && forallb (fun l => isLine l && negb (isEmpty l)) lines.

(** The text of a file: its blocks, each given by its lines and, but for the
    last, followed by [1 + gap] empty lines. *)
Fixpoint fileText (blocks : list (list jsstring * nat)) : jsstring :=
  match blocks with
  | [] => []
  | (lines, gap) :: rest =>
      join newline lines
      ++ match rest with
         | [] => []
         | _ => replicate (2 + gap) 10%N ++ fileText rest
         end
  end.

(** A block that is a time line and nothing else. *)
Definition loneTimeLine : jsstring := lit "00:00:01,000 --> 00:00:02,000".

(** An entry, then a lone time line after two empty lines, then a block
    without a time line after one. *)
Definition sampleBlocks : list (list jsstring * nat) :=
  [([lit "1"; lit "00:00:01,000 --> 00:00:02,500"; lit "Hello"], 1%nat);
   ([loneTimeLine], 0%nat);
   ([lit "no time line"; lit " at all"], 0%nat)].

(** ** Windows of stanzas and of generated images *)

(** A time window [(startTime, endTime)]. *)
Definition Span : Type := (Q * Q)%type.

Definition lineSpan (l : TimedLyric) : Span := (startTime l, endTime l).

Definition stanzaSpan (st : Stanza.t) : Span :=
  (Stanza.startTime st, Stanza.endTime st).

Definition taskSpan (task : ImageGenerationTask.t) : Span :=
  (ImageGenerationTask.startTime task, ImageGenerationTask.endTime task).

Definition jsonTaskSpan (task : JsonTask.t) : Span :=
  (JsonTask.startTime task, JsonTask.endTime task).

Definition imageSpan (img : AiImage.t) : Span :=
  (AiImage.startTime img, AiImage.endTime img).

(** The first window ends no later than the second one starts. *)
Definition spanBefore (a b : Span) : Prop := (snd a <= fst b)%Q.

(** An image model that always answers with the same image. *)
Definition alwaysImage : jsstring -> ImageResponse :=
  fun _ => ImageBytes (lit "QUJD").

(** An image model whose calls all reject. *)
Definition alwaysRejects : jsstring -> ImageResponse :=
  fun _ => ImageCallRejected.

Definition spanOk (s : Span) : Prop := (fst s <= snd s)%Q.

(** Windows in time order that do not overlap: every window starts no later
    than it ends, and ends no later than every later window starts. *)
Definition orderedSpans (l : list Span) : Prop :=
  StronglySorted spanBefore l /\ Forall spanOk l.

Definition imageOfAB : AiImage.t :=
  AiImage.mk (lit "data:image/jpeg;base64,QUJD") 0 3.

(** ** The events of an export *)

Module ExportScript.
Import ExportJob.

(** What one turn of the frame loop reports and draws. *)
Definition frameEvents (p : Props) (total i : Z) : list Event :=
  [Progress (frameProgress total i);
   Drawn i (frameTimeOf i)
     (currentExportBgUrl (aiImages p) (imageUrl p) (frameTimeOf i))
     (currentLyricLines (timedLyrics p) (frameTimeOf i))
     (frameKaraokeProgress (timedLyrics p) (frameTimeOf i))].

(** The events of the [try] block in the order of its statements. *)
Definition fullScript (p : Props) : list Event :=
  let total := totalFrames (duration p) in
  [Progress 5]
  ++ flat_map (frameEvents p total) (seqZ 0 total)
  ++ [Progress 90; Encoded frameRate; Progress 99;
      Downloaded (songTitle p ++ lit " - " ++ artistName p ++ lit ".mp4")].

(** A computation whose events are an initial part of [script], and all of
    it when the computation completes. *)
Definition Scripted {A} (script : list Event) (m : M A) : Prop :=
  forall s s' c,
    m s = (s', c) ->
    exists new,
      events s' = events s ++ new
      /\ new `prefix_of` script
      /\ (forall a, c = Normal a -> new = script).

(** The percentages reported, in the order of the reports. *)
Definition progressValues (evs : list Event) : list Z :=
  omap (fun e => match e with Progress n => Some n | _ => None end) evs.

(** The events a run added to the log. *)
Definition newEvents (s s' : State) : list Event :=
  drop (length (events s)) (events s').

(** The files other than [names] are as before, and the encoder is still
    loaded when it was. *)
Definition RestKept (names : list jsstring) (s s' : State) : Prop :=
  (forall name, ~ In name names -> FS s' !! name = FS s !! name)
  /\ (isLoaded s = true -> isLoaded s' = true).

Definition Keeps {A} (names : list jsstring) (m : M A) : Prop :=
  forall s s' c, m s = (s', c) -> RestKept names s s'.

(** Every collaborator of a run from [s] answers with success: the encoder
    is loaded or loads, the audio is fetched, the canvas gives a context,
    every image loads, every frame is fetched and the encoder runs. *)
Definition allStepsSucceed (w : World) (p : Props) (s : State) : bool :=
  (isLoaded s || loadSucceeds w)
  && audioFetchSucceeds w
  && contextAvailable w
  && forallb (imageLoads w) (imageUrl p :: map AiImage.url (aiImages p))
  && forallb (frameFetchSucceeds w) (seqZ 0 (totalFrames (duration p)))
  && encodeSucceeds w.

(** A computation that completes from [s], in a state that satisfies
    [post]. *)
Definition Succeeds {A} (m : M A) (s : State) (post : State -> Prop) : Prop :=
  exists a s', m s = (s', Normal a) /\ post s'.

(** A computation that never logs [e], and completes only if [cond]. *)
Definition Quiet {A} (e : Event) (cond : Prop) (m : M A) : Prop :=
  forall s s' c,
    m s = (s', c) ->
    (exists new, events s' = events s ++ new /\ ~ In e new)
    /\ (forall a, c = Normal a -> cond).

(** A computation that logs [e] only if [cond], and completes only if
    [cond]. *)
Definition Staged {A} (e : Event) (cond : Prop) (m : M A) : Prop :=
  forall s s' c,
    m s = (s', c) ->
    exists new,
      events s' = events s ++ new
      /\ (In e new -> cond)
      /\ (forall a, c = Normal a -> cond).

(** The file [name] exists. *)
Definition Present (name : jsstring) (s : State) : Prop :=
  is_Some (FS s !! name).

(** The state a failed export of three frames leaves. *)
Definition afterFailedExport : State :=
  fst (handleExport encodeFails (someProps (1 # 10)) freshState).

End ExportScript.

(** ** The gate of the image generation ([handleUnlockAi], [handleAiGenerate]) *)

Module AiGate.

Inductive Notice :=
| NoticeUnlocked
| NoticeWrongPassword
| NoticeLocked
| NoticeFailed (message : jsstring).

(** [handleUnlockAi] of the application: [password] is the answer of
    [prompt], [None] when the dialog is cancelled; the dialog is not shown
    when the feature is unlocked already.  The result is the new
    [isAiUnlocked] and the alerts shown. *)
Definition handleUnlockAi (isAiUnlocked : bool) (password : option jsstring)
  : bool * list Notice :=
  if isAiUnlocked then (isAiUnlocked, [])
  else
    match password with
    | Some pw =>
        if streq pw (lit "8888") then (true, [NoticeUnlocked])
        else if negb (isEmpty pw) then (isAiUnlocked, [NoticeWrongPassword])
        else (isAiUnlocked, [])
    | None => (isAiUnlocked, [])
    end.

(** The clicks on the unlock button in order, each with the answer the
    dialog would get. *)
Definition unlockClicks (isAiUnlocked : bool)
    (answers : list (option jsstring)) : bool :=
  foldl (fun unlocked password => fst (handleUnlockAi unlocked password))
        isAiUnlocked answers.

(** The state of the player that the generation sets. *)
Record State := mkState {
  aiImages : list AiImage.t;
  isGeneratingAi : bool;
  aiGenerationProgress : option Z;
  notices : list Notice
}.

(** The player as it is mounted: [useState<AiImage[]>([])]. *)
Definition mounted : State := mkState [] false None [].

(** What the two models answer during one generation. *)
Record Answers := mkAnswers {
  promptResponse : PromptResponse;
  generateImages : jsstring -> ImageResponse
}.

(** [handleAiGenerate]: the state when the call has settled. *)
Definition handleAiGenerate (isAiUnlocked : bool)
    (timedLyrics : list TimedLyric) (songTitle : jsstring)
    (answers : Answers) (st : State) : State :=
  if negb isAiUnlocked then
    mkState (aiImages st) (isGeneratingAi st) (aiGenerationProgress st)
            (notices st ++ [NoticeLocked])
  else
    match generateVisualsForLyrics timedLyrics songTitle
            (promptResponse answers) (generateImages answers) with
    | Resolved images => mkState images false None (notices st)
    | Rejected message =>
        mkState (aiImages st) false None
                (notices st ++ [NoticeFailed message])
    end.

(** The clicks on the generation button in order, from the mounted
    player. *)
Definition generateClicks (isAiUnlocked : bool)
    (timedLyrics : list TimedLyric) (songTitle : jsstring)
    (clicks : list Answers) : State :=
  foldl (fun st answers =>
           handleAiGenerate isAiUnlocked timedLyrics songTitle answers st)
        mounted clicks.

(** The states of the player: as it is mounted, and after a click on the
    generation button, whatever the props and the answers of the models are
    at that click.  Nothing else sets [aiImages]. *)
Inductive Reachable : State -> Prop :=
| reachable_mounted : Reachable mounted
| reachable_generate isAiUnlocked timedLyrics songTitle answers st :
    Reachable st ->
    Reachable (handleAiGenerate isAiUnlocked timedLyrics songTitle answers st).


End AiGate.

(** ** The time display ([formatTime]) *)

(** [Math.trunc]: the integer part, towards zero. *)
Definition Qtrunc (x : Q) : Z := if Qltb x 0 then Qceiling x else Qfloor x.

(** [x % y] on finite numbers, [y] not zero: [x - y * trunc(x / y)], which
    has the sign of [x]. *)
Definition jsRem (x y : Q) : Q := x - y * inject_Z (Qtrunc (x / y)).

(** [formatTime(seconds)].  [Infinity % 60] is [NaN], so every number that
    is not finite is shown as ['0:00']. *)
Definition formatTime (seconds : JsNum) : jsstring :=
  match seconds with
  | Finite q =>
      let minutes := Qfloor (q / 60) in
      let secs := Qfloor (jsRem q 60) in
      lit (pretty minutes) ++ lit ":"
      ++ ExportJob.padStart 2 48%N (lit (pretty secs))
  | _ => lit "0:00"
  end.

(** ** The progress of a generation ([onProgress]) *)

(** [Math.round]: the nearest integer, halves upwards. *)
Definition jsRound (x : Q) : Z := Qfloor (x + (1 # 2)).

(** [20 + Math.round((i / totalImages) * 80)] *)
Definition imageProgress (totalImages i : Z) : Z :=
  20 + jsRound (Double.mul (Double.div (inject_Z i) (inject_Z totalImages)) 80).

(** The percentages the image loop reports, entered at index [i]: one
    before each call, until a call rejects. *)
Fixpoint imageLoopProgress (generateImages : jsstring -> ImageResponse)
    (tasks : list ImageGenerationTask.t) (totalImages i : Z) : list Z :=
  match tasks with
  | [] => []
  | task :: tasks' =>
      imageProgress totalImages i
      :: match generateImages (ImageGenerationTask.prompt task) with
         | ImageCallRejected => []
         | _ => imageLoopProgress generateImages tasks' totalImages (i + 1)
         end
  end.

Fixpoint jsonImageLoopProgress (generateImages : JsValue -> ImageResponse)
    (tasks : list JsonTask.t) (totalImages i : Z) : list Z :=
  match tasks with
  | [] => []
  | task :: tasks' =>
      imageProgress totalImages i
      :: match generateImages (JsonTask.prompt task) with
         | ImageCallRejected => []
         | _ => jsonImageLoopProgress generateImages tasks' totalImages (i + 1)
         end
  end.

(** The percentages [generateVisualsForLyrics] hands to [onProgress], in
    order: 0 at the start, 10 before the prompts are asked for, one value
    before each image call, and 100 before the images are returned. *)
Definition generateVisualsProgress (timedLyrics : list TimedLyric)
    (songTitle : jsstring) (promptResponse : PromptResponse)
    (generateImages : jsstring -> ImageResponse) : list Z :=
  let toGroup := lyricsToProcess timedLyrics in
  0 :: if (length toGroup =? 0)%nat then []
       else
         match groupStanzas toGroup with
         | None => []
         | Some stanzas =>
             10 :: match promptResponse with
                   | PromptsParsed generatedPrompts =>
                       let tasks :=
                         tasksOfStanzas generatedPrompts songTitle stanzas in
                       imageLoopProgress generateImages tasks
                         (Z.of_nat (length tasks)) 0
                       ++ match imageLoop generateImages tasks [] with
                          | Resolved _ => [100]
                          | Rejected _ => []
                          end
                   | PromptsParsedAs generatedPrompts generateImagesFrom =>
                       match jsonTasksOfStanzas generatedPrompts songTitle
                               stanzas with
                       | None => []
                       | Some tasks =>
                           let ask :=
                             askImage generateImages generateImagesFrom in
                           jsonImageLoopProgress ask tasks
                             (Z.of_nat (length tasks)) 0
                           ++ match jsonImageLoop ask tasks [] with
                              | Resolved _ => [100]
                              | Rejected _ => []
                              end
                       end
                   | PromptsUnparseable | PromptCallRejected => []
                   end
         end.
(** * Numbers *)

Section DoubleRounding.
Import Double.

Lemma pow2_pos k : (0 < pow2 k)%Q.
Proof. apply Qpower_0_lt. reflexivity. Qed.

Lemma pow2_succ k : (pow2 (k + 1) == 2 * pow2 k)%Q.
Proof.
  unfold pow2. rewrite Qpower_plus by discriminate.
  change (2 ^ 1)%Q with 2%Q. ring.
Qed.

Lemma pow2_add a b : (pow2 (a + b) == pow2 a * pow2 b)%Q.
Proof. unfold pow2. apply Qpower_plus. discriminate. Qed.

Lemma pow2_le a b : a <= b -> (pow2 a <= pow2 b)%Q.
Proof. intros H. apply Qpower_le_compat_l; [exact H | discriminate]. Qed.

Lemma pow2_lt_inv a b : (pow2 a < pow2 b)%Q -> a < b.
Proof. intros H. apply (Qpower_lt_compat_l_inv 2); [exact H | reflexivity]. Qed.

Lemma pow2_inject k : 0 <= k -> (pow2 k == inject_Z (2 ^ k))%Q.
Proof. intros H. unfold pow2. by rewrite Zpower_Qpower. Qed.

(** [ilog2 x] is the exponent of the binade of [x]. *)
Lemma ilog2_spec x :
  (0 < x)%Q -> (pow2 (ilog2 x) <= x)%Q /\ (x < pow2 (ilog2 x + 1))%Q.
Proof.
  intros Hx. destruct x as [n d]. unfold ilog2. cbn [Qnum Qden].
  assert (Hn : 0 < n) by (unfold Qlt in Hx; simpl in Hx; lia).
  set (ln := Z.log2 n). set (ld := Z.log2 (Z.pos d)).
  destruct (Z.log2_spec n Hn) as [Hn1 Hn2].
  destruct (Z.log2_spec (Z.pos d) ltac:(lia)) as [Hd1 Hd2].
  fold ln in Hn1, Hn2. fold ld in Hd1, Hd2.
  assert (Hln : 0 <= ln) by apply Z.log2_nonneg.
  assert (Hld : 0 <= ld) by apply Z.log2_nonneg.
  set (N := inject_Z n). set (D := inject_Z (Z.pos d)).
  assert (Hx' : (n # d == N / D)%Q) by apply Qmake_Qdiv.
  assert (HA : (pow2 ln <= N)%Q /\ (N < 2 * pow2 ln)%Q).
  { rewrite <- pow2_succ, !pow2_inject by lia. subst N.
    rewrite <- Zle_Qle, <- Zlt_Qlt. rewrite <- Z.add_1_r in Hn2.
    by split. }
  assert (HB : (pow2 ld <= D)%Q /\ (D < 2 * pow2 ld)%Q).
  { rewrite <- pow2_succ, !pow2_inject by lia. subst D.
    rewrite <- Zle_Qle, <- Zlt_Qlt. rewrite <- Z.add_1_r in Hd2.
    by split. }
  pose proof (pow2_pos ln) as HAp. pose proof (pow2_pos ld) as HBp.
  assert (Hsplit : (pow2 ln == pow2 (ln - ld) * pow2 ld)%Q).
  { rewrite <- pow2_add. by replace (ln - ld + ld) with ln by lia. }
  pose proof (pow2_pos (ln - ld)) as HEp.
  pose proof (pow2_pos (ln - ld - 1)) as HHp.
  assert (Hhalf : (pow2 (ln - ld) == 2 * pow2 (ln - ld - 1))%Q).
  { rewrite <- pow2_succ. by replace (ln - ld - 1 + 1) with (ln - ld) by lia. }
  set (E := pow2 (ln - ld)) in *. set (A := pow2 ln) in *.
  set (B := pow2 ld) in *. set (H := pow2 (ln - ld - 1)) in *.
  assert (HD : (0 < D)%Q) by lra.
  assert (HEB : (E * B == 2 * (H * B))%Q) by (rewrite Hhalf; ring).
  assert (HED : (E * D == 2 * (H * D))%Q) by (rewrite Hhalf; ring).
  assert (Hlow : (H < N / D)%Q).
  { apply Qlt_shift_div_l; [exact HD |].
    assert (H * D < H * (2 * B))%Q by (apply Qmult_lt_l; lra). lra. }
  assert (Hhigh : (N / D < 2 * E)%Q).
  { apply Qlt_shift_div_r; [exact HD |].
    assert (E * B <= E * D)%Q by (apply Qmult_le_l; lra). lra. }
  destruct (Qle_bool E (n # d)) eqn:Htest.
  - apply Qle_bool_iff in Htest. split; [exact Htest |].
    rewrite pow2_succ. fold E. rewrite Hx'. exact Hhigh.
  - assert (Hlt : (n # d < E)%Q).
    { apply Qnot_le_lt. intros Hle. apply Qle_bool_iff in Hle. congruence. }
    split.
    + fold H. rewrite Hx'. lra.
    + replace (ln - ld - 1 + 1) with (ln - ld) by lia. exact Hlt.
Qed.

Lemma ilog2_mono x y : (0 < x)%Q -> (x <= y)%Q -> ilog2 x <= ilog2 y.
Proof.
  intros Hx Hxy.
  destruct (ilog2_spec x Hx) as [Hx1 _].
  destruct (ilog2_spec y ltac:(lra)) as [_ Hy2].
  assert (H : ilog2 x < ilog2 y + 1) by (apply pow2_lt_inv; lra). lia.
Qed.

Lemma rne_mono s s' : (s <= s')%Q -> rne s <= rne s'.
Proof.
  intros H. unfold rne.
  pose proof (Qfloor_resp_le _ _ H) as Hf.
  set (f := Qfloor s) in *. set (f' := Qfloor s') in *.
  destruct (Z.eq_dec f f') as [Heq | Hne].
  - rewrite <- Heq.
    destruct (Qcompare_spec (s - inject_Z f) (1 # 2));
      destruct (Qcompare_spec (s' - inject_Z f) (1 # 2));
      destruct (Z.even f); try lia; lra.
  - destruct (s - inject_Z f ?= 1 # 2)%Q;
      destruct (s' - inject_Z f' ?= 1 # 2)%Q;
      destruct (Z.even f); destruct (Z.even f'); lia.
Qed.

Lemma rne_inject k : rne (inject_Z k) = k.
Proof.
  unfold rne. rewrite Qfloor_Z.
  assert (H : (inject_Z k - inject_Z k ?= 1 # 2)%Q = Lt)
    by (apply (proj1 (Qlt_alt _ _)); generalize (inject_Z k); intros q; lra).
  by rewrite H.
Qed.

Lemma roundPos_eq x : (roundPos x == inject_Z (rne (x / ulp x)) * ulp x)%Q.
Proof. apply Qred_correct. Qed.

Lemma ulp_pos x : (0 < ulp x)%Q.
Proof. apply pow2_pos. Qed.

Lemma pow2_ulp x : (pow2 (ilog2 x) == inject_Z (2 ^ 52) * ulp x)%Q.
Proof.
  unfold ulp. rewrite <- pow2_inject, <- pow2_add by lia.
  by replace (52 + (ilog2 x - 52)) with (ilog2 x) by lia.
Qed.

(** Rounding stays in the binade. *)
Lemma roundPos_bounds x :
  (0 < x)%Q ->
  (pow2 (ilog2 x) <= roundPos x)%Q /\ (roundPos x <= pow2 (ilog2 x + 1))%Q.
Proof.
  intros Hx. destruct (ilog2_spec x Hx) as [H1 H2].
  rewrite pow2_succ in H2 |- *. rewrite pow2_ulp in H1, H2 |- *.
  pose proof (ulp_pos x) as Hu. rewrite roundPos_eq.
  set (u := ulp x) in *.
  assert (Hs1 : (inject_Z (2 ^ 52) <= x / u)%Q)
    by (apply Qle_shift_div_l; [exact Hu | exact H1]).
  assert (Hs2 : (x / u <= inject_Z (2 ^ 53))%Q).
  { apply Qle_shift_div_r; [exact Hu |].
    change (inject_Z (2 ^ 53)) with (2 * inject_Z (2 ^ 52))%Q. lra. }
  apply rne_mono in Hs1, Hs2. rewrite rne_inject in Hs1, Hs2.
  rewrite Zle_Qle in Hs1, Hs2.
  change (inject_Z (2 ^ 53)) with (2 * inject_Z (2 ^ 52))%Q in Hs2.
  set (m := inject_Z (rne (x / u))) in *. set (c := inject_Z (2 ^ 52)) in *.
  split; nra.
Qed.

Lemma roundPos_pos x : (0 < x)%Q -> (0 < roundPos x)%Q.
Proof.
  intros Hx. destruct (roundPos_bounds x Hx) as [H _].
  pose proof (pow2_pos (ilog2 x)). lra.
Qed.

Lemma roundPos_mono x y :
  (0 < x)%Q -> (x <= y)%Q -> (roundPos x <= roundPos y)%Q.
Proof.
  intros Hx Hxy. assert (Hy : (0 < y)%Q) by lra.
  pose proof (ilog2_mono x y Hx Hxy) as He.
  destruct (Z.eq_dec (ilog2 x) (ilog2 y)) as [Heq | Hne].
  - rewrite !roundPos_eq. unfold ulp. rewrite <- Heq.
    pose proof (pow2_pos (ilog2 x - 52)) as Hu.
    set (u := pow2 (ilog2 x - 52)) in *.
    assert (Hs : (x / u <= y / u)%Q).
    { unfold Qdiv. apply Qmult_le_compat_r; [exact Hxy |].
      apply Qlt_le_weak, Qinv_lt_0_compat, Hu. }
    apply rne_mono in Hs. rewrite Zle_Qle in Hs.
    apply Qmult_le_compat_r; [exact Hs | lra].
  - destruct (roundPos_bounds x Hx) as [_ H1].
    destruct (roundPos_bounds y Hy) as [H2 _].
    pose proof (pow2_le (ilog2 x + 1) (ilog2 y) ltac:(lia)). lra.
Qed.

(** Rounding keeps the order. *)
Lemma round_mono x y : (x <= y)%Q -> (Double.round x <= Double.round y)%Q.
Proof.
  intros Hxy. unfold Double.round.
  destruct (Qcompare_spec x 0) as [Hx | Hx | Hx];
    destruct (Qcompare_spec y 0) as [Hy | Hy | Hy]; try lra.
  - pose proof (roundPos_pos y Hy). lra.
  - pose proof (roundPos_pos (- x) ltac:(lra)). lra.
  - pose proof (roundPos_mono (- y) (- x) ltac:(lra) ltac:(lra)). lra.
  - pose proof (roundPos_pos (- x) ltac:(lra)).
    pose proof (roundPos_pos y Hy). lra.
  - by apply roundPos_mono.
Qed.

Lemma round_nonneg x : (0 <= x)%Q -> (0 <= Double.round x)%Q.
Proof. intros H. apply (round_mono 0 x H). Qed.

Lemma round_pos x : (0 < x)%Q -> (0 < Double.round x)%Q.
Proof.
  intros H. unfold Double.round.
  destruct (Qcompare_spec x 0); [lra | lra | by apply roundPos_pos].
Qed.

End DoubleRounding.

(** * Properties *)

(** ** Comparisons *)

Lemma Qleb_true x y : Qleb x y = true <-> (x <= y)%Q.
Proof. apply Qle_bool_iff. Qed.

Lemma Qleb_false x y : Qleb x y = false <-> (y < x)%Q.
Proof.
  unfold Qleb. rewrite <- not_true_iff_false, Qle_bool_iff.
  split; [apply Qnot_le_lt | apply Qlt_not_le].
Qed.

Lemma Qltb_true x y : Qltb x y = true <-> (x < y)%Q.
Proof. unfold Qltb. rewrite negb_true_iff. apply Qleb_false. Qed.

Lemma Qltb_false x y : Qltb x y = false <-> (y <= x)%Q.
Proof. unfold Qltb. rewrite negb_false_iff. apply Qleb_true. Qed.


(** ** Array helpers *)

Lemma at_of_nat {A} (l : list A) (i : nat) : at_ l (Z.of_nat i) = l !! i.
Proof.
  unfold at_. destruct (Z.ltb_spec (Z.of_nat i) 0); [lia |].
  by rewrite Nat2Z.id.
Qed.

Lemma at_succ {A} (l : list A) (i : nat) : at_ l (Z.of_nat i + 1) = l !! S i.
Proof.
  replace (Z.of_nat i + 1) with (Z.of_nat (S i)) by lia. apply at_of_nat.
Qed.

Lemma at_pred {A} (l : list A) (i : nat) :
  at_ l (Z.of_nat i - 1) = neighbourBefore l i.
Proof.
  destruct i as [| j]; [reflexivity |].
  replace (Z.of_nat (S j) - 1) with (Z.of_nat j) by lia. apply at_of_nat.
Qed.

Lemma at_last {A} (l : list A) : at_ l (Z.of_nat (length l) - 1) = last l.
Proof.
  rewrite at_pred. destruct l as [| x l] using rev_ind; [reflexivity |].
  rewrite length_app, Nat.add_comm. simpl.
  rewrite last_snoc. by rewrite lookup_app_r, Nat.sub_diag.
Qed.

Lemma at_zero {A} (l : list A) : at_ l 0 = head l.
Proof. by destruct l. Qed.

(** [findIndex] returns [-1] exactly when no element satisfies the
    predicate, and the least satisfying index otherwise. *)
Lemma findIndex_from_spec {A} (p : A -> bool) (l : list A) (k : Z) :
  (findIndex_from p l k = -1 /\ forall i x, l !! i = Some x -> p x = false)
  \/ (exists i x, findIndex_from p l k = k + Z.of_nat i
        /\ l !! i = Some x /\ p x = true
        /\ forall j y, (j < i)%nat -> l !! j = Some y -> p y = false).
Proof.
  revert k. induction l as [| a l IH]; intros k; simpl.
  - left. split; [reflexivity | intros i x H; discriminate].
  - destruct (p a) eqn:Hpa.
    + right. exists 0%nat, a. repeat split; [lia | assumption | lia].
    + destruct (IH (k + 1)) as [[-> Hall] | (i & x & -> & Hi & Hx & Hmin)].
      * left. split; [reflexivity |].
        intros [| i] x Hl; simpl in Hl; [congruence | eauto].
      * right. exists (S i), x. repeat split; [lia | assumption | assumption |].
        intros [| j] y Hj Hl; simpl in Hl; [congruence |].
        apply (Hmin j); [lia | assumption].
Qed.

Lemma findIndex_spec {A} (p : A -> bool) (l : list A) :
  (findIndex p l = -1 /\ forall i x, l !! i = Some x -> p x = false)
  \/ (exists i x, findIndex p l = Z.of_nat i
        /\ l !! i = Some x /\ p x = true
        /\ forall j y, (j < i)%nat -> l !! j = Some y -> p y = false).
Proof. apply (findIndex_from_spec p l 0). Qed.

(** The backward scan returns the greatest index below [n] whose line has
    ended by [t], or [-1] when there is none. *)
Lemma scanBack_spec (rl : list TimedLyric) (t : Q) (n : nat) :
  (n <= length rl)%nat ->
  (scanBack rl t n = -1
   /\ forall i l, (i < n)%nat -> rl !! i = Some l -> (t < endTime l)%Q)
  \/ (exists i l, scanBack rl t n = Z.of_nat i /\ (i < n)%nat
        /\ rl !! i = Some l /\ (endTime l <= t)%Q
        /\ forall j l', (i < j < n)%nat -> rl !! j = Some l' ->
                        (t < endTime l')%Q).
Proof.
  induction n as [| n IH]; intros Hn; simpl.
  - left. split; [reflexivity | intros; lia].
  - destruct (lookup_lt_is_Some_2 rl n) as [l Hl]; [lia |]. rewrite Hl.
    destruct (Qleb (endTime l) t) eqn:Hle.
    + right. exists n, l. apply Qleb_true in Hle.
      repeat split; [lia | assumption | assumption | intros; lia].
    + apply Qleb_false in Hle.
      destruct IH as [[-> Hall] | (i & l0 & -> & Hi & Hl0 & Hend & Hlater)];
        [lia | |].
      * left. split; [reflexivity |]. intros i l' Hi Hl'.
        destruct (decide (i = n)) as [-> | Hne]; [congruence |].
        apply (Hall i); [lia | assumption].
      * right. exists i, l0. repeat split; [lia | assumption | assumption |].
        intros j l' Hj Hl'.
        destruct (decide (j = n)) as [-> | Hne]; [congruence |].
        apply (Hlater j); [lia | assumption].
Qed.

(** ** Ordered windows *)

Section SortedWindows.
Variable rl : list TimedLyric.
Hypothesis Hsorted : sortedWindows rl = true.

Lemma sortedWindows_start_le_end i l :
  rl !! i = Some l -> (startTime l <= endTime l)%Q.
Proof using Hsorted.
  revert i Hsorted. induction rl as [| a ls IH]; intros i Hs Hl;
    [discriminate |].
  simpl in Hs. apply andb_prop in Hs as [Hs Hrest].
  apply andb_prop in Hs as [Ha _].
  destruct i as [| i]; simpl in Hl.
  - inversion Hl; subst. by apply Qleb_true.
  - eauto.
Qed.

Lemma sortedWindows_adjacent i l l' :
  rl !! i = Some l -> rl !! S i = Some l' -> (endTime l <= startTime l')%Q.
Proof using Hsorted.
  revert i Hsorted. induction rl as [| a ls IH]; intros i Hs Hl Hl';
    [discriminate |].
  simpl in Hs. apply andb_prop in Hs as [Hs Hrest].
  apply andb_prop in Hs as [_ Hnext].
  destruct i as [| i]; simpl in Hl, Hl'.
  - inversion Hl; subst. destruct ls as [| b ls']; [discriminate |].
    inversion Hl'; subst. by apply Qleb_true.
  - eauto.
Qed.

Lemma sortedWindows_end_mono i j li lj :
  (i <= j)%nat -> rl !! i = Some li -> rl !! j = Some lj ->
  (endTime li <= endTime lj)%Q.
Proof using Hsorted.
  intros Hij Hi. revert lj. induction Hij as [| j Hij IH]; intros lj Hj.
  - assert (li = lj) by congruence. subst. apply Qle_refl.
  - destruct (lookup_lt_is_Some_2 rl j) as [lm Hm];
      [apply lookup_lt_Some in Hj; lia |].
    pose proof (IH lm Hm).
    pose proof (sortedWindows_adjacent j lm lj Hm Hj).
    pose proof (sortedWindows_start_le_end (S j) lj Hj).
    lra.
Qed.

Lemma sortedWindows_end_le_start i j li lj :
  (i < j)%nat -> rl !! i = Some li -> rl !! j = Some lj ->
  (endTime li <= startTime lj)%Q.
Proof using Hsorted.
  intros Hij Hi Hj. destruct j as [| j]; [lia |].
  destruct (lookup_lt_is_Some_2 rl j) as [lm Hm];
    [apply lookup_lt_Some in Hj; lia |].
  pose proof (sortedWindows_end_mono i j li lm ltac:(lia) Hi Hm).
  pose proof (sortedWindows_adjacent j lm lj Hm Hj).
  lra.
Qed.

Lemma sortedWindows_start_mono i j li lj :
  (i <= j)%nat -> rl !! i = Some li -> rl !! j = Some lj ->
  (startTime li <= startTime lj)%Q.
Proof using Hsorted.
  intros Hij Hi Hj. destruct (decide (i = j)) as [-> | Hne].
  - assert (li = lj) by congruence. subst. apply Qle_refl.
  - pose proof (sortedWindows_end_le_start i j li lj ltac:(lia) Hi Hj).
    pose proof (sortedWindows_start_le_end i li Hi). lra.
Qed.

(** At most one window contains a given time. *)
Lemma sortedWindows_window_unique t i j li lj :
  rl !! i = Some li -> rl !! j = Some lj ->
  inWindow t li = true -> inWindow t lj = true -> i = j.
Proof using Hsorted.
  unfold inWindow. intros Hi Hj Hwi Hwj.
  apply andb_prop in Hwi as [Hi1 Hi2]. apply andb_prop in Hwj as [Hj1 Hj2].
  apply Qleb_true in Hi1, Hj1. apply Qltb_true in Hi2, Hj2.
  destruct (Nat.lt_trichotomy i j) as [Hlt | [Heq | Hgt]]; [| assumption |].
  - pose proof (sortedWindows_end_le_start i j li lj Hlt Hi Hj). lra.
  - pose proof (sortedWindows_end_le_start j i lj li Hgt Hj Hi). lra.
Qed.
End SortedWindows.

(** ** Window selection *)

(** The selection as a cascade of the four tests, once the first and the
    last real line are known. *)
Lemma lyricLines_cascade timedLyrics t first lastLyric :
  let rl := List.filter isRealLyric timedLyrics in
  head rl = Some first -> last rl = Some lastLyric ->
  lyricLines timedLyrics t =
    if Qltb t (startTime first) then mkWindow None None (Some first)
    else if Qleb (endTime lastLyric) t then mkWindow (Some lastLyric) None None
    else if negb (findIndex (inWindow t) rl =? -1) then
      mkWindow (at_ rl (findIndex (inWindow t) rl - 1))
               (at_ rl (findIndex (inWindow t) rl))
               (at_ rl (findIndex (inWindow t) rl + 1))
    else if negb (scanBack rl t (length rl) =? -1) then
      mkWindow (at_ rl (scanBack rl t (length rl))) None
               (at_ rl (scanBack rl t (length rl) + 1))
    else nullWindow.
Proof.
  intros rl Hhead Hlast. unfold lyricLines. fold rl.
  destruct rl as [| a rl'] eqn:Hrl; [discriminate |].
  rewrite <- Hrl in *. replace (length rl =? 0)%nat with false
    by (rewrite Hrl; reflexivity).
  rewrite at_zero, Hhead, at_last, Hlast. reflexivity.
Qed.

Lemma currentLyricLines_lyricLines timedLyrics t :
  currentLyricLines timedLyrics t = lyricLines timedLyrics t.
Proof. reflexivity. Qed.

Section BoundaryClasses.
Variable timedLyrics : list TimedLyric.
Variable t : Q.
Local Abbreviation rl := (List.filter isRealLyric timedLyrics).
Hypothesis Hsorted : sortedWindows rl = true.
Variables first lastLyric : TimedLyric.
Hypothesis Hfirst : head rl = Some first.
Hypothesis Hlast : last rl = Some lastLyric.

Lemma real_first_lookup : rl !! 0%nat = Some first.
Proof using Hfirst. by rewrite <- head_lookup. Qed.

Lemma real_last_lookup : rl !! (length rl - 1)%nat = Some lastLyric.
Proof using Hlast. rewrite <- Hlast, last_lookup. f_equal. lia. Qed.

Lemma lyricLines_before_first :
  (t < startTime first)%Q ->
  lyricLines timedLyrics t = mkWindow None None (Some first).
Proof using Hfirst Hlast.
  intros Hlt. rewrite (lyricLines_cascade _ _ first lastLyric) by assumption.
  apply Qltb_true in Hlt. by rewrite Hlt.
Qed.

Lemma first_start_le_last_end : (startTime first <= endTime lastLyric)%Q.
Proof using Hsorted Hfirst Hlast.
  pose proof (sortedWindows_start_mono rl Hsorted 0 (length rl - 1)
                first lastLyric ltac:(lia) real_first_lookup real_last_lookup).
  pose proof (sortedWindows_start_le_end rl Hsorted _ _ real_last_lookup). lra.
Qed.

Lemma lyricLines_after_last :
  (endTime lastLyric <= t)%Q ->
  lyricLines timedLyrics t = mkWindow (Some lastLyric) None None.
Proof using Hsorted Hfirst Hlast.
  intros Hle. rewrite (lyricLines_cascade _ _ first lastLyric) by assumption.
  pose proof first_start_le_last_end.
  replace (Qltb t (startTime first)) with false
    by (symmetry; apply Qltb_false; lra).
  apply Qleb_true in Hle. by rewrite Hle.
Qed.

Lemma lyricLines_in_line i l :
  rl !! i = Some l -> (startTime l <= t)%Q -> (t < endTime l)%Q ->
  lyricLines timedLyrics t =
    mkWindow (neighbourBefore rl i) (Some l) (rl !! S i).
Proof using Hsorted Hfirst Hlast.
  intros Hl Hs He.
  rewrite (lyricLines_cascade _ _ first lastLyric) by assumption. fold rl.
  pose proof (sortedWindows_start_mono rl Hsorted 0 i first l
                ltac:(lia) real_first_lookup Hl).
  pose proof (sortedWindows_end_mono rl Hsorted i (length rl - 1) l lastLyric
                ltac:(apply lookup_lt_Some in Hl; lia) Hl real_last_lookup).
  replace (Qltb t (startTime first)) with false
    by (symmetry; apply Qltb_false; lra).
  replace (Qleb (endTime lastLyric) t) with false
    by (symmetry; apply Qleb_false; lra).
  assert (Hin : inWindow t l = true).
  { unfold inWindow. apply andb_true_intro.
    split; [by apply Qleb_true | by apply Qltb_true]. }
  destruct (findIndex_spec (inWindow t) rl)
    as [[_ Hnone] | (k & x & -> & Hk & Hx & _)].
  - rewrite (Hnone i l Hl) in Hin. discriminate.
  - assert (k = i) as ->
      by exact (sortedWindows_window_unique rl Hsorted t k i x l Hk Hl Hx Hin).
    replace (Z.of_nat i =? -1) with false by (symmetry; apply Z.eqb_neq; lia).
    simpl. by rewrite at_pred, at_of_nat, at_succ, Hl.
Qed.

Lemma lyricLines_in_gap :
  inGap rl t ->
  exists i l, rl !! i = Some l /\ (endTime l <= t)%Q
    /\ (forall j l', (i < j)%nat -> rl !! j = Some l' -> (t < endTime l')%Q)
    /\ (forall k l', rl !! k = Some l' -> (endTime l' <= t)%Q ->
                     (endTime l' <= endTime l)%Q)
    /\ lyricLines timedLyrics t = mkWindow (Some l) None (rl !! S i).
Proof using Hsorted Hfirst Hlast.
  intros (Hnb & Hna & Hnl).
  rewrite (lyricLines_cascade _ _ first lastLyric) by assumption. fold rl.
  assert (Hge : (startTime first <= t)%Q).
  { apply Qnot_lt_le. intros Hlt. apply Hnb. by exists first. }
  assert (Hlt : (t < endTime lastLyric)%Q).
  { apply Qnot_le_lt. intros Hle. apply Hna. by exists lastLyric. }
  replace (Qltb t (startTime first)) with false
    by (symmetry; apply Qltb_false; lra).
  replace (Qleb (endTime lastLyric) t) with false
    by (symmetry; apply Qleb_false; lra).
  assert (Hout : forall i l, rl !! i = Some l -> inWindow t l = false).
  { intros i l Hl. destruct (inWindow t l) eqn:Hw; [| reflexivity].
    exfalso. apply Hnl. exists i, l. unfold inWindow in Hw.
    apply andb_prop in Hw as [H1 H2].
    apply Qleb_true in H1. apply Qltb_true in H2. auto. }
  destruct (findIndex_spec (inWindow t) rl)
    as [[-> _] | (k & x & _ & Hk & Hx & _)];
    [| rewrite (Hout k x Hk) in Hx; discriminate].
  simpl.
  destruct (scanBack_spec rl t (length rl) ltac:(lia))
    as [[_ Hall] | (i & l & -> & Hi & Hl & Hend & Hlater)].
  - (* the first line has ended, since [t] is past its start and outside
       its window *)
    exfalso. pose proof (Hout 0%nat first real_first_lookup) as Hw.
    pose proof (Hall 0%nat first ltac:(pose proof (lookup_lt_Some _ _ _ real_first_lookup); lia)
                  real_first_lookup).
    unfold inWindow in Hw. apply andb_false_iff in Hw as [Hw | Hw].
    + apply Qleb_false in Hw. lra.
    + apply Qltb_false in Hw. lra.
  - exists i, l.
    replace (Z.of_nat i =? -1) with false by (symmetry; apply Z.eqb_neq; lia).
    simpl. rewrite at_of_nat, at_succ, Hl.
    repeat split; try assumption.
    + intros j l' Hj Hl'. apply (Hlater j); [| assumption].
      apply lookup_lt_Some in Hl'. lia.
    + intros k l' Hk Hk'. destruct (le_lt_dec k i) as [Hle | Hgt].
      * exact (sortedWindows_end_mono rl Hsorted k i l' l Hle Hk Hl).
      * pose proof (Hlater k l'
          ltac:(apply lookup_lt_Some in Hk; lia) Hk). lra.
Qed.

Lemma boundary_classes_exhaustive :
  beforeFirst rl t \/ afterLast rl t \/ inLine rl t \/ inGap rl t.
Proof using Hfirst Hlast.
  destruct (Qlt_le_dec t (startTime first)) as [Hb | Hb];
    [left; by exists first |].
  destruct (Qlt_le_dec t (endTime lastLyric)) as [Ha | Ha];
    [| right; left; by exists lastLyric].
  destruct (findIndex_spec (inWindow t) rl)
    as [[_ Hnone] | (k & x & _ & Hk & Hx & _)].
  - right; right; right. repeat split.
    + intros (f & Hf & Hlt). assert (f = first) by congruence. subst. lra.
    + intros (l & Hl & Hle). assert (l = lastLyric) by congruence. subst. lra.
    + intros (i & l & Hl & H1 & H2). pose proof (Hnone i l Hl) as Hw.
      unfold inWindow in Hw. apply andb_false_iff in Hw as [Hw | Hw].
      * apply Qleb_false in Hw. lra.
      * apply Qltb_false in Hw. lra.
  - right; right; left. exists k, x. unfold inWindow in Hx.
    apply andb_prop in Hx as [H1 H2].
    apply Qleb_true in H1. apply Qltb_true in H2. auto.
Qed.

Lemma boundary_classes_exclusive :
  ~ (beforeFirst rl t /\ afterLast rl t)
  /\ ~ (beforeFirst rl t /\ inLine rl t)
  /\ ~ (afterLast rl t /\ inLine rl t).
Proof using Hsorted Hfirst Hlast.
  pose proof first_start_le_last_end as Hfl.
  repeat split.
  - intros [(f & Hf & Hlt) (l & Hl & Hle)].
    assert (f = first) by congruence. assert (l = lastLyric) by congruence.
    subst. lra.
  - intros [(f & Hf & Hlt) (i & l & Hl & H1 & H2)].
    assert (f = first) by congruence. subst.
    pose proof (sortedWindows_start_mono rl Hsorted 0 i first l
                  ltac:(lia) real_first_lookup Hl). lra.
  - intros [(l0 & Hl0 & Hle) (i & l & Hl & H1 & H2)].
    assert (l0 = lastLyric) by congruence. subst.
    pose proof (sortedWindows_end_mono rl Hsorted i (length rl - 1) l
                  lastLyric ltac:(apply lookup_lt_Some in Hl; lia) Hl real_last_lookup).
    lra.
Qed.
End BoundaryClasses.

(** C1. For real lines sorted by start time with non-overlapping half-open
    windows, the playback selection [lyricLines] answers every time [t] by
    its boundary class: before the first start it gives only [next], the
    first line; from the last end on it gives only [prev], the last line;
    inside a window [startTime <= t < endTime] it gives that line as
    [current] with its sequence neighbours; in a gap it gives the nearest
    line that has ended as [prev] and the line after it as [next].  The
    four classes are exhaustive and mutually exclusive.  For the line
    "Hello" from 10 to 12: [next] at 9.999, [current] with progress 0 at 10,
    [prev] with no [current] at 12. *)
Theorem lyricLines_boundary_classes :
  (forall (timedLyrics : list TimedLyric) (t : Q) (first lastLyric : TimedLyric),
      let rl := List.filter isRealLyric timedLyrics in
      sortedWindows rl = true ->
      head rl = Some first -> last rl = Some lastLyric ->
      ((t < startTime first)%Q ->
         lyricLines timedLyrics t = mkWindow None None (Some first))
      /\ ((endTime lastLyric <= t)%Q ->
         lyricLines timedLyrics t = mkWindow (Some lastLyric) None None)
      /\ (forall i l,
            rl !! i = Some l -> (startTime l <= t)%Q -> (t < endTime l)%Q ->
            lyricLines timedLyrics t =
              mkWindow (neighbourBefore rl i) (Some l) (rl !! S i))
      /\ (inGap rl t ->
          exists i l,
            rl !! i = Some l /\ (endTime l <= t)%Q
            /\ (forall j l', (i < j)%nat -> rl !! j = Some l' ->
                             (t < endTime l')%Q)
            /\ (forall k l', rl !! k = Some l' -> (endTime l' <= t)%Q ->
                             (endTime l' <= endTime l)%Q)
            /\ lyricLines timedLyrics t = mkWindow (Some l) None (rl !! S i))
      /\ (beforeFirst rl t \/ afterLast rl t \/ inLine rl t \/ inGap rl t)
      /\ ~ (beforeFirst rl t /\ afterLast rl t)
      /\ ~ (beforeFirst rl t /\ inLine rl t)
      /\ ~ (afterLast rl t /\ inLine rl t))
  /\ lyricLines [hello] (9999 # 1000) = mkWindow None None (Some hello)
  /\ lyricLines [hello] 10 = mkWindow None (Some hello) None
  /\ (exists p, frameKaraokeProgress [hello] 10 = Some p
                /\ JsNum_eq p (Finite 0))
  /\ lyricLines [hello] 12 = mkWindow (Some hello) None None.
Proof.
  split.
  - intros timedLyrics t first lastLyric rl Hsorted Hfirst Hlast.
    split; [exact (lyricLines_before_first timedLyrics t first lastLyric
                     Hfirst Hlast) |].
    split; [exact (lyricLines_after_last timedLyrics t Hsorted first lastLyric
                     Hfirst Hlast) |].
    split; [exact (lyricLines_in_line timedLyrics t Hsorted first lastLyric
                     Hfirst Hlast) |].
    split; [exact (lyricLines_in_gap timedLyrics t Hsorted first lastLyric
                     Hfirst Hlast) |].
    split; [exact (boundary_classes_exhaustive timedLyrics t first lastLyric
                     Hfirst Hlast) |].
    exact (boundary_classes_exclusive timedLyrics t Hsorted first lastLyric
             Hfirst Hlast).
  - repeat split; try reflexivity.
    exists (Finite ((10 - 10) / (12 - 10))). split; reflexivity.
Qed.

Lemma lyricLines_boundary_classes_witness :
  sortedWindows (List.filter isRealLyric [silentIntro; hello]) = true
  /\ lyricLines [silentIntro; hello] 11 = mkWindow None (Some hello) None.
Proof.
  split; [reflexivity |].
  destruct (proj1 lyricLines_boundary_classes [silentIntro; hello] 11%Q
              hello hello eq_refl eq_refl eq_refl) as (_ & _ & Hin & _).
  apply (Hin 0%nat hello eq_refl); unfold Qle, Qlt; simpl; lia.
Defined.

(** ** Only real lines are shown *)

Lemma at_In {A} (l : list A) (i : Z) (x : A) : at_ l i = Some x -> In x l.
Proof.
  unfold at_. destruct (i <? 0); [discriminate |].
  intros H. apply list_elem_of_In. by eapply list_elem_of_lookup_2.
Qed.

Lemma lyricLines_shown_real timedLyrics t l :
  shownIn (lyricLines timedLyrics t) l ->
  In l (List.filter isRealLyric timedLyrics).
Proof.
  unfold shownIn, lyricLines.
  set (rl := List.filter isRealLyric timedLyrics).
  repeat match goal with
         | |- context [if ?c then _ else _] => destruct c
         | |- context [match at_ ?x ?i with _ => _ end] =>
             let H := fresh "Hat" in destruct (at_ x i) eqn:H
         end; simpl; intros [H | [H | H]];
    try discriminate; try (eapply at_In; eassumption);
    inversion H; subst; eapply at_In; eassumption.
Qed.

(** C2. A line whose trimmed text is empty is never [prev], [current] or
    [next], in playback and in export alike: every line shown is a real line
    of the sequence.  With a silent intro from 0 to 5 before the line "A"
    from 5 to 8, the selection at [t = 3] is [next = "A"] and nothing else.
    The window of a silent line is a gap of the real lines: inside a silent
    line between "A" and "B" the selection is [prev = "A"], [next = "B"]. *)
Theorem lyricLines_excludes_silent_lines :
  (forall (timedLyrics : list TimedLyric) (t : Q) (l : TimedLyric),
      shownIn (lyricLines timedLyrics t) l
      \/ shownIn (currentLyricLines timedLyrics t) l ->
      trim (text l) <> [] /\ In l timedLyrics)
  /\ lyricLines [silentIntro; lineA] 3 = mkWindow None None (Some lineA)
  /\ currentLyricLines [silentIntro; lineA] 3 = mkWindow None None (Some lineA)
  /\ lyricLines [lineBefore; silentMiddle; lineAfter] 3
     = mkWindow (Some lineBefore) None (Some lineAfter).
Proof.
  split; [| repeat split; reflexivity].
  intros timedLyrics t l H.
  assert (Hin : In l (List.filter isRealLyric timedLyrics)).
  { destruct H as [H | H]; [| rewrite currentLyricLines_lyricLines in H];
      by apply lyricLines_shown_real in H. }
  apply filter_In in Hin as [Hin Hreal]. split; [| assumption].
  unfold isRealLyric in Hreal. intros Hempty. rewrite Hempty in Hreal.
  discriminate.
Qed.

Lemma lyricLines_excludes_silent_lines_witness :
  trim (text lineA) <> [] /\ In lineA [silentIntro; lineA].
Proof.
  apply (proj1 lyricLines_excludes_silent_lines [silentIntro; lineA] 3%Q lineA).
  left. right. right. reflexivity.
Defined.

(** C4. Playback and export select the same window: for every lyric
    sequence and every time, [lyricLines] and the selection inlined in the
    frame loop return the same [prev], [current] and [next]. *)
Theorem playback_export_same_window
  (timedLyrics : list TimedLyric) (t : Q) :
  lyricLines timedLyrics t = currentLyricLines timedLyrics t.
Proof.
  unfold lyricLines, currentLyricLines.
  destruct (length (List.filter isRealLyric timedLyrics) =? 0)%nat;
    [reflexivity |].
  destruct (at_ (List.filter isRealLyric timedLyrics) 0) as [first |];
    [| reflexivity].
  destruct (Qltb t (startTime first)); [reflexivity |].
  destruct (at_ _ (Z.of_nat (length _) - 1)) as [lastLyric |];
    reflexivity.
Qed.

(** ** Karaoke progress *)






(** The expression itself has no case for a line of zero length: evaluated
    there it would divide zero by zero.  The frame loop never evaluates it
    there, since such a line is never [current]. *)
Remark karaokeProgress_degenerate_line :
  karaokeProgress degenerateLine 5 = NaN
  /\ progressOf_spec degenerateLine 5 = 1%Q
  /\ ~ JsNum_eq (karaokeProgress degenerateLine 5)
               (Finite (progressOf_spec degenerateLine 5))
  /\ current (currentLyricLines [degenerateLine] 5) = None
  /\ frameKaraokeProgress [degenerateLine] 5 = None.
Proof. repeat split; try reflexivity. simpl. tauto. Qed.

(** Neither is the expression clamped: past the end of a line it exceeds
    1.  The frame loop never evaluates it there. *)
Remark karaokeProgress_unclamped :
  JsNum_eq (karaokeProgress hello 13) (Finite (3 # 2))
  /\ progressOf_spec hello 13 = 1%Q.
Proof. split; reflexivity. Qed.

(** ** Background selection *)

Lemma findIndex_from_find {A} (p : A -> bool) (l : list A) (k : Z) :
  match List.find p l with
  | Some x => exists i, findIndex_from p l k = k + Z.of_nat i /\ l !! i = Some x
  | None => findIndex_from p l k = -1
  end.
Proof.
  revert k. induction l as [| a l IH]; intros k; simpl; [reflexivity |].
  destruct (p a).
  - exists 0%nat. split; [lia | reflexivity].
  - specialize (IH (k + 1)). destruct (List.find p l) as [x |]; [| assumption].
    destruct IH as (i & -> & Hi). exists (S i). split; [lia | assumption].
Qed.

Lemma at_findIndex {A} (p : A -> bool) (l : list A) :
  at_ l (findIndex p l) = List.find p l.
Proof.
  unfold findIndex. pose proof (findIndex_from_find p l 0) as H.
  destruct (List.find p l) as [x |].
  - destruct H as (i & -> & Hi). by rewrite Z.add_0_l, at_of_nat.
  - by rewrite H.
Qed.

Lemma truthy_url_of_forallb aiImages img :
  forallb (fun i => truthy (AiImage.url i)) aiImages = true ->
  In img aiImages -> truthy (AiImage.url img) = true.
Proof. intros Hall Hin. by apply (proj1 (forallb_forall _ _) Hall). Qed.


(** The guards [||] of the two selectors stand for an asset whose [url] is
    the empty string, which the player never holds (see
    [reachable_urls]): on a list with such an asset playback would show the
    fallback and the export the first asset. *)
Remark selectors_on_empty_url :
  currentBg [imgA; imgNoUrl] (lit "f") 7 = lit "f"
  /\ currentExportBgUrl [imgA; imgNoUrl] (lit "f") 7 = lit "a".
Proof. split; reflexivity. Qed.

(** ** Hand-off of captured timings *)

(** C10. For a non-empty captured list whose first line is [lyric0], the
    sequence handed to the player is the captured list itself, in order and
    unmodified, behind a prefix that is empty or the single line
    [{ text: '', startTime: 0, endTime: lyric0.startTime }]; the prefix is
    there if and only if [lyric0.startTime > 0.1].  When it is there its
    window contains time 0, and otherwise the sequence is the captured
    list. *)
Theorem handleTimingComplete_prefix
  (lyrics : list TimedLyric) (duration : Q) (lyric0 : TimedLyric) :
  head lyrics = Some lyric0 ->
  let handed := timedLyrics (handleTimingComplete lyrics duration) in
  let gap := mkLyric [] 0 (startTime lyric0) in
  (handed = lyrics \/ handed = gap :: lyrics)
  /\ (handed = gap :: lyrics <-> (js_0_1 < startTime lyric0)%Q)
  /\ (handed = lyrics <-> ~ (js_0_1 < startTime lyric0)%Q)
  /\ (handed = gap :: lyrics ->
      isRealLyric gap = false /\ inWindow 0 gap = true)
  /\ appState (handleTimingComplete lyrics duration) = PREVIEW
  /\ audioDuration (handleTimingComplete lyrics duration) = duration.
Proof.
  intros Hhead handed gap.
  assert (Hne : forall x : TimedLyric, x :: lyrics <> lyrics).
  { intros x Heq. apply (f_equal length) in Heq. simpl in Heq. lia. }
  assert (Hcode : handleTimingComplete lyrics duration =
                  mkApp (if Qltb js_0_1 (startTime lyric0)
                         then gap :: lyrics else lyrics) duration PREVIEW).
  { unfold handleTimingComplete. rewrite at_zero, Hhead.
    destruct lyrics; [discriminate |]. simpl.
    by destruct (Qltb js_0_1 (startTime lyric0)). }
  subst handed. rewrite Hcode. simpl.
  assert (Hzero : (0 < js_0_1)%Q) by reflexivity.
  destruct (Qltb js_0_1 (startTime lyric0)) eqn:Hlt.
  - apply Qltb_true in Hlt.
    split; [by right |]. split; [by split |].
    split; [split; [intros Heq; by apply Hne in Heq | intros Hn; contradiction] |].
    split; [| split; reflexivity].
    intros _. split; [reflexivity |].
    unfold inWindow. apply andb_true_intro.
    split; [reflexivity | apply Qltb_true; simpl; lra].
  - apply Qltb_false in Hlt.
    split; [by left |].
    split; [split; [intros Heq; symmetry in Heq; by apply Hne in Heq
                   | intros Hgt; lra] |].
    split; [split; [intros _; lra | reflexivity] |].
    split; [| split; reflexivity].
    intros Heq. symmetry in Heq. by apply Hne in Heq.
Qed.

Lemma handleTimingComplete_prefix_witness :
  head [hello] = Some hello
  /\ timedLyrics (handleTimingComplete [hello] 20) = [mkLyric [] 0 10; hello].
Proof.
  split; [reflexivity |].
  apply (proj1 (proj2 (handleTimingComplete_prefix [hello] 20%Q hello eq_refl))).
  reflexivity.
Defined.

(** ** Stanzas and image tasks *)

Lemma list_pair_ind {A} (P : list A -> Prop) :
  P [] -> (forall a, P [a]) -> (forall a b l, P l -> P (a :: b :: l)) ->
  forall l, P l.
Proof.
  intros Hnil Hone Hstep l.
  assert (H : P l /\ forall a, P (a :: l)); [| exact (proj1 H)].
  induction l as [| b l [IH1 IH2]]; split; auto.
Qed.

Lemma stanzasByTwo_length ls :
  length (stanzasByTwo ls) = Nat.div2 (S (length ls)).
Proof.
  induction ls as [| a | a b ls IH] using list_pair_ind; [reflexivity.. |].
  simpl in *. by rewrite IH.
Qed.

Lemma stanzasByTwo_lookup_pair ls k a b :
  ls !! (2 * k)%nat = Some a -> ls !! (2 * k + 1)%nat = Some b ->
  stanzasByTwo ls !! k =
    Some (Stanza.mk (text a ++ newline ++ text b) (startTime a) (endTime b)).
Proof.
  revert k. induction ls as [| x | x y ls IH] using list_pair_ind;
    intros k Ha Hb.
  - discriminate.
  - destruct k; simpl in Ha, Hb; [discriminate |].
    replace (k + S (k + 0))%nat with (S (2 * k)) in Ha by lia. discriminate.
  - destruct k as [| k].
    + simpl in Ha, Hb. by inversion Ha; inversion Hb; subst.
    + replace (2 * S k)%nat with (S (S (2 * k))) in Ha by lia.
      replace (2 * S k + 1)%nat with (S (S (2 * k + 1))) in Hb by lia.
      simpl. by apply IH.
Qed.

Lemma stanzasByTwo_lookup_single ls k a :
  ls !! (2 * k)%nat = Some a -> ls !! (2 * k + 1)%nat = None ->
  stanzasByTwo ls !! k =
    Some (Stanza.mk (text a) (startTime a) (endTime a)).
Proof.
  revert k. induction ls as [| x | x y ls IH] using list_pair_ind;
    intros k Ha Hb.
  - discriminate.
  - destruct k; simpl in Ha; [by inversion Ha |].
    replace (k + S (k + 0))%nat with (S (2 * k)) in Ha by lia. discriminate.
  - destruct k as [| k].
    + simpl in Hb. discriminate.
    + replace (2 * S k)%nat with (S (S (2 * k))) in Ha by lia.
      replace (2 * S k + 1)%nat with (S (S (2 * k + 1))) in Hb by lia.
      simpl. by apply IH.
Qed.

(** The loop terminates on its own test, with the stanzas of the lines from
    [i] on appended. *)
Lemma stanzaLoop_spec fuel toGroup i stanzas :
  (length toGroup - i <= fuel)%nat ->
  stanzaLoop fuel toGroup i stanzas =
    Some (stanzas ++ stanzasByTwo (drop i toGroup)).
Proof.
  revert i stanzas. induction fuel as [| fuel IH]; intros i stanzas Hfuel.
  - simpl. destruct (Nat.ltb_spec i (length toGroup)); [lia |].
    by rewrite drop_ge, app_nil_r by lia.
  - simpl. destruct (Nat.ltb_spec i (length toGroup)) as [Hlt | Hge];
      [| by rewrite drop_ge, app_nil_r by lia].
    unfold slice. replace (i + 2 - i)%nat with 2%nat by lia.
    assert (Hrest : drop (i + 2) toGroup = drop 2 (drop i toGroup))
      by (by rewrite drop_drop).
    assert (Hlen : length (drop i toGroup) = (length toGroup - i)%nat)
      by apply length_drop.
    destruct (drop i toGroup) as [| a [| b rest]] eqn:Hdrop;
      simpl in Hlen; [lia | |]; cbn [take]; unfold stanzaOfChunk, at_; simpl.
    + rewrite (IH (i + 2)%nat) by lia. rewrite Hrest. simpl.
      by rewrite app_nil_r.
    + rewrite (IH (i + 2)%nat) by lia. rewrite Hrest. simpl.
      by rewrite <- app_assoc.
Qed.

Lemma groupStanzas_spec toGroup :
  groupStanzas toGroup = Some (stanzasByTwo toGroup).
Proof. unfold groupStanzas. rewrite stanzaLoop_spec by lia. reflexivity. Qed.

Lemma toProcess_real l :
  toProcess l = isRealLyric l && negb (streq (text l) (lit "END")).
Proof.
  unfold toProcess, isRealLyric, truthy.
  destruct (text l) as [| c s] eqn:Htext; reflexivity.
Qed.

Lemma lyricsToProcess_real timedLyrics :
  lyricsToProcess timedLyrics =
    List.filter (fun l => negb (streq (text l) (lit "END")))
                (List.filter isRealLyric timedLyrics).
Proof.
  unfold lyricsToProcess. induction timedLyrics as [| l ls IH];
    [reflexivity |].
  simpl. rewrite toProcess_real.
  destruct (isRealLyric l); simpl; [| assumption].
  destruct (negb (streq (text l) (lit "END"))); by rewrite IH.
Qed.

Lemma taskOfStanza_generic generatedPrompts songTitle stanza :
  (forall p, In p generatedPrompts ->
             GeneratedPrompt.stanza p <> Stanza.text stanza) ->
  ImageGenerationTask.prompt (taskOfStanza generatedPrompts songTitle stanza)
  = genericPrompt songTitle.
Proof.
  intros Hnone. unfold taskOfStanza, find_. simpl.
  destruct (List.find _ generatedPrompts) as [p |] eqn:Hfind; [| reflexivity].
  apply find_some in Hfind as [Hin Heq]. unfold streq in Heq.
  apply bool_decide_eq_true in Heq. by apply Hnone in Hin.
Qed.

(** C9, amended.  The lines grouped are the real lines whose text is not
    exactly [END], in order.  When there is at least one, they are grouped
    into stanzas of two consecutive lines, the last stanza holding one line
    when the count is odd; a stanza runs from its first line's [startTime]
    to its last line's [endTime]; every stanza yields exactly one task with
    the same window, and a stanza without a matching entry in the answer of
    the prompt model gets the generic description of the song as its
    prompt. *)
Theorem stanzas_of_processed_lines
  (allLyrics : list TimedLyric) (songTitle : jsstring)
  (generatedPrompts : list GeneratedPrompt.t)
  (generateImages : jsstring -> ImageResponse) :
  let toGroup := lyricsToProcess allLyrics in
  (length toGroup =? 0)%nat = false ->
  toGroup = List.filter (fun l => negb (streq (text l) (lit "END")))
                        (List.filter isRealLyric allLyrics)
  /\ exists stanzas,
      groupStanzas toGroup = Some stanzas
      /\ length stanzas = Nat.div2 (S (length toGroup))
      /\ (forall k a b,
            toGroup !! (2 * k)%nat = Some a ->
            toGroup !! (2 * k + 1)%nat = Some b ->
            stanzas !! k =
              Some (Stanza.mk (text a ++ newline ++ text b)
                              (startTime a) (endTime b)))
      /\ (forall k a,
            toGroup !! (2 * k)%nat = Some a ->
            toGroup !! (2 * k + 1)%nat = None ->
            stanzas !! k = Some (Stanza.mk (text a) (startTime a) (endTime a)))
      /\ let tasks := tasksOfStanzas generatedPrompts songTitle stanzas in
         generateVisualsForLyrics allLyrics songTitle
           (PromptsParsed generatedPrompts) generateImages
         = imageLoop generateImages tasks []
         /\ length tasks = length stanzas
         /\ forall k stanza,
              stanzas !! k = Some stanza ->
              exists task,
                tasks !! k = Some task
                /\ ImageGenerationTask.startTime task = Stanza.startTime stanza
                /\ ImageGenerationTask.endTime task = Stanza.endTime stanza
                /\ ((forall p, In p generatedPrompts ->
                       GeneratedPrompt.stanza p <> Stanza.text stanza) ->
                    ImageGenerationTask.prompt task = genericPrompt songTitle).
Proof.
  intros toGroup Hnonempty.
  split; [apply lyricsToProcess_real |].
  exists (stanzasByTwo toGroup).
  split; [apply groupStanzas_spec |].
  split; [apply stanzasByTwo_length |].
  split; [apply stanzasByTwo_lookup_pair |].
  split; [apply stanzasByTwo_lookup_single |].
  split; [| split].
  - unfold generateVisualsForLyrics. fold toGroup.
    by rewrite Hnonempty, groupStanzas_spec.
  - unfold tasksOfStanzas. apply length_map.
  - intros k stanza Hk.
    exists (taskOfStanza generatedPrompts songTitle stanza).
    split; [unfold tasksOfStanzas; by rewrite list_lookup_fmap, Hk |].
    split; [reflexivity |]. split; [reflexivity |].
    apply taskOfStanza_generic.
Qed.

Lemma stanzas_of_processed_lines_witness :
  (length (lyricsToProcess [lineA01; lineEnd; lineB]) =? 0)%nat = false
  /\ exists stanzas,
       groupStanzas (lyricsToProcess [lineA01; lineEnd; lineB]) = Some stanzas
       /\ length stanzas = 1%nat.
Proof.
  split; [reflexivity |].
  destruct (stanzas_of_processed_lines [lineA01; lineEnd; lineB] (lit "Song")
              [] (fun _ => NoImage) eq_refl)
    as (_ & stanzas & Hgroup & Hlen & _).
  exists stanzas. split; [exact Hgroup | exact Hlen].
Defined.

(** C9 as stated fails for a real line whose text is [END]: the code drops
    it before grouping, so the lines "A", "END", "B" give the single stanza
    of "A" and "B", not the stanza of "A" and "END" followed by the stanza
    of "B". *)
Lemma stanzas_drop_END_line :
  List.filter isRealLyric [lineA01; lineEnd; lineB] = [lineA01; lineEnd; lineB]
  /\ groupStanzas (lyricsToProcess [lineA01; lineEnd; lineB])
     = Some [Stanza.mk (lit "A" ++ newline ++ lit "B") 0 3]
  /\ stanzasByTwo (List.filter isRealLyric [lineA01; lineEnd; lineB])
     = [Stanza.mk (lit "A" ++ newline ++ lit "END") 0 2;
        Stanza.mk (lit "B") 2 3]
  /\ groupStanzas (lyricsToProcess [lineA01; lineEnd; lineB])
     <> Some (stanzasByTwo (List.filter isRealLyric [lineA01; lineEnd; lineB])).
Proof. repeat split; discriminate. Qed.

(** ** The export *)

Section ExportRun.
Import ExportJob.

Lemma bind_Normal {A B} (m : M A) (k : A -> M B) s s' b :
  bind m k s = (s', Normal b) ->
  exists a s1, m s = (s1, Normal a) /\ k a s1 = (s', Normal b).
Proof.
  unfold bind. destruct (m s) as [s1 [a | e |]]; intros H;
    [eauto | discriminate | discriminate].
Qed.

Lemma bind_OutOfFuel {A B} (m : M A) (k : A -> M B) s s' :
  bind m k s = (s', OutOfFuel) ->
  m s = (s', OutOfFuel)
  \/ exists a s1, m s = (s1, Normal a) /\ k a s1 = (s', OutOfFuel).
Proof.
  unfold bind. destruct (m s) as [s1 [a | e |]]; intros H.
  - right. eauto.
  - discriminate.
  - left. congruence.
Qed.

Lemma drawnFrames_snoc evs e :
  drawnFrames (evs ++ [e]) =
  drawnFrames evs ++ match e with
                     | Drawn i frameTime _ _ _ => [(i, frameTime)]
                     | _ => []
                     end.
Proof.
  unfold drawnFrames. rewrite omap_app. f_equal. by destruct e.
Qed.

Lemma setExportProgress_spec n s s' c :
  setExportProgress n s = (s', c) ->
  c = Normal tt /\ sameFiles s s' /\ sameFrames s s'.
Proof.
  intros H. inversion H; subst. unfold sameFiles, sameFrames. simpl.
  by rewrite drawnFrames_snoc, app_nil_r.
Qed.

Lemma emit_spec e s s' c :
  emit e s = (s', c) ->
  c = Normal tt /\ sameFiles s s' /\ events s' = events s ++ [e].
Proof. intros H. by inversion H; subst. Qed.

Lemma fetchFile_spec ok s s' (c : Completion unit) :
  fetchFile ok s = (s', c) -> s' = s /\ (c = Normal tt -> ok = true).
Proof.
  unfold fetchFile. destruct ok; intros H; inversion H; subst; split; auto.
  discriminate.
Qed.

Lemma writeFile_spec name data s s' c :
  writeFile name data s = (s', c) ->
  c = Normal tt /\ FS s' = <[name := data]> (FS s) /\ events s' = events s.
Proof. intros H. by inversion H; subst. Qed.

Lemma unlink_spec name s s' :
  unlink name s = (s', Normal tt) ->
  FS s' = delete name (FS s) /\ events s' = events s.
Proof.
  unfold unlink, bind, gets. destruct (FS s !! name); intros H;
    inversion H; subst; by split.
Qed.

Lemma unlink_not_OutOfFuel name s s' : unlink name s <> (s', OutOfFuel).
Proof.
  unfold unlink, bind, gets. destruct (FS s !! name); discriminate.
Qed.

Lemma captureFrame_spec w p total i s s' :
  captureFrame w p total i s = (s', Normal tt) ->
  FS s' = <[frameName i := FrameImage i]> (FS s)
  /\ drawnFrames (events s') = drawnFrames (events s) ++ [(i, frameTimeOf i)].
Proof.
  unfold captureFrame. intros H.
  apply bind_Normal in H as ([] & s1 & H1 & H).
  apply bind_Normal in H as ([] & s2 & H2 & H).
  apply bind_Normal in H as ([] & s3 & H3 & H).
  apply setExportProgress_spec in H1 as (_ & Hf1 & Hd1).
  apply emit_spec in H2 as (_ & Hf2 & He2).
  apply fetchFile_spec in H3 as [-> _].
  apply writeFile_spec in H as (_ & Hf & He).
  unfold sameFiles, sameFrames in *. split.
  - by rewrite Hf, Hf2, Hf1.
  - by rewrite He, He2, drawnFrames_snoc, Hd1.
Qed.

Lemma captureFrame_not_OutOfFuel w p total i s s' :
  captureFrame w p total i s <> (s', OutOfFuel).
Proof.
  unfold captureFrame, bind, setExportProgress, emit, modify, fetchFile,
    writeFile, gets, setFS, ret, throw.
  destruct (frameFetchSucceeds w i); discriminate.
Qed.

(** The frame loop draws the frames [i], [i + 1], ..., [total - 1] in this
    order, each at its time [j / frameRate], and exits on its own test. *)
Lemma frameLoop_spec w p total fuel i s s' :
  total - i <= Z.of_nat fuel ->
  frameLoop fuel w p total i s = (s', Normal tt) ->
  drawnFrames (events s') =
    drawnFrames (events s)
    ++ map (fun j => (j, frameTimeOf j)) (seqZ i (total - i)).
Proof.
  revert i s. induction fuel as [| fuel IH]; intros i s Hfuel H; simpl in H.
  - destruct (Z.ltb_spec i total); [lia |]. inversion H; subst.
    by rewrite seqZ_nil, app_nil_r by lia.
  - destruct (Z.ltb_spec i total) as [Hlt | Hge].
    + apply bind_Normal in H as ([] & s1 & H1 & H).
      apply captureFrame_spec in H1 as [_ Hd].
      apply IH in H; [| lia]. rewrite H, Hd, <- app_assoc. f_equal.
      rewrite (seqZ_cons i) by lia.
      by replace (seqZ (i + 1) (total - (i + 1)))
        with (seqZ (Z.succ i) (Z.pred (total - i))) by (f_equal; lia).
    + inversion H; subst. by rewrite seqZ_nil, app_nil_r by lia.
Qed.

Lemma frameLoop_fuel_suffices w p total fuel i s s' :
  total - i <= Z.of_nat fuel ->
  frameLoop fuel w p total i s <> (s', OutOfFuel).
Proof.
  revert i s. induction fuel as [| fuel IH]; intros i s Hfuel H; simpl in H.
  - destruct (Z.ltb_spec i total); [lia | discriminate].
  - destruct (Z.ltb_spec i total) as [Hlt | Hge]; [| discriminate].
    apply bind_OutOfFuel in H as [H | ([] & s1 & _ & H)].
    + by apply captureFrame_not_OutOfFuel in H.
    + apply IH in H; [assumption | lia].
Qed.

(** After the cleanup loop the frames [i], ..., [total - 1] are gone, and
    no file has appeared. *)
Lemma unlinkLoop_spec total fuel i s s' :
  unlinkLoop fuel total i s = (s', Normal tt) ->
  (forall j, i <= j < total -> FS s' !! frameName j = None)
  /\ (forall name, FS s !! name = None -> FS s' !! name = None)
  /\ events s' = events s.
Proof.
  revert i s. induction fuel as [| fuel IH]; intros i s H; simpl in H.
  - destruct (Z.ltb_spec i total); [discriminate |]. inversion H; subst.
    repeat split; [intros; lia | auto].
  - destruct (Z.ltb_spec i total) as [Hlt | Hge].
    + apply bind_Normal in H as ([] & s1 & H1 & H).
      apply unlink_spec in H1 as [Hfs Hev].
      apply IH in H as (Hgone & Hmono & Hev').
      repeat split.
      * intros j Hj. destruct (decide (j = i)) as [-> | Hne].
        -- apply Hmono. rewrite Hfs. apply lookup_delete_eq.
        -- apply Hgone. lia.
      * intros name Hname. apply Hmono. rewrite Hfs.
        rewrite lookup_delete_None. by right.
      * congruence.
    + inversion H; subst. repeat split; [intros; lia | auto].
Qed.

Lemma unlinkLoop_fuel_suffices total fuel i s s' :
  total - i <= Z.of_nat fuel ->
  unlinkLoop fuel total i s <> (s', OutOfFuel).
Proof.
  revert i s. induction fuel as [| fuel IH]; intros i s Hfuel H; simpl in H.
  - destruct (Z.ltb_spec i total); [lia | discriminate].
  - destruct (Z.ltb_spec i total) as [Hlt | Hge]; [| discriminate].
    apply bind_OutOfFuel in H as [H | ([] & s1 & _ & H)].
    + by apply unlink_not_OutOfFuel in H.
    + apply IH in H; [assumption | lia].
Qed.
End ExportRun.

Section ExportBody.
Import ExportJob.

Lemma ensureLoaded_spec w s s' c :
  ensureLoaded w s = (s', c) -> sameFiles s s' /\ events s' = events s.
Proof.
  unfold ensureLoaded, bind, gets. destruct (negb (isLoaded s));
    [destruct (loadSucceeds w) |]; intros H; inversion H; subst; by split.
Qed.

Lemma preloadImages_spec w urls s s' c :
  preloadImages w urls s = (s', c) -> s' = s.
Proof.
  unfold preloadImages. destruct (forallb _ _); intros H; by inversion H.
Qed.

Lemma run_spec w s s' :
  run w s = (s', Normal tt) ->
  FS s' = <[outputName := VideoData]> (FS s) /\ sameFrames s s'.
Proof.
  unfold run. intros H. apply bind_Normal in H as ([] & s1 & H1 & H).
  apply emit_spec in H1 as (_ & Hf & He).
  destruct (encodeSucceeds w); [| discriminate].
  apply writeFile_spec in H as (_ & Hf' & He').
  unfold sameFiles, sameFrames in *. split; [by rewrite Hf', Hf |].
  by rewrite He', He, drawnFrames_snoc, app_nil_r.
Qed.

Lemma readFile_spec name s s' data :
  readFile name s = (s', Normal data) -> s' = s.
Proof.
  unfold readFile, bind, gets. destruct (FS s !! name); intros H;
    by inversion H.
Qed.

(** A run of the [try] block that completes has drawn exactly the frames
    [0], ..., [totalFrames - 1], in this order, and has unlinked every
    file it created. *)
Lemma exportBody_completed w p s s' :
  exportBody w p s = (s', Normal tt) ->
  let total := totalFrames (duration p) in
  drawnFrames (events s') =
    drawnFrames (events s)
    ++ map (fun i => (i, frameTimeOf i)) (seqZ 0 total)
  /\ forall name, In name (transientNames total) -> FS s' !! name = None.
Proof.
  intros H total. unfold exportBody in H. fold total in H.
  apply bind_Normal in H as ([] & s1 & H1 & H).
  apply bind_Normal in H as ([] & s2 & H2 & H).
  apply bind_Normal in H as ([] & s3 & H3 & H).
  apply bind_Normal in H as ([] & s4 & H4 & H).
  apply bind_Normal in H as ([] & s5 & H5 & H).
  apply bind_Normal in H as ([] & s6 & H6 & H).
  apply bind_Normal in H as ([] & s7 & H7 & H).
  apply bind_Normal in H as ([] & s8 & H8 & H).
  apply bind_Normal in H as ([] & s9 & H9 & H).
  apply bind_Normal in H as ([] & s10 & H10 & H).
  apply bind_Normal in H as (data & s11 & H11 & H).
  apply bind_Normal in H as ([] & s12 & H12 & H).
  apply bind_Normal in H as ([] & s13 & H13 & H).
  apply bind_Normal in H as ([] & s14 & H14 & H).
  apply ensureLoaded_spec in H1 as [_ E1].
  apply setExportProgress_spec in H2 as (_ & _ & E2).
  apply fetchFile_spec in H3 as [-> _].
  apply writeFile_spec in H4 as (_ & _ & E4).
  assert (s5 = s4) as ->
    by (destruct (contextAvailable w); by inversion H5).
  apply preloadImages_spec in H6 as ->.
  apply frameLoop_spec in H7; [| lia].
  apply setExportProgress_spec in H8 as (_ & _ & E8).
  apply run_spec in H9 as [_ E9].
  apply setExportProgress_spec in H10 as (_ & _ & E10).
  apply readFile_spec in H11 as ->.
  apply emit_spec in H12 as (_ & _ & E12).
  apply unlinkLoop_spec in H13 as (Hgone & Hmono & E13).
  apply unlink_spec in H14 as [F14 E14].
  apply unlink_spec in H as [F E].
  unfold sameFrames in *. split.
  - rewrite E, E14, E13, E12, drawnFrames_snoc, app_nil_r, E10, E9, E8, H7.
    rewrite Z.sub_0_r. f_equal. by rewrite E4, E2, E1.
  - intros name Hin. rewrite F, F14. unfold transientNames in Hin.
    apply in_app_or in Hin as [Hin | [<- | [<- | []]]].
    + apply in_map_iff in Hin as (j & <- & Hj).
      apply list_elem_of_In, elem_of_seqZ in Hj.
      rewrite !lookup_delete_None. right. right. apply Hgone. lia.
    + rewrite lookup_delete_None. right. apply lookup_delete_eq.
    + apply lookup_delete_eq.
Qed.

(** The fuel given to the two loops is enough: no run ends for lack of
    it. *)
Lemma exportBody_fuel_suffices w p s s' :
  exportBody w p s <> (s', OutOfFuel).
Proof.
  unfold exportBody. intros H.
  repeat (apply bind_OutOfFuel in H as [H | (? & ? & _ & H)]);
    try match type of H with
        | frameLoop _ _ _ _ _ _ = _ =>
            by (apply frameLoop_fuel_suffices in H; [| lia])
        | unlinkLoop _ _ _ _ = _ =>
            by (apply unlinkLoop_fuel_suffices in H; [| lia])
        | unlink _ _ = _ => by apply unlink_not_OutOfFuel in H
        end;
    try (unfold ensureLoaded, setExportProgress, fetchFile, writeFile,
           preloadImages, run, readFile, emit, bind, gets, modify, setFS,
           ret, throw in H;
         repeat match type of H with
                | context [if ?c then _ else _] => destruct c
                | context [match ?c with _ => _ end] => destruct c
                end; discriminate).
Qed.
End ExportBody.

(** ** Frames drawn by any run *)

Section FramesOfRun.
Import ExportJob.

Lemma NoDraw_bind {A B} (m : M A) (k : A -> M B) :
  NoDraw m -> (forall a, NoDraw (k a)) -> NoDraw (bind m k).
Proof.
  intros Hm Hk s s' c. unfold bind.
  destruct (m s) as [s1 [a | e |]] eqn:H1; intros H.
  - apply Hm in H1. apply Hk in H. unfold sameFrames in *. congruence.
  - inversion H; subst. by apply Hm in H1.
  - inversion H; subst. by apply Hm in H1.
Qed.

Lemma NoDraw_pure {A} (m : M A) :
  (forall s s' c, m s = (s', c) -> events s' = events s) -> NoDraw m.
Proof. intros H s s' c Hrun. unfold sameFrames. by rewrite (H s s' c Hrun). Qed.

Lemma NoDraw_ret {A} (a : A) : NoDraw (ret a).
Proof. apply NoDraw_pure. intros s s' c H. by inversion H. Qed.

Lemma NoDraw_throw {A} e : NoDraw (@throw A e).
Proof. apply NoDraw_pure. intros s s' c H. by inversion H. Qed.

Lemma NoDraw_setExportProgress n : NoDraw (setExportProgress n).
Proof. intros s s' c H. by apply setExportProgress_spec in H as (_ & _ & ?). Qed.

Lemma NoDraw_emit e :
  match e with Drawn _ _ _ _ _ => False | _ => True end -> NoDraw (emit e).
Proof.
  intros He s s' c H. apply emit_spec in H as (_ & _ & Hev).
  unfold sameFrames. rewrite Hev, drawnFrames_snoc.
  destruct e; try contradiction; apply app_nil_r.
Qed.

Lemma NoDraw_ensureLoaded w : NoDraw (ensureLoaded w).
Proof.
  apply NoDraw_pure. intros s s' c H. by apply ensureLoaded_spec in H as [_ ?].
Qed.

Lemma NoDraw_fetchFile ok : NoDraw (fetchFile ok).
Proof.
  apply NoDraw_pure. intros s s' c H. by apply fetchFile_spec in H as [-> _].
Qed.

Lemma NoDraw_writeFile name data : NoDraw (writeFile name data).
Proof.
  apply NoDraw_pure. intros s s' c H.
  by apply writeFile_spec in H as (_ & _ & ?).
Qed.

Lemma NoDraw_readFile name : NoDraw (readFile name).
Proof.
  apply NoDraw_pure. intros s s' c. unfold readFile, bind, gets.
  destruct (FS s !! name); intros H; by inversion H.
Qed.

Lemma NoDraw_unlink name : NoDraw (unlink name).
Proof.
  apply NoDraw_pure. intros s s' c. unfold unlink, bind, gets.
  destruct (FS s !! name); intros H; by inversion H.
Qed.

Lemma NoDraw_preloadImages w urls : NoDraw (preloadImages w urls).
Proof.
  apply NoDraw_pure. intros s s' c H. by apply preloadImages_spec in H as ->.
Qed.

Lemma NoDraw_run w : NoDraw (run w).
Proof.
  unfold run. apply NoDraw_bind; [by apply NoDraw_emit |].
  intros _. destruct (encodeSucceeds w);
    [apply NoDraw_writeFile | apply NoDraw_throw].
Qed.

Lemma NoDraw_unlinkLoop fuel total i : NoDraw (unlinkLoop fuel total i).
Proof.
  revert i. induction fuel as [| fuel IH]; intros i; simpl;
    destruct (i <? total); try apply NoDraw_ret.
  - apply NoDraw_pure. intros s s' c H. by inversion H.
  - apply NoDraw_bind; [apply NoDraw_unlink | intros _; apply IH].
Qed.

(** A turn of the frame loop draws its frame, whether or not the still
    reaches the encoder. *)
Lemma captureFrame_draws w p total i s s' c :
  captureFrame w p total i s = (s', c) ->
  drawnFrames (events s') = drawnFrames (events s) ++ [(i, frameTimeOf i)].
Proof.
  unfold captureFrame, bind, setExportProgress, emit, modify, fetchFile,
    writeFile, gets, setFS, ret, throw.
  destruct (frameFetchSucceeds w i); intros H; inversion H; subst; simpl;
    by rewrite !drawnFrames_snoc, app_nil_r.
Qed.

Lemma frameLoop_draws fuel w p total i :
  DrawsFrames i (Z.max i total) (frameLoop fuel w p total i).
Proof.
  revert i. induction fuel as [| fuel IH]; intros i s s' c H; simpl in H.
  - destruct (Z.ltb_spec i total).
    + inversion H; subst. exists i. rewrite Z.sub_diag.
      split; [lia |]. split; [by rewrite app_nil_r | discriminate].
    + inversion H; subst. exists i. rewrite Z.sub_diag.
      split; [lia |]. split; [by rewrite app_nil_r | intros; lia].
  - destruct (Z.ltb_spec i total) as [Hlt | Hge].
    + unfold bind in H.
      destruct (captureFrame w p total i s) as [s1 c1] eqn:H1.
      apply captureFrame_draws in H1.
      assert (Hone : seqZ i (i + 1 - i) = [i])
        by (by replace (i + 1 - i) with 1 by lia).
      destruct c1 as [[] | e |].
      * apply IH in H as (k & Hk & Hd & Hn). exists k.
        split; [lia |]. split; [| intros a Ha; rewrite (Hn a Ha); lia].
        rewrite Hd, H1, <- app_assoc. f_equal.
        replace (k - i) with (1 + (k - (i + 1))) by lia.
        rewrite seqZ_app by lia. by rewrite map_app.
      * inversion H; subst. exists (i + 1). rewrite Hone.
        split; [lia |]. split; [assumption | discriminate].
      * inversion H; subst. exists (i + 1). rewrite Hone.
        split; [lia |]. split; [assumption | discriminate].
    + inversion H; subst. exists i. rewrite Z.sub_diag.
      split; [lia |]. split; [by rewrite app_nil_r | intros; lia].
Qed.

Lemma DrawsFrames_after {A B} lo hi (m : M A) (k : A -> M B) :
  lo <= hi -> NoDraw m -> (forall a, DrawsFrames lo hi (k a)) ->
  DrawsFrames lo hi (bind m k).
Proof.
  intros Hle Hm Hk s s' c. unfold bind.
  destruct (m s) as [s1 [a | e |]] eqn:H1; intros H.
  - apply Hm in H1. apply Hk in H as (j & Hj & Hd & Hn).
    exists j. unfold sameFrames in H1. rewrite <- H1. auto.
  - inversion H; subst. apply Hm in H1. exists lo. rewrite Z.sub_diag.
    split; [lia |]. split; [by rewrite app_nil_r | discriminate].
  - inversion H; subst. apply Hm in H1. exists lo. rewrite Z.sub_diag.
    split; [lia |]. split; [by rewrite app_nil_r | discriminate].
Qed.

Lemma DrawsFrames_before {A B} lo hi (m : M A) (k : A -> M B) :
  DrawsFrames lo hi m -> (forall a, NoDraw (k a)) ->
  DrawsFrames lo hi (bind m k).
Proof.
  intros Hm Hk s s' c. unfold bind.
  destruct (m s) as [s1 [a | e |]] eqn:H1; intros H.
  - apply Hm in H1 as (j & Hj & Hd & Hn). apply Hk in H.
    exists j. unfold sameFrames in H. rewrite H, Hd.
    split; [assumption |]. split; [reflexivity |].
    intros _ _. by apply (Hn a).
  - inversion H; subst. apply Hm in H1 as (j & Hj & Hd & _).
    exists j. split; [assumption |]. split; [assumption | discriminate].
  - inversion H; subst. apply Hm in H1 as (j & Hj & Hd & _).
    exists j. split; [assumption |]. split; [assumption | discriminate].
Qed.

(** Every run of the [try] block, whether it completes or throws, has drawn
    the frames [0], ..., [k - 1] in this order for some [k] up to the total,
    and all of them when it completes. *)
Lemma exportBody_draws w p :
  DrawsFrames 0 (Z.max 0 (totalFrames (duration p))) (exportBody w p).
Proof.
  unfold exportBody.
  apply DrawsFrames_after; [lia | apply NoDraw_ensureLoaded | intros _].
  apply DrawsFrames_after; [lia | apply NoDraw_setExportProgress | intros _].
  apply DrawsFrames_after; [lia | apply NoDraw_fetchFile | intros _].
  apply DrawsFrames_after; [lia | apply NoDraw_writeFile | intros _].
  apply DrawsFrames_after;
    [lia
    | destruct (contextAvailable w); [apply NoDraw_ret | apply NoDraw_throw]
    | intros _].
  apply DrawsFrames_after; [lia | apply NoDraw_preloadImages | intros _].
  apply DrawsFrames_before; [apply frameLoop_draws | intros _].
  apply NoDraw_bind; [apply NoDraw_setExportProgress | intros _].
  apply NoDraw_bind; [apply NoDraw_run | intros _].
  apply NoDraw_bind; [apply NoDraw_setExportProgress | intros _].
  apply NoDraw_bind; [apply NoDraw_readFile | intros _].
  apply NoDraw_bind; [by apply NoDraw_emit | intros _].
  apply NoDraw_bind; [apply NoDraw_unlinkLoop | intros _].
  apply NoDraw_bind; [apply NoDraw_unlink | intros _].
  apply NoDraw_unlink.
Qed.
End FramesOfRun.

Lemma frameTimeOf_mono i j :
  i <= j -> (ExportJob.frameTimeOf i <= ExportJob.frameTimeOf j)%Q.
Proof.
  intros Hij. unfold ExportJob.frameTimeOf, Double.div.
  apply round_mono. unfold Qdiv. apply Qmult_le_compat_r; [| discriminate].
  by rewrite <- Zle_Qle.
Qed.

Lemma totalFrames_nonneg duration :
  (0 <= duration)%Q -> 0 <= ExportJob.totalFrames duration.
Proof.
  intros H. unfold ExportJob.totalFrames, Double.mul.
  change 0 with (Qfloor 0). apply Qfloor_resp_le, round_nonneg.
  apply Qmult_le_0_compat; [assumption | discriminate].
Qed.

(** C6. The export draws its frames in the order of their indices [0], [1],
    [2], ..., frame [i] sampled at [i / frameRate], where [frameRate] is the
    constant 30 of the code and the quotient is the one of JavaScript
    numbers; a run that throws has drawn an initial part of them.  A run
    that completes has drawn exactly [Math.floor(duration * frameRate)]
    frames, the indices [0] to [totalFrames - 1], the product being the one
    of JavaScript numbers too.  The times of the frames never decrease.
    For a duration of 2 seconds there are 60 frames and frame 30 is sampled
    at time 1.  For the number nearest to 0.3 the product is rounded to 9
    and there are 9 frames, where the exact product would give 8; frame 3
    is sampled at the number nearest to 0.1.  The frames of a run are those
    after the ones already in the event log. *)
Theorem export_frame_sequence :
  (forall (w : ExportJob.World) (p : ExportJob.Props) (s : ExportJob.State),
      let total := ExportJob.totalFrames (ExportJob.duration p) in
      let frames :=
        drop (length (ExportJob.drawnFrames (ExportJob.events s)))
             (ExportJob.drawnFrames
                (ExportJob.events (fst (ExportJob.exportBody w p s)))) in
      total = Qfloor (Double.mul (ExportJob.duration p) 30)
      /\ (exists k,
            0 <= k <= Z.max 0 total
            /\ frames = map (fun i => (i, ExportJob.frameTimeOf i)) (seqZ 0 k))
      /\ (snd (ExportJob.exportBody w p s) = ExportJob.Normal tt ->
          frames = map (fun i => (i, ExportJob.frameTimeOf i)) (seqZ 0 total)
          /\ length frames = Z.to_nat total
          /\ ((0 <= ExportJob.duration p)%Q ->
              Z.of_nat (length frames) = total)
          /\ (forall i, 0 <= i < total ->
                frames !! Z.to_nat i = Some (i, ExportJob.frameTimeOf i)
                /\ ExportJob.frameTimeOf i = Double.div (inject_Z i) 30)))
  /\ (forall i j,
        i <= j -> (ExportJob.frameTimeOf i <= ExportJob.frameTimeOf j)%Q)
  /\ ExportJob.totalFrames 2 = 60
  /\ ExportJob.frameTimeOf 30 = 1%Q
  /\ ExportJob.totalFrames js_0_3 = 9
  /\ Qfloor (js_0_3 * 30) = 8
  /\ ExportJob.frameTimeOf 3 = js_0_1.
Proof.
  split; [| split; [exact frameTimeOf_mono |];
            repeat split; vm_compute; reflexivity].
  intros w p s total frames.
  destruct (ExportJob.exportBody w p s) as [s' c] eqn:Hrun.
  simpl in frames |- *.
  destruct (exportBody_draws w p s s' c Hrun) as (k & Hk & Hd & Hn).
  fold total in Hk, Hn. rewrite Z.sub_0_r in Hd.
  assert (Hframes : frames =
                    map (fun i => (i, ExportJob.frameTimeOf i)) (seqZ 0 k)).
  { subst frames. by rewrite Hd, drop_app_length. }
  split; [reflexivity |]. split; [by exists k |].
  intros ->. rewrite (Hn tt eq_refl) in Hframes.
  assert (Heq : frames =
                map (fun i => (i, ExportJob.frameTimeOf i)) (seqZ 0 total)).
  { rewrite Hframes. destruct (Z.le_gt_cases 0 total) as [Hpos | Hneg].
    - by rewrite Z.max_r by lia.
    - rewrite Z.max_l by lia. by rewrite (seqZ_nil 0 total) by lia. }
  assert (Hlen : length frames = Z.to_nat total)
    by (by rewrite Heq, length_map, length_seqZ).
  split; [assumption |]. split; [assumption |]. split.
  - intros Hpos. rewrite Hlen. apply Z2Nat.id.
    by apply totalFrames_nonneg.
  - intros i Hi. split; [| reflexivity].
    rewrite Heq, list_lookup_fmap, lookup_seqZ_lt by lia. simpl.
    by rewrite Z2Nat.id by lia.
Qed.

Lemma export_frame_sequence_witness :
  snd (ExportJob.exportBody ExportJob.allSucceeds (ExportJob.someProps 2)
         ExportJob.freshState) = ExportJob.Normal tt
  /\ length
       (drop (length (ExportJob.drawnFrames
                        (ExportJob.events ExportJob.freshState)))
             (ExportJob.drawnFrames
                (ExportJob.events
                   (fst (ExportJob.exportBody ExportJob.allSucceeds
                           (ExportJob.someProps 2) ExportJob.freshState)))))
     = Z.to_nat (ExportJob.totalFrames
                   (ExportJob.duration (ExportJob.someProps 2))).
Proof.
  assert (Hrun : snd (ExportJob.exportBody ExportJob.allSucceeds
                        (ExportJob.someProps 2) ExportJob.freshState)
                 = ExportJob.Normal tt) by (vm_compute; reflexivity).
  split; [exact Hrun |].
  destruct (proj1 export_frame_sequence ExportJob.allSucceeds
              (ExportJob.someProps 2) ExportJob.freshState)
    as (_ & _ & Hdone).
  destruct (Hdone Hrun) as (_ & Hlen & _).
  exact Hlen.
Defined.

(** ** Cleanup of the encoder's working storage *)

(** The state in which the [try] block of [handleExport] starts. *)
Lemma handleExport_FS w p s :
  ExportJob.FS (fst (ExportJob.handleExport w p s)) =
  ExportJob.FS
    (fst (ExportJob.exportBody w p
            (fst (ExportJob.bind (ExportJob.setIsExporting true)
                    (fun _ => ExportJob.setExportProgress 0) s)))).
Proof.
  unfold ExportJob.handleExport at 1. unfold ExportJob.bind at 1 2. simpl.
  unfold ExportJob.tryCatchFinally.
  destruct (ExportJob.exportBody w p _) as [s' [[] | e |]]; reflexivity.
Qed.

(** A run whose [try] block completes leaves none of the files it created:
    every frame image, [input.mp3] and [output.mp4] have been unlinked. *)
Lemma export_success_unlinks_all w p s name :
  snd (ExportJob.exportBody w p
         (fst (ExportJob.bind (ExportJob.setIsExporting true)
                 (fun _ => ExportJob.setExportProgress 0) s)))
  = ExportJob.Normal tt ->
  In name (ExportJob.transientNames
             (ExportJob.totalFrames (ExportJob.duration p))) ->
  ExportJob.FS (fst (ExportJob.handleExport w p s)) !! name = None.
Proof.
  rewrite handleExport_FS.
  destruct (ExportJob.exportBody w p _) as [s' c] eqn:Hrun. simpl.
  intros -> Hin. apply exportBody_completed in Hrun as [_ Hgone]. auto.
Qed.

(** C7 fails on the code when a step of the export throws.  The cleanup is
    the last part of the [try] block, not of [finally]: a run that throws
    after [input.mp3] was written skips it.  When an image fails to load,
    [input.mp3] stays in the working storage, whatever the props and the
    state before; when the encoder fails on a clip of three frames, the
    three frame images and [input.mp3] stay. *)
Theorem export_failure_leaves_files :
  (forall (p : ExportJob.Props) (s : ExportJob.State),
      let s' := fst (ExportJob.handleExport ExportJob.imageFails p s) in
      ExportJob.FS s' !! ExportJob.inputName = Some ExportJob.AudioData
      /\ In ExportJob.Alert (ExportJob.events s')
      /\ ExportJob.isExporting s' = false)
  /\ (let s' := fst (ExportJob.handleExport ExportJob.encodeFails
                       (ExportJob.someProps (1 # 10)) ExportJob.freshState) in
      ExportJob.FS s' !! ExportJob.inputName = Some ExportJob.AudioData
      /\ ExportJob.FS s' !! ExportJob.frameName 0 = Some (ExportJob.FrameImage 0)
      /\ ExportJob.FS s' !! ExportJob.frameName 1 = Some (ExportJob.FrameImage 1)
      /\ ExportJob.FS s' !! ExportJob.frameName 2 = Some (ExportJob.FrameImage 2)
      /\ In ExportJob.Alert (ExportJob.events s')
      /\ ExportJob.isExporting s' = false).
Proof.
  split.
  - intros p s.
    unfold ExportJob.handleExport, ExportJob.tryCatchFinally,
      ExportJob.exportBody, ExportJob.ensureLoaded, ExportJob.preloadImages,
      ExportJob.bind, ExportJob.gets, ExportJob.modify,
      ExportJob.setIsExporting, ExportJob.setExportProgress. simpl.
    destruct (ExportJob.isLoaded s); simpl.
    + split; [apply lookup_insert_eq |].
      split; [| reflexivity].
      apply in_or_app. right. by left.
    + split; [apply lookup_insert_eq |].
      split; [| reflexivity].
      apply in_or_app. right. by left.
  - cbv zeta. repeat split; try (vm_compute; reflexivity).
    vm_compute. repeat (first [left; reflexivity | right]).
Qed.

(** The files of a failed run outlive later exports too: a following
    export of a single frame, which succeeds, unlinks only its own frame and
    leaves the second and third frame of the failed run in the storage. *)
Remark stale_frames_survive_next_export :
  let failed := fst (ExportJob.handleExport ExportJob.encodeFails
                       (ExportJob.someProps (1 # 10)) ExportJob.freshState) in
  let later := ExportJob.handleExport ExportJob.allSucceeds
                 (ExportJob.someProps (1 # 30)) failed in
  ~ In ExportJob.Alert
       (drop (length (ExportJob.events failed)) (ExportJob.events (fst later)))
  /\ ExportJob.FS (fst later) !! ExportJob.frameName 0 = None
  /\ ExportJob.FS (fst later) !! ExportJob.frameName 1
     = Some (ExportJob.FrameImage 1)
  /\ ExportJob.FS (fst later) !! ExportJob.frameName 2
     = Some (ExportJob.FrameImage 2).
Proof.
  cbv zeta. repeat split; try (vm_compute; reflexivity).
  vm_compute. intuition discriminate.
Qed.

(** ** Subtitle import *)

Section SrtParser.
Import Srt.

Lemma isDigit_bounds c : isDigit c = true -> (48 <= c <= 57)%N.
Proof.
  unfold isDigit. intros H. apply andb_prop in H as [H1 H2].
  apply N.leb_le in H1, H2. lia.
Qed.

Lemma isDigit_not_comma c : isDigit c = true -> (c =? 44)%N = false.
Proof. intros H. apply isDigit_bounds in H. apply N.eqb_neq. lia. Qed.

Lemma isDigit_not_colon c : isDigit c = true -> (c =? 58)%N = false.
Proof. intros H. apply isDigit_bounds in H. apply N.eqb_neq. lia. Qed.

Lemma replaceFirstComma_digit c s :
  isDigit c = true -> replaceFirstComma (c :: s) = c :: replaceFirstComma s.
Proof. intros H. simpl. by rewrite (isDigit_not_comma c H). Qed.

Lemma splitOn_go_digit c cur s :
  isDigit c = true -> splitOn_go 58%N cur (c :: s) = splitOn_go 58%N (c :: cur) s.
Proof. intros H. cbn [splitOn_go]. by rewrite (isDigit_not_colon c H). Qed.

Lemma takeDigits_digit c s :
  isDigit c = true -> takeDigits (c :: s) = c :: takeDigits s.
Proof. intros H. simpl. by rewrite H. Qed.

Lemma dropDigits_digit c s :
  isDigit c = true -> dropDigits (c :: s) = dropDigits s.
Proof. intros H. simpl. by rewrite H. Qed.

(** The groups of a match always convert: no entry has a [NaN] time. *)
Lemma timecodeToSeconds_value h1 h2 m1 m2 s1 s2 sep f1 f2 f3 :
  forallb isDigit [h1; h2; m1; m2; s1; s2; f1; f2; f3] = true ->
  sep = 44%N \/ sep = 46%N ->
  exists q,
    timecodeToSeconds [h1; h2; 58%N; m1; m2; 58%N; s1; s2; sep; f1; f2; f3]
    = Some q
    /\ (q == secondsOf h1 h2 m1 m2 s1 s2 f1 f2 f3)%Q.
Proof.
  intros Hd Hsep. cbn [forallb] in Hd.
  repeat (apply andb_prop in Hd as [? Hd]). clear Hd.
  assert (Hrep :
    replaceFirstComma [h1; h2; 58%N; m1; m2; 58%N; s1; s2; sep; f1; f2; f3]
    = [h1; h2; 58%N; m1; m2; 58%N; s1; s2; 46%N; f1; f2; f3]).
  { rewrite !replaceFirstComma_digit by assumption.
    change (replaceFirstComma (58%N :: ?s)) with (58%N :: replaceFirstComma s).
    rewrite !replaceFirstComma_digit by assumption.
    change (replaceFirstComma (58%N :: ?s)) with (58%N :: replaceFirstComma s).
    rewrite !replaceFirstComma_digit by assumption.
    destruct Hsep as [-> | ->]; [reflexivity |].
    change (replaceFirstComma (46%N :: ?s)) with (46%N :: replaceFirstComma s).
    by rewrite !replaceFirstComma_digit by assumption. }
  assert (Hsplit :
    splitOn 58%N [h1; h2; 58%N; m1; m2; 58%N; s1; s2; 46%N; f1; f2; f3]
    = [[h1; h2]; [m1; m2]; [s1; s2; 46%N; f1; f2; f3]]).
  { unfold splitOn. rewrite !splitOn_go_digit by assumption.
    change (splitOn_go 58%N ?cur (58%N :: ?s))
      with (rev cur :: splitOn_go 58%N [] s).
    rewrite !splitOn_go_digit by assumption.
    change (splitOn_go 58%N ?cur (58%N :: ?s))
      with (rev cur :: splitOn_go 58%N [] s).
    rewrite !splitOn_go_digit by assumption.
    change (splitOn_go 58%N ?cur (46%N :: ?s))
      with (splitOn_go 58%N (46%N :: cur) s).
    rewrite !splitOn_go_digit by assumption. reflexivity. }
  unfold timecodeToSeconds. rewrite Hrep, Hsplit.
  change (at_ ?l 0) with (head l). change (at_ ?l 1) with (l !! 1%nat).
  change (at_ ?l 2) with (l !! 2%nat). cbn [head lookup list_lookup].
  unfold parseInt, parseFloat.
  rewrite !takeDigits_digit, !dropDigits_digit by assumption.
  change (takeDigits []) with (@nil char).
  change (takeDigits (46%N :: ?s)) with (@nil char).
  change (dropDigits (46%N :: ?s)) with (46%N :: s).
  rewrite !takeDigits_digit by assumption.
  change (takeDigits []) with (@nil char).
  eexists. split; [reflexivity |].
  unfold secondsOf, digitsValue, digit. simpl fold_left. simpl length.
  change (10 ^ Z.of_nat 3) with 1000.
  replace (10 * (10 * 0 + (Z.of_N h1 - 48)) + (Z.of_N h2 - 48))
    with (10 * (Z.of_N h1 - 48) + (Z.of_N h2 - 48)) by lia.
  replace (10 * (10 * 0 + (Z.of_N m1 - 48)) + (Z.of_N m2 - 48))
    with (10 * (Z.of_N m1 - 48) + (Z.of_N m2 - 48)) by lia.
  replace (10 * (10 * 0 + (Z.of_N s1 - 48)) + (Z.of_N s2 - 48))
    with (10 * (Z.of_N s1 - 48) + (Z.of_N s2 - 48)) by lia.
  replace (10 * (10 * (10 * 0 + (Z.of_N f1 - 48)) + (Z.of_N f2 - 48))
           + (Z.of_N f3 - 48))
    with (100 * (Z.of_N f1 - 48) + 10 * (Z.of_N f2 - 48) + (Z.of_N f3 - 48))
    by lia.
  reflexivity.
Qed.

Lemma timecodeAt_value s g rest :
  timecodeAt s = Some (g, rest) ->
  s = g ++ rest
  /\ exists q, timecodeToSeconds g = Some q /\ timecodeValue g q.
Proof.
  unfold timecodeAt.
  destruct s as [| h1 [| h2 [| c1 [| m1 [| m2 [| c2 [| s1 [| s2 [| sep
    [| f1 [| f2 [| f3 rest']]]]]]]]]]]]; try discriminate.
  destruct (_ && _) eqn:Hcond; [| discriminate].
  intros H. inversion H; subst. clear H.
  do 11 (apply andb_prop in Hcond as [Hcond ?]).
  repeat match goal with
         | H : (_ =? _)%N = true |- _ => apply N.eqb_eq in H; subst
         end.
  assert (Hd : forallb isDigit [h1; h2; m1; m2; s1; s2; f1; f2; f3] = true)
    by (cbn [forallb];
        repeat match goal with
               | H : isDigit ?c = true |- context [isDigit ?c] => rewrite H
               end; reflexivity).
  assert (Hsep : sep = 44%N \/ sep = 46%N).
  { match goal with
    | H : (_ || _) = true |- _ =>
        apply orb_prop in H as [H | H]; apply N.eqb_eq in H; auto
    end. }
  split; [reflexivity |].
  destruct (timecodeToSeconds_value h1 h2 m1 m2 s1 s2 sep f1 f2 f3 Hd Hsep)
    as (q & Hq & Hval).
  exists q. split; [assumption |].
  unfold timecodeValue. by exists h1, h2, m1, m2, s1, s2, sep, f1, f2, f3.
Qed.

Lemma timeLineAt_groups s g1 g2 :
  timeLineAt s = Some (g1, g2) ->
  exists q1 q2,
    timecodeToSeconds g1 = Some q1 /\ timecodeValue g1 q1
    /\ timecodeToSeconds g2 = Some q2 /\ timecodeValue g2 q2.
Proof.
  unfold timeLineAt.
  destruct (timecodeAt s) as [[g rest] |] eqn:H1; [| discriminate].
  destruct (startsWith (lit " --> ") rest); [| discriminate].
  destruct (timecodeAt (drop 5 rest)) as [[g' rest'] |] eqn:H2;
    [| discriminate].
  intros H. inversion H; subst.
  apply timecodeAt_value in H1 as (_ & q1 & ? & ?).
  apply timecodeAt_value in H2 as (_ & q2 & ? & ?).
  by exists q1, q2.
Qed.

Lemma timeMatch_groups s g1 g2 :
  timeMatch s = Some (g1, g2) ->
  exists q1 q2,
    timecodeToSeconds g1 = Some q1 /\ timecodeValue g1 q1
    /\ timecodeToSeconds g2 = Some q2 /\ timecodeValue g2 q2.
Proof.
  induction s as [| c s IH]; cbn [timeMatch].
  - destruct (timeLineAt []) as [[a b] |] eqn:H; [| discriminate].
    intros Heq. inversion Heq; subst. by apply timeLineAt_groups in H.
  - destruct (timeLineAt (c :: s)) as [[a b] |] eqn:H; [| exact IH].
    intros Heq. inversion Heq; subst. by apply timeLineAt_groups in H.
Qed.

Lemma omap_id_map {A B} (f : A -> option B) (l : list A) :
  omap id (map f l) = omap f l.
Proof.
  induction l as [| a l IH]; [reflexivity |].
  change (omap id (map f (a :: l)))
    with (match f a with
          | Some b => b :: omap id (map f l)
          | None => omap id (map f l)
          end).
  rewrite IH. reflexivity.
Qed.

(** A block parses exactly when it has two lines or more and its first line
    with an arrow matches the pattern; the entry is then the text after that
    line and the two times. *)
Lemma parseBlock_Some block lyric :
  parseBlock block = Some lyric <->
  exists i timeLine g1 g2,
    (2 <= length (splitOn 10%N block))%nat
    /\ splitOn 10%N block !! i = Some timeLine
    /\ includes arrow timeLine = true
    /\ (forall j l, (j < i)%nat -> splitOn 10%N block !! j = Some l ->
                    includes arrow l = false)
    /\ timeMatch timeLine = Some (g1, g2)
    /\ text lyric = join newline (drop (S i) (splitOn 10%N block))
    /\ timecodeToSeconds g1 = Some (startTime lyric)
    /\ timecodeToSeconds g2 = Some (endTime lyric).
Proof.
  unfold parseBlock. set (lines := splitOn 10%N block).
  destruct (Nat.ltb_spec (length lines) 2) as [Hshort | Hlong].
  { split; [discriminate |]. intros (i & tl & g1 & g2 & Hlen & _). lia. }
  destruct (findIndex_spec (includes arrow) lines)
    as [[Hidx Hnone] | (i & x & Hidx & Hi & Hx & Hmin)];
    rewrite Hidx in *.
  - simpl. split; [discriminate |].
    intros (i & tl & g1 & g2 & _ & Hi & Harrow & _).
    rewrite (Hnone i tl Hi) in Harrow. discriminate.
  - replace (Z.of_nat i =? -1) with false by (symmetry; apply Z.eqb_neq; lia).
    replace (Z.of_nat (length lines) <? Z.of_nat i + 1) with false
      by (symmetry; apply Z.ltb_ge; apply lookup_lt_Some in Hi; lia).
    simpl. rewrite at_of_nat, Hi.
    replace (Z.to_nat (Z.of_nat i + 1)) with (S i) by lia.
    split.
    + destruct (timeMatch x) as [[g1 g2] |] eqn:Hm; [| discriminate].
      destruct (timecodeToSeconds g1) as [a |] eqn:H1; [| discriminate].
      destruct (timecodeToSeconds g2) as [b |] eqn:H2; [| discriminate].
      intros H. inversion H; subst. simpl.
      by exists i, x, g1, g2.
    + intros (i' & tl & g1 & g2 & _ & Hi' & Harrow & Hmin' & Hm & Htext
              & H1 & H2).
      assert (i' = i) as ->.
      { destruct (Nat.lt_trichotomy i' i) as [Hlt | [Heq | Hgt]];
          [| assumption |].
        - rewrite (Hmin i' tl Hlt Hi') in Harrow. discriminate.
        - rewrite (Hmin' i x Hgt Hi) in Hx. discriminate. }
      assert (tl = x) by congruence. subst tl.
      rewrite Hm, H1, H2. destruct lyric; simpl in *. by subst.
Qed.

Lemma parseBlock_no_arrow block :
  (forall line, In line (splitOn 10%N block) -> includes arrow line = false) ->
  parseBlock block = None.
Proof.
  intros Hnone. destruct (parseBlock block) as [lyric |] eqn:H; [| reflexivity].
  apply parseBlock_Some in H as (i & tl & _ & _ & _ & Hi & Harrow & _).
  rewrite Hnone in Harrow; [discriminate |].
  apply list_elem_of_In. by eapply list_elem_of_lookup_2.
Qed.

Lemma find_first {A} (p : A -> bool) (l : list A) (x : A) :
  List.find p l = Some x ->
  exists i, l !! i = Some x /\ p x = true
            /\ forall j y, (j < i)%nat -> l !! j = Some y -> p y = false.
Proof.
  intros Hfind. pose proof (at_findIndex p l) as Hat. rewrite Hfind in Hat.
  destruct (findIndex_spec p l) as [[Hidx _] | (i & y & Hidx & Hi & Hy & Hmin)];
    rewrite Hidx in Hat; [discriminate |].
  rewrite at_of_nat, Hi in Hat. inversion Hat; subst. eauto.
Qed.

Lemma parseBlock_unmatched block timeLine :
  List.find (includes arrow) (splitOn 10%N block) = Some timeLine ->
  timeMatch timeLine = None ->
  parseBlock block = None.
Proof.
  intros Hfind Hm.
  destruct (parseBlock block) as [lyric |] eqn:H; [| reflexivity].
  apply parseBlock_Some in H
    as (i & tl & g1 & g2 & _ & Hi & Harrow & Hmin & Hm' & _).
  apply find_first in Hfind as (i' & Hi' & Harrow' & Hmin').
  assert (i' = i) as ->.
  { destruct (Nat.lt_trichotomy i' i) as [Hlt | [Heq | Hgt]]; [| assumption |].
    - rewrite (Hmin i' timeLine Hlt Hi') in Harrow'. discriminate.
    - rewrite (Hmin' i tl Hgt Hi) in Harrow. discriminate. }
  congruence.
Qed.

Lemma parseBlock_well_formed block timeLine g1 g2 :
  (2 <= length (splitOn 10%N block))%nat ->
  List.find (includes arrow) (splitOn 10%N block) = Some timeLine ->
  timeMatch timeLine = Some (g1, g2) ->
  exists i lyric,
    parseBlock block = Some lyric
    /\ splitOn 10%N block !! i = Some timeLine
    /\ text lyric = join newline (drop (S i) (splitOn 10%N block))
    /\ timecodeValue g1 (startTime lyric)
    /\ timecodeValue g2 (endTime lyric).
Proof.
  intros Hlen Hfind Hm.
  apply find_first in Hfind as (i & Hi & Harrow & Hmin).
  destruct (timeMatch_groups _ _ _ Hm) as (q1 & q2 & H1 & V1 & H2 & V2).
  exists i, (mkLyric (join newline (drop (S i) (splitOn 10%N block))) q1 q2).
  split; [| by repeat split].
  apply parseBlock_Some. by exists i, timeLine, g1, g2.
Qed.

Lemma timecodeToSeconds_timecodeValue g q q' :
  timecodeValue g q -> timecodeToSeconds g = Some q' -> (q' == q)%Q.
Proof.
  intros (h1 & h2 & m1 & m2 & s1 & s2 & sep & f1 & f2 & f3 & -> & Hd & Hsep
          & Hq) Hq'.
  destruct (timecodeToSeconds_value _ _ _ _ _ _ _ _ _ _ Hd Hsep)
    as (q0 & H0 & Hv).
  pose proof (eq_trans (eq_sym Hq') H0) as Heq.
  inversion Heq; subst. by rewrite Hv, Hq.
Qed.

Lemma handleSrtImport_alert srt audioDuration :
  handleSrtImport (Some srt) (Some audioDuration) = AlertParseFailed
  <-> parseSrt srt = [].
Proof.
  unfold handleSrtImport. destruct (parseSrt srt) as [| l ls]; simpl.
  - split; reflexivity.
  - destruct audioDuration; split; discriminate.
Qed.
End SrtParser.


(** * Further properties of the code *)

(** ** Window selection on arbitrary input *)

Lemma inWindow_false_sides t l :
  inWindow t l = false -> (t < startTime l)%Q \/ (endTime l <= t)%Q.
Proof.
  unfold inWindow. intros H. apply andb_false_iff in H as [H | H].
  - left. by apply Qleb_false.
  - right. by apply Qltb_false.
Qed.

(** The selection written out by its five outcomes, for any input with a
    first and a last real line. *)
Lemma lyricLines_outcomes timedLyrics t first lastLyric :
  head (List.filter isRealLyric timedLyrics) = Some first ->
  last (List.filter isRealLyric timedLyrics) = Some lastLyric ->
  let rl := List.filter isRealLyric timedLyrics in
  ((t < startTime first)%Q
   /\ lyricLines timedLyrics t = mkWindow None None (Some first))
  \/ ((startTime first <= t)%Q /\ (endTime lastLyric <= t)%Q
      /\ lyricLines timedLyrics t = mkWindow (Some lastLyric) None None)
  \/ ((startTime first <= t)%Q /\ (t < endTime lastLyric)%Q
      /\ exists i c,
           rl !! i = Some c /\ inWindow t c = true
           /\ (forall j l, (j < i)%nat -> rl !! j = Some l ->
                           inWindow t l = false)
           /\ lyricLines timedLyrics t =
                mkWindow (neighbourBefore rl i) (Some c) (rl !! S i))
  \/ ((startTime first <= t)%Q /\ (t < endTime lastLyric)%Q
      /\ (forall j l, rl !! j = Some l -> inWindow t l = false)
      /\ exists i p,
           rl !! i = Some p /\ (endTime p <= t)%Q
           /\ (forall j l, (i < j)%nat -> rl !! j = Some l ->
                           (t < endTime l)%Q)
           /\ lyricLines timedLyrics t = mkWindow (Some p) None (rl !! S i)).
Proof.
  intros Hhead Hlast rl.
  rewrite (lyricLines_cascade _ _ first lastLyric) by assumption. fold rl.
  destruct (Qltb t (startTime first)) eqn:Hb.
  { left. apply Qltb_true in Hb. by split. }
  apply Qltb_false in Hb. right.
  destruct (Qleb (endTime lastLyric) t) eqn:Ha.
  { left. apply Qleb_true in Ha. by repeat split. }
  apply Qleb_false in Ha. right.
  destruct (findIndex_spec (inWindow t) rl)
    as [[-> Hnone] | (i & c & -> & Hi & Hc & Hmin)].
  - right. simpl.
    destruct (scanBack_spec rl t (length rl) ltac:(lia))
      as [[_ Hall] | (i & p & -> & Hlt & Hp & Hend & Hlater)].
    + exfalso. assert (H0 : rl !! 0%nat = Some first)
        by (by rewrite <- head_lookup).
      pose proof (Hall 0%nat first ltac:(apply lookup_lt_Some in H0; lia) H0).
      destruct (inWindow_false_sides t first (Hnone _ _ H0)); lra.
    + replace (Z.of_nat i =? -1) with false by (symmetry; apply Z.eqb_neq; lia).
      simpl. rewrite at_of_nat, at_succ, Hp.
      repeat split; try assumption.
      exists i, p. repeat split; try assumption.
      intros j l Hj Hl. apply (Hlater j); [| assumption].
      apply lookup_lt_Some in Hl. lia.
  - left. replace (Z.of_nat i =? -1) with false
      by (symmetry; apply Z.eqb_neq; lia).
    simpl. rewrite at_pred, at_of_nat, at_succ, Hi.
    repeat split; try assumption. by exists i, c.
Qed.

(** X1. The player shows no line at all exactly when the sequence has no
    real line: with at least one real line, some of [prev], [current] and
    [next] is present at every time, whatever the order of the windows; the
    last [return] of the selection is never reached. *)
Theorem lyricLines_null_iff_no_real_line
  (timedLyrics : list TimedLyric) (t : Q) :
  lyricLines timedLyrics t = nullWindow
  <-> List.filter isRealLyric timedLyrics = [].
Proof.
  split.
  - intros Hnull.
    destruct (List.filter isRealLyric timedLyrics) as [| a rl'] eqn:Hrl;
      [reflexivity | exfalso].
    assert (Hhead : head (List.filter isRealLyric timedLyrics) = Some a)
      by (by rewrite Hrl).
    destruct (last (List.filter isRealLyric timedLyrics)) as [z |] eqn:Hlast;
      [| rewrite Hrl in Hlast; by apply last_None in Hlast].
    destruct (lyricLines_outcomes timedLyrics t a z Hhead Hlast)
      as [[_ H] | [(_ & _ & H) | [(_ & _ & i & c & _ & _ & _ & H)
         | (_ & _ & _ & i & p & _ & _ & _ & H)]]];
      rewrite H in Hnull; discriminate.
  - intros Hrl. unfold lyricLines. by rewrite Hrl.
Qed.

(** X2. Whatever the order of the windows, when no line is [current] the
    line shown as [prev] has ended by [t] and the line shown as [next] has
    not started yet. *)
Theorem lyricLines_idle_sides
  (timedLyrics : list TimedLyric) (t : Q) :
  current (lyricLines timedLyrics t) = None ->
  (forall p, prev (lyricLines timedLyrics t) = Some p -> (endTime p <= t)%Q)
  /\ (forall n, next (lyricLines timedLyrics t) = Some n ->
                (t < startTime n)%Q).
Proof.
  intros Hcur.
  destruct (List.filter isRealLyric timedLyrics) as [| a rl'] eqn:Hrl.
  { unfold lyricLines. rewrite Hrl. split; discriminate. }
  assert (Hhead : head (List.filter isRealLyric timedLyrics) = Some a)
    by (by rewrite Hrl).
  destruct (last (List.filter isRealLyric timedLyrics)) as [z |] eqn:Hlast;
    [| rewrite Hrl in Hlast; by apply last_None in Hlast].
  destruct (lyricLines_outcomes timedLyrics t a z Hhead Hlast)
    as [[Hlt H] | [(_ & Hle & H) | [(_ & _ & i & c & _ & _ & _ & H)
       | (_ & _ & Hnone & i & p & Hp & Hend & Hlater & H)]]];
    rewrite H in Hcur |- *; simpl in *; try discriminate.
  - split; [discriminate |]. intros n Hn. by inversion Hn; subst.
  - split; [| discriminate]. intros p Hp. by inversion Hp; subst.
  - split; [intros q Hq; by inversion Hq; subst |].
    intros n Hn. pose proof (Hlater (S i) n ltac:(lia) Hn).
    destruct (inWindow_false_sides t n (Hnone _ _ Hn)); [assumption | lra].
Qed.

Lemma lyricLines_idle_sides_witness :
  current (lyricLines [lineBefore; silentMiddle; lineAfter] 3) = None
  /\ (forall p, prev (lyricLines [lineBefore; silentMiddle; lineAfter] 3)
                = Some p -> (endTime p <= 3)%Q)
  /\ (forall n, next (lyricLines [lineBefore; silentMiddle; lineAfter] 3)
                = Some n -> (3 < startTime n)%Q).
Proof.
  split; [reflexivity |].
  exact (lyricLines_idle_sides [lineBefore; silentMiddle; lineAfter] 3%Q
           eq_refl).
Defined.

(** X3. Whatever the order of the windows, also when they overlap, the line
    shown as [current] is the first real line whose window
    [startTime <= t < endTime] contains [t], and [prev] and [next] are its
    neighbours in the sequence of real lines. *)
Theorem lyricLines_current_first_match
  (timedLyrics : list TimedLyric) (t : Q) (c : TimedLyric) :
  current (lyricLines timedLyrics t) = Some c ->
  let rl := List.filter isRealLyric timedLyrics in
  exists i,
    rl !! i = Some c
    /\ (startTime c <= t)%Q /\ (t < endTime c)%Q
    /\ (forall j l, (j < i)%nat -> rl !! j = Some l ->
                    (t < startTime l)%Q \/ (endTime l <= t)%Q)
    /\ prev (lyricLines timedLyrics t) = neighbourBefore rl i
    /\ next (lyricLines timedLyrics t) = rl !! S i.
Proof.
  intros Hcur rl.
  destruct (List.filter isRealLyric timedLyrics) as [| a rl'] eqn:Hrl.
  { unfold lyricLines in Hcur. rewrite Hrl in Hcur. discriminate. }
  assert (Hhead : head (List.filter isRealLyric timedLyrics) = Some a)
    by (by rewrite Hrl).
  destruct (last (List.filter isRealLyric timedLyrics)) as [z |] eqn:Hlast;
    [| rewrite Hrl in Hlast; by apply last_None in Hlast].
  destruct (lyricLines_outcomes timedLyrics t a z Hhead Hlast)
    as [[_ H] | [(_ & _ & H) | [(_ & _ & i & c' & Hi & Hc & Hmin & H)
       | (_ & _ & _ & i & p & _ & _ & _ & H)]]];
    rewrite H in Hcur |- *; simpl in *; try discriminate.
  inversion Hcur; subst c'. rewrite Hrl in Hi, Hmin. subst rl.
  exists i. unfold inWindow in Hc. apply andb_prop in Hc as [H1 H2].
  apply Qleb_true in H1. apply Qltb_true in H2.
  repeat split; try assumption; try (by rewrite Hrl).
  intros j l Hj Hl. apply inWindow_false_sides. by apply (Hmin j).
Qed.

Lemma lyricLines_current_first_match_witness :
  current (lyricLines [hello] 11) = Some hello
  /\ exists i,
       List.filter isRealLyric [hello] !! i = Some hello
       /\ (startTime hello <= 11)%Q /\ (11 < endTime hello)%Q
       /\ (forall j l, (j < i)%nat ->
             List.filter isRealLyric [hello] !! j = Some l ->
             (11 < startTime l)%Q \/ (endTime l <= 11)%Q)
       /\ prev (lyricLines [hello] 11)
          = neighbourBefore (List.filter isRealLyric [hello]) i
       /\ next (lyricLines [hello] 11)
          = List.filter isRealLyric [hello] !! S i.
Proof.
  split; [reflexivity |].
  exact (lyricLines_current_first_match [hello] 11%Q hello eq_refl).
Defined.

(** ** The silent intro of the hand-off *)

Lemma lyricLines_filter_ext lyrics1 lyrics2 t :
  List.filter isRealLyric lyrics1 = List.filter isRealLyric lyrics2 ->
  lyricLines lyrics1 t = lyricLines lyrics2 t.
Proof. intros H. unfold lyricLines. by rewrite H. Qed.

Lemma handleTimingComplete_handed lyrics duration :
  exists prefix,
    timedLyrics (handleTimingComplete lyrics duration) = prefix ++ lyrics
    /\ Forall (fun l => text l = []) prefix.
Proof.
  unfold handleTimingComplete. destruct lyrics as [| lyric0 rest].
  - exists []. by split.
  - simpl. destruct (Qltb js_0_1 (startTime lyric0)).
    + exists [mkLyric [] 0 (startTime lyric0)]. split; [reflexivity |].
      by repeat constructor.
    + exists []. by split.
Qed.

Lemma filter_silent_prefix (keep : TimedLyric -> bool) prefix lyrics :
  (forall l, text l = [] -> keep l = false) ->
  Forall (fun l => text l = []) prefix ->
  List.filter keep (prefix ++ lyrics) = List.filter keep lyrics.
Proof.
  intros Hkeep Hprefix. induction Hprefix as [| l prefix Hl _ IH];
    [reflexivity |].
  simpl. by rewrite (Hkeep l Hl).
Qed.

(** X4. The silent intro that the hand-off puts before the captured lines
    is invisible downstream: the player and the export select the same
    window from the handed-off sequence as from the captured list, at every
    time, and the background generation groups the same lines. *)
Theorem handoff_gap_is_invisible
  (lyrics : list TimedLyric) (duration t : Q) :
  let handed := timedLyrics (handleTimingComplete lyrics duration) in
  lyricLines handed t = lyricLines lyrics t
  /\ currentLyricLines handed t = currentLyricLines lyrics t
  /\ lyricsToProcess handed = lyricsToProcess lyrics.
Proof.
  intros handed. subst handed.
  destruct (handleTimingComplete_handed lyrics duration) as (prefix & -> & Hp).
  assert (Hreal : List.filter isRealLyric (prefix ++ lyrics)
                  = List.filter isRealLyric lyrics).
  { apply filter_silent_prefix; [| assumption].
    intros l Hl. unfold isRealLyric. by rewrite Hl. }
  split; [by apply lyricLines_filter_ext |].
  split; [rewrite !currentLyricLines_lyricLines;
          by apply lyricLines_filter_ext |].
  unfold lyricsToProcess. apply filter_silent_prefix; [| assumption].
  intros l Hl. unfold toProcess. by rewrite Hl.
Qed.

(** ** Subtitle import, further *)

Section SrtFurther.
Import Srt.

Lemma splitOn_go_nonempty sep cur s : splitOn_go sep cur s <> [].
Proof.
  revert cur. induction s as [| c s IH]; intros cur; simpl;
    [discriminate |].
  destruct (c =? sep)%N; [discriminate | apply IH].
Qed.

Lemma join_cons sep x l :
  l <> [] -> join sep (x :: l) = x ++ sep ++ join sep l.
Proof. intros H. destruct l; [contradiction | reflexivity]. Qed.

Lemma join_splitOn_go sep cur s :
  join [sep] (splitOn_go sep cur s) = rev cur ++ s.
Proof.
  revert cur. induction s as [| c s IH]; intros cur; simpl.
  - by rewrite app_nil_r.
  - destruct (N.eqb_spec c sep) as [-> | Hne].
    + rewrite join_cons by apply splitOn_go_nonempty. by rewrite IH.
    + rewrite IH. simpl. by rewrite <- app_assoc.
Qed.

Lemma splitOn_go_pieces sep cur s piece :
  ~ In sep cur -> In piece (splitOn_go sep cur s) -> ~ In sep piece.
Proof.
  revert cur. induction s as [| c s IH]; intros cur Hcur; simpl.
  - intros [<- | []]. by rewrite <- in_rev.
  - destruct (N.eqb_spec c sep) as [-> | Hne].
    + intros [<- | Hin]; [by rewrite <- in_rev |].
      apply (IH []); [intros [] | assumption].
    + apply IH. intros [-> | Hin]; [by apply Hne | by apply Hcur].
Qed.

(** X5. Splitting a text at a separator and joining the pieces with the
    separator gives the text back, and no piece contains the separator: the
    lines of a subtitle block, joined by line feeds, are the block. *)
Theorem join_splitOn_round_trip (sep : char) (s : jsstring) :
  join [sep] (splitOn sep s) = s
  /\ Forall (fun piece => ~ In sep piece) (splitOn sep s).
Proof.
  split; [apply (join_splitOn_go sep [] s) |].
  apply Forall_forall. intros piece Hin. apply list_elem_of_In in Hin.
  by apply (splitOn_go_pieces sep [] s piece); [intros [] |].
Qed.

Lemma join_app sep (l1 l2 : list jsstring) :
  l1 <> [] -> l2 <> [] ->
  join sep (l1 ++ l2) = join sep l1 ++ sep ++ join sep l2.
Proof.
  intros H1 H2. induction l1 as [| x l1 IH]; [contradiction |].
  destruct l1 as [| y l1].
  - change ([x] ++ l2) with (x :: l2). by rewrite join_cons.
  - change ((x :: y :: l1) ++ l2) with (x :: ((y :: l1) ++ l2)).
    rewrite join_cons by discriminate. rewrite IH by discriminate.
    rewrite (join_cons sep x (y :: l1)) by discriminate.
    by rewrite <- !app_assoc.
Qed.

(** X6. A block that parses is lines joined by line feeds: lines without
    an arrow, then the time line, which is the first line with an arrow, then
    the lines of the text.  The text of the entry is those last lines joined
    by line feeds, verbatim. *)
Theorem parseBlock_text_verbatim (block : jsstring) (lyric : TimedLyric) :
  parseBlock block = Some lyric ->
  exists before timeLine after,
    block = join newline (before ++ timeLine :: after)
    /\ Forall (fun l => ~ In 10%N l) (before ++ timeLine :: after)
    /\ Forall (fun l => includes arrow l = false) before
    /\ includes arrow timeLine = true
    /\ text lyric = join newline after.
Proof.
  intros H. apply parseBlock_Some in H
    as (i & tl & g1 & g2 & _ & Hi & Harrow & Hmin & _ & Htext & _).
  pose proof (join_splitOn_go 10%N [] block) as Hjoin. simpl in Hjoin.
  fold (splitOn 10%N block) in Hjoin. change [10%N] with newline in Hjoin.
  assert (Hpieces : Forall (fun l => ~ In 10%N l) (splitOn 10%N block)).
  { apply List.Forall_forall. intros l Hl.
    apply (splitOn_go_pieces 10%N [] block l); [intros [] | exact Hl]. }
  set (lines := splitOn 10%N block) in *.
  pose proof (take_drop_middle lines i tl Hi) as Hsplit.
  exists (take i lines), tl, (drop (S i) lines).
  rewrite Hsplit. repeat split; try assumption; [by symmetry |].
  apply List.Forall_forall. intros l Hl.
  apply list_elem_of_In, list_elem_of_lookup_1 in Hl as [j Hj].
  apply lookup_take_Some in Hj as [Hj Hlt]. by apply (Hmin j l).
Qed.

Lemma parseBlock_text_verbatim_witness :
  exists lyric,
    parseBlock sampleBlock = Some lyric
    /\ exists before timeLine after,
         sampleBlock = join newline (before ++ timeLine :: after)
         /\ Forall (fun l => ~ In 10%N l) (before ++ timeLine :: after)
         /\ Forall (fun l => includes arrow l = false) before
         /\ includes arrow timeLine = true
         /\ text lyric = join newline after.
Proof.
  destruct (parseBlock sampleBlock) as [lyric |] eqn:H;
    [| vm_compute in H; discriminate].
  exists lyric. split; [reflexivity |].
  exact (parseBlock_text_verbatim sampleBlock lyric H).
Defined.
End SrtFurther.

Section SrtTimes.
Import Srt.

Lemma digit_bounds c : isDigit c = true -> 0 <= digit c <= 9.
Proof. intros H. apply isDigit_bounds in H. unfold digit. lia. Qed.

(** A rounded value lies between the rounded bounds of the exact one. *)
Lemma round_between lo hi x :
  (lo <= x)%Q -> (x <= hi)%Q ->
  (Double.round lo <= Double.round x)%Q
  /\ (Double.round x <= Double.round hi)%Q.
Proof. intros H1 H2. split; by apply round_mono. Qed.

Lemma timecodeValue_bounds g q :
  timecodeValue g q -> (0 <= q)%Q /\ (q < 362440)%Q.
Proof.
  intros (h1 & h2 & m1 & m2 & s1 & s2 & sep & f1 & f2 & f3 & _ & Hd & _ & Hq).
  cbn [forallb] in Hd. repeat (apply andb_prop in Hd as [?%digit_bounds Hd]).
  clear Hd. unfold secondsOf in Hq.
  assert (Hh : 0 <= 10 * digit h1 + digit h2 <= 99) by lia.
  assert (Hm : 0 <= 10 * digit m1 + digit m2 <= 99) by lia.
  assert (Hs : 0 <= 10 * digit s1 + digit s2 <= 99) by lia.
  assert (Hf : 0 <= 100 * digit f1 + 10 * digit f2 + digit f3 <= 999) by lia.
  revert Hq Hh Hm Hs Hf.
  generalize (10 * digit h1 + digit h2), (10 * digit m1 + digit m2),
    (10 * digit s1 + digit s2), (100 * digit f1 + 10 * digit f2 + digit f3).
  intros a b c d Hq [Ha1 Ha2] [Hb1 Hb2] [Hc1 Hc2] [Hd1 Hd2].
  rewrite Zle_Qle in Ha1, Ha2, Hb1, Hb2, Hc1, Hc2, Hd1, Hd2.
  change (inject_Z 0) with 0%Q in *. change (inject_Z 99) with 99%Q in *.
  change (inject_Z 999) with 999%Q in *.
  change (inject_Z d / 1000)%Q with (inject_Z d * (1 # 1000))%Q in Hq.
  clear - Hq Ha1 Ha2 Hb1 Hb2 Hc1 Hc2 Hd1 Hd2.
  revert Hq Ha1 Ha2 Hb1 Hb2 Hc1 Hc2 Hd1 Hd2.
  generalize (inject_Z a), (inject_Z b), (inject_Z c), (inject_Z d).
  intros qa qb qc qd Hq ? ? ? ? ? ? ? ?.
  unfold Double.add, Double.mul in Hq.
  destruct (round_between 0 99 qa) as [Ha3 Ha4]; [assumption.. |].
  destruct (round_between 0 99 qb) as [Hb3 Hb4]; [assumption.. |].
  change (Double.round 0) with 0%Q in Ha3, Hb3.
  change (Double.round 99) with 99%Q in Ha4, Hb4.
  set (ha := Double.round qa) in *. set (hb := Double.round qb) in *.
  destruct (round_between 0 356400 (ha * 3600)) as [Hh3 Hh4]; [lra.. |].
  destruct (round_between 0 5940 (hb * 60)) as [Hm3 Hm4]; [lra.. |].
  change (Double.round 0) with 0%Q in Hh3, Hm3.
  change (Double.round 356400) with 356400%Q in Hh4.
  change (Double.round 5940) with 5940%Q in Hm4.
  set (H := Double.round (ha * 3600)) in *.
  set (M := Double.round (hb * 60)) in *.
  destruct (round_between 0 362340 (H + M)) as [Hi3 Hi4]; [lra.. |].
  change (Double.round 0) with 0%Q in Hi3.
  change (Double.round 362340) with 362340%Q in Hi4.
  set (I := Double.round (H + M)) in *.
  destruct (round_between 0 (99999 # 1000) (qc + qd * (1 # 1000)))
    as [Hs3 Hs4]; [lra.. |].
  change (Double.round 0) with 0%Q in Hs3.
  set (S := Double.round (qc + qd * (1 # 1000))) in *.
  set (smax := Double.round (99999 # 1000)) in *.
  assert (Hsmax : (smax <= 100)%Q) by (vm_compute; discriminate).
  destruct (round_between 0 (362340 + smax) (I + S)) as [Ht3 Ht4];
    [lra.. |].
  change (Double.round 0) with 0%Q in Ht3.
  assert (Htmax : (Double.round (362340 + smax) < 362440)%Q)
    by (vm_compute; reflexivity).
  split; lra.
Qed.

Lemma parseSrt_In srt lyric :
  In lyric (parseSrt srt) -> exists block, parseBlock block = Some lyric.
Proof.
  unfold parseSrt. rewrite omap_id_map. intros Hin.
  apply list_elem_of_In, list_elem_of_omap in Hin as (block & _ & H).
  by exists block.
Qed.

(** X7. Every entry the parser returns has times in the range of the
    pattern: [startTime] and [endTime] are at least 0 and below 362440
    seconds, the bound of [99:99:99,999].  Minutes and seconds above 59 are
    accepted and converted as they stand, and the parser does not compare
    the two times of an entry with each other. *)
Theorem parseSrt_times_in_range (srt : jsstring) (lyric : TimedLyric) :
  In lyric (parseSrt srt) ->
  (0 <= startTime lyric)%Q /\ (startTime lyric < 362440)%Q
  /\ (0 <= endTime lyric)%Q /\ (endTime lyric < 362440)%Q.
Proof.
  intros Hin. apply parseSrt_In in Hin as (block & H).
  apply parseBlock_Some in H
    as (i & tl & g1 & g2 & _ & _ & _ & _ & Hm & _ & H1 & H2).
  destruct (timeMatch_groups _ _ _ Hm) as (q1 & q2 & H1' & V1 & H2' & V2).
  assert (q1 = startTime lyric) as -> by congruence.
  assert (q2 = endTime lyric) as -> by congruence.
  apply timecodeValue_bounds in V1, V2. tauto.
Qed.

Lemma parseSrt_times_in_range_witness :
  exists lyric,
    In lyric (parseSrt sampleSrt)
    /\ (0 <= startTime lyric)%Q /\ (startTime lyric < 362440)%Q
    /\ (0 <= endTime lyric)%Q /\ (endTime lyric < 362440)%Q.
Proof.
  destruct (parseSrt sampleSrt) as [| lyric rest] eqn:H;
    [vm_compute in H; discriminate |].
  exists lyric.
  assert (Hin : In lyric (parseSrt sampleSrt)) by (rewrite H; by left).
  split; [by left |].
  exact (parseSrt_times_in_range sampleSrt lyric Hin).
Defined.
End SrtTimes.

Section SrtLineEndings.
Import Srt.

Lemma crlf_cons c s :
  crlf (c :: s) = (if (c =? 10)%N then [13%N; 10%N] else [c]) ++ crlf s.
Proof. reflexivity. Qed.

Lemma lfcr_cons c s :
  lfcr (c :: s) = (if (c =? 10)%N then [10%N; 13%N] else [c]) ++ lfcr s.
Proof. reflexivity. Qed.

Lemma crlf_app s1 s2 : crlf (s1 ++ s2) = crlf s1 ++ crlf s2.
Proof. apply flat_map_app. Qed.

Lemma lfcr_app s1 s2 : lfcr (s1 ++ s2) = lfcr s1 ++ lfcr s2.
Proof. apply flat_map_app. Qed.

Lemma trimStart_crlf s : trimStart (crlf s) = crlf (trimStart s).
Proof.
  induction s as [| c s IH]; [reflexivity |].
  rewrite crlf_cons. destruct (N.eqb_spec c 10%N) as [-> | Hne].
  - exact IH.
  - cbn [app trimStart]. destruct (isWhiteSpace c); [exact IH |].
    rewrite crlf_cons. by rewrite (proj2 (N.eqb_neq c 10%N) Hne).
Qed.

Lemma trimStart_lfcr s : trimStart (lfcr s) = lfcr (trimStart s).
Proof.
  induction s as [| c s IH]; [reflexivity |].
  rewrite lfcr_cons. destruct (N.eqb_spec c 10%N) as [-> | Hne].
  - exact IH.
  - cbn [app trimStart]. destruct (isWhiteSpace c); [exact IH |].
    rewrite lfcr_cons. by rewrite (proj2 (N.eqb_neq c 10%N) Hne).
Qed.

Lemma rev_crlf s : rev (crlf s) = lfcr (rev s).
Proof.
  induction s as [| c s IH]; [reflexivity |].
  rewrite crlf_cons, rev_app_distr. unfold char in *. rewrite IH. cbn [rev].
  rewrite lfcr_app. f_equal. by destruct (c =? 10)%N eqn:E;
    unfold lfcr; cbn [flat_map]; rewrite E.
Qed.

Lemma rev_lfcr s : rev (lfcr s) = crlf (rev s).
Proof.
  induction s as [| c s IH]; [reflexivity |].
  rewrite lfcr_cons, rev_app_distr. unfold char in *. rewrite IH. cbn [rev].
  rewrite crlf_app. f_equal. by destruct (c =? 10)%N eqn:E;
    unfold crlf; cbn [flat_map]; rewrite E.
Qed.

Lemma trim_crlf s : trim (crlf s) = crlf (trim s).
Proof.
  unfold trim, trimEnd.
  by rewrite trimStart_crlf, rev_crlf, trimStart_lfcr, rev_lfcr.
Qed.

Lemma removeCR_crlf s : removeCR (crlf s) = removeCR s.
Proof.
  induction s as [| c s IH]; [reflexivity |].
  rewrite crlf_cons. unfold removeCR in *. rewrite List.filter_app, IH.
  destruct (N.eqb_spec c 10%N) as [-> | Hne]; [reflexivity |].
  cbn [List.filter app]. by destruct (negb (c =? 13)%N).
Qed.

(** X8. The parser reads a file with Windows line endings as it reads the
    same file with Unix line endings: putting a carriage return before every
    line feed of the text changes no entry. *)
Theorem parseSrt_crlf (srt : jsstring) : parseSrt (crlf srt) = parseSrt srt.
Proof. unfold parseSrt. by rewrite trim_crlf, removeCR_crlf. Qed.

Lemma trimStart_blank s : forallb isWhiteSpace s = true -> trimStart s = [].
Proof.
  induction s as [| c s IH]; [reflexivity |].
  simpl. intros H. apply andb_prop in H as [-> H]. by apply IH.
Qed.

(** X9. A file that is empty or holds white space only gives no entry, so
    that with an audio file present the import ends in the alert about the
    subtitles and the player is not opened. *)
Theorem parseSrt_blank (srt : jsstring) (audioDuration : option Q) :
  forallb isWhiteSpace srt = true ->
  parseSrt srt = []
  /\ handleSrtImport (Some srt) (Some audioDuration) = AlertParseFailed.
Proof.
  intros Hblank.
  assert (Hparse : parseSrt srt = []).
  { unfold parseSrt, trim. rewrite (trimStart_blank srt Hblank).
    reflexivity. }
  split; [assumption |]. unfold handleSrtImport. by rewrite Hparse.
Qed.

Lemma parseSrt_blank_witness :
  forallb isWhiteSpace (lit "  " ++ newline) = true
  /\ parseSrt (lit "  " ++ newline) = []
  /\ handleSrtImport (Some (lit "  " ++ newline)) (Some (Some 10%Q))
     = AlertParseFailed.
Proof.
  split; [reflexivity |].
  exact (parseSrt_blank (lit "  " ++ newline) (Some 10%Q) eq_refl).
Defined.

(** X10. The import opens the player only with a chosen file, an audio file
    whose duration is known and at least one parsed entry; the player then
    shows, at every time, the window selected from the parsed entries, and
    its duration is the one the audio reported. *)
Theorem handleSrtImport_opens_player
  (file : option jsstring) (audioFile : option (option Q)) (app : AppModel) :
  handleSrtImport file audioFile = TimingComplete app ->
  exists srt duration,
    file = Some srt /\ audioFile = Some (Some duration)
    /\ parseSrt srt <> []
    /\ appState app = PREVIEW /\ audioDuration app = duration
    /\ forall t, lyricLines (timedLyrics app) t = lyricLines (parseSrt srt) t.
Proof.
  unfold handleSrtImport. destruct file as [srt |]; [| discriminate].
  destruct audioFile as [audioDuration |]; [| discriminate].
  destruct (parseSrt srt) as [| l ls] eqn:Hparse; [discriminate |].
  cbn [length Nat.eqb]. destruct audioDuration as [duration |];
    [| discriminate].
  intros H. inversion H as [Happ]. clear H. exists srt, duration.
  rewrite Hparse.
  split; [reflexivity |]. split; [reflexivity |]. split; [discriminate |].
  split; [unfold handleTimingComplete; simpl;
          by destruct (Qltb js_0_1 (startTime l)) |].
  split; [unfold handleTimingComplete; simpl;
          by destruct (Qltb js_0_1 (startTime l)) |].
  intros t.
  destruct (handleTimingComplete_handed (l :: ls) duration)
    as (prefix & Hhanded & Hp).
  rewrite Hhanded. apply lyricLines_filter_ext.
  apply filter_silent_prefix; [| assumption].
  intros x Hx. unfold isRealLyric. by rewrite Hx.
Qed.

Lemma handleSrtImport_opens_player_witness :
  exists app,
    handleSrtImport (Some sampleSrt) (Some (Some 70%Q)) = TimingComplete app
    /\ appState app = PREVIEW /\ audioDuration app = 70%Q.
Proof.
  destruct (handleSrtImport (Some sampleSrt) (Some (Some 70%Q)))
    as [| | | | app] eqn:H; try (vm_compute in H; discriminate).
  exists app. split; [reflexivity |].
  destruct (handleSrtImport_opens_player _ _ _ H)
    as (srt & duration & _ & Hd & _ & Hstate & Hdur & _).
  inversion Hd; subst. by split.
Defined.
End SrtLineEndings.

(** ** Subtitle files by their blocks and lines *)

Section SrtFile.
Import Srt.

Lemma splitOn_go_line sep l cur s :
  ~ In sep l ->
  splitOn_go sep cur (l ++ s) = splitOn_go sep (rev l ++ cur) s.
Proof.
  revert cur. induction l as [| c l IH]; intros cur Hl; [reflexivity |].
  cbn [app splitOn_go]. destruct (N.eqb_spec c sep) as [-> | Hne].
  - exfalso. apply Hl. by left.
  - rewrite IH by (intros H; apply Hl; by right).
    cbn [rev]. by rewrite <- app_assoc.
Qed.

Lemma splitOn_go_join sep l ls cur :
  Forall (fun l => ~ In sep l) (l :: ls) ->
  splitOn_go sep cur (join [sep] (l :: ls)) = (rev cur ++ l) :: ls.
Proof.
  revert l cur. induction ls as [| l2 ls IH]; intros l cur Hall;
    inversion Hall as [| ? ? Hl Hls]; subst.
  - cbn [join]. rewrite <- (app_nil_r l) at 1.
    rewrite splitOn_go_line by assumption. cbn [splitOn_go].
    by rewrite rev_app_distr, rev_involutive.
  - rewrite join_cons by discriminate.
    rewrite splitOn_go_line by assumption.
    cbn [app splitOn_go]. rewrite N.eqb_refl.
    rewrite IH by assumption. by rewrite rev_app_distr, rev_involutive.
Qed.

(** The lines of a block that is given by its lines. *)
Lemma splitOn_join sep lines :
  lines <> [] -> Forall (fun l => ~ In sep l) lines ->
  splitOn sep (join [sep] lines) = lines.
Proof.
  intros Hne Hall. destruct lines as [| l ls]; [contradiction |].
  unfold splitOn. by rewrite splitOn_go_join.
Qed.

Lemma isLine_no char l :
  isLine l = true -> (char = 10%N \/ char = 13%N) -> ~ In char l.
Proof.
  unfold isLine. intros Hl Hc Hin.
  rewrite forallb_forall in Hl. specialize (Hl _ Hin).
  apply andb_prop in Hl as [H10 H13].
  apply negb_true_iff, N.eqb_neq in H10, H13. destruct Hc; congruence.
Qed.

(** *** Cutting a text into blocks *)

Lemma splitBlocks_go_line l cur s :
  ~ In 10%N l ->
  splitBlocks_go InBlock cur (l ++ s) = splitBlocks_go InBlock (rev l ++ cur) s.
Proof.
  revert cur. induction l as [| c l IH]; intros cur Hl; [reflexivity |].
  cbn [app splitBlocks_go]. destruct (N.eqb_spec c 10%N) as [-> | Hne].
  - exfalso. apply Hl. by left.
  - rewrite IH by (intros H; apply Hl; by right).
    cbn [rev]. by rewrite <- app_assoc.
Qed.

(** After one line feed a line that is not empty continues the block. *)
Lemma splitBlocks_go_next_line c l cur s :
  c <> 10%N ->
  splitBlocks_go AfterLineFeed cur (c :: l ++ s)
  = splitBlocks_go InBlock (10%N :: cur) (c :: l ++ s).
Proof.
  intros Hc. cbn [splitBlocks_go].
  by rewrite (proj2 (N.eqb_neq c 10%N) Hc).
Qed.

Lemma splitBlocks_go_lines l ls cur s :
  Forall (fun l => ~ In 10%N l /\ l <> []) (l :: ls) ->
  splitBlocks_go InBlock cur (join newline (l :: ls) ++ s)
  = splitBlocks_go InBlock (rev (join newline (l :: ls)) ++ cur) s.
Proof.
  revert l cur. induction ls as [| l2 ls IH]; intros l cur Hall;
    inversion Hall as [| ? ? [Hl _] Hls]; subst.
  - cbn [join]. by apply splitBlocks_go_line.
  - rewrite join_cons by discriminate. rewrite <- !app_assoc.
    rewrite splitBlocks_go_line by assumption.
    change (newline ++ ?x) with (10%N :: x).
    cbn [splitBlocks_go]. rewrite N.eqb_refl.
    inversion Hls as [| ? ? [Hl2 Hne2] _]; subst.
    destruct l2 as [| c l2]; [contradiction |].
    assert (Hc : c <> 10%N) by (intros ->; apply Hl2; by left).
    assert (Hjoin : exists rest, join newline ((c :: l2) :: ls) = c :: rest).
    { destruct ls; [by exists l2 |]. rewrite join_cons by discriminate.
      by eexists. }
    destruct Hjoin as [rest Hrest]. rewrite Hrest. cbn [app].
    rewrite (splitBlocks_go_next_line c rest) by assumption.
    change (c :: rest ++ s) with ((c :: rest) ++ s). rewrite <- Hrest.
    rewrite IH by assumption.
    f_equal. rewrite !rev_app_distr. cbn [rev app].
    rewrite <- !app_assoc. reflexivity.
Qed.

(** A run of line feeds after the second one belongs to the separator. *)
Lemma splitBlocks_go_separator gap c s :
  c <> 10%N ->
  splitBlocks_go InSeparator [] (replicate gap 10%N ++ c :: s)
  = splitBlocks_go InBlock [] (c :: s).
Proof.
  intros Hc. induction gap as [| gap IH].
  - cbn [replicate app splitBlocks_go].
    by rewrite (proj2 (N.eqb_neq c 10%N) Hc).
  - cbn [replicate app splitBlocks_go]. rewrite N.eqb_refl. exact IH.
Qed.

Lemma isBlock_lines lines :
  isBlock lines = true ->
  Forall (fun l => ~ In 10%N l /\ l <> []) lines
  /\ Forall (fun l => ~ In 13%N l) lines
  /\ exists c rest, join newline lines = c :: rest /\ c <> 10%N.
Proof.
  unfold isBlock. intros H. apply andb_prop in H as [Hne Hlines].
  rewrite forallb_forall in Hlines.
  assert (Hlf : Forall (fun l => ~ In 10%N l /\ l <> []) lines).
  { apply List.Forall_forall. intros l Hl. specialize (Hlines l Hl).
    apply andb_prop in Hlines as [Hline Hfull].
    split; [apply (isLine_no 10%N l Hline); by left |].
    intros ->. discriminate. }
  split; [exact Hlf |]. split.
  - apply List.Forall_forall. intros l Hl. specialize (Hlines l Hl).
    apply andb_prop in Hlines as [Hline _].
    apply (isLine_no 13%N l Hline). by right.
  - destruct lines as [| l ls]; [discriminate |].
    inversion Hlf as [| ? ? [Hl Hfull] _]; subst.
    destruct l as [| c l]; [contradiction |].
    exists c. destruct ls as [| l2 ls].
    + exists l. split; [reflexivity |]. intros ->. apply Hl. by left.
    + rewrite join_cons by discriminate. eexists. split; [reflexivity |].
      intros ->. apply Hl. by left.
Qed.

(** An empty line ends the block. *)
Lemma splitBlocks_go_empty_line cur s :
  splitBlocks_go InBlock cur (10%N :: 10%N :: s)
  = rev cur :: splitBlocks_go InSeparator [] s.
Proof. reflexivity. Qed.

Lemma fileText_cons lines gap b bs :
  fileText ((lines, gap) :: b :: bs)
  = join newline lines ++ replicate (2 + gap) 10%N ++ fileText (b :: bs).
Proof. reflexivity. Qed.

Lemma fileText_head b bs :
  isBlock (fst b) = true ->
  exists c rest, fileText (b :: bs) = c :: rest /\ c <> 10%N.
Proof.
  intros Hb. destruct (isBlock_lines _ Hb) as (_ & _ & c & rest & Hhead & Hc).
  destruct b as [lines gap]. cbn [fst] in Hhead. exists c.
  destruct bs as [| b2 bs].
  - exists rest. cbn [fileText]. by rewrite app_nil_r.
  - rewrite fileText_cons, Hhead. by eexists.
Qed.

(** The blocks of a text assembled from blocks. *)
Lemma splitBlocks_go_fileText b bs cur :
  Forall (fun b => isBlock (fst b) = true) (b :: bs) ->
  splitBlocks_go InBlock cur (fileText (b :: bs))
  = (rev cur ++ join newline (fst b))
    :: map (fun b => join newline (fst b)) bs.
Proof.
  revert b cur. induction bs as [| b2 bs IH]; intros [lines gap] cur Hall;
    inversion Hall as [| ? ? Hb Hbs]; subst; cbn [fst] in *.
  - cbn [fileText map]. rewrite app_nil_r.
    destruct (isBlock_lines lines Hb) as (Hlines & _ & _).
    destruct lines as [| l ls]; [discriminate |].
    rewrite <- (app_nil_r (join newline (l :: ls))) at 1.
    rewrite splitBlocks_go_lines by assumption. cbn [splitBlocks_go].
    by rewrite rev_app_distr, rev_involutive.
  - rewrite fileText_cons.
    destruct (isBlock_lines lines Hb) as (Hlines & _ & _).
    destruct lines as [| l ls]; [discriminate |].
    rewrite splitBlocks_go_lines by assumption.
    change (replicate (2 + gap) 10%N ++ ?x)
      with (10%N :: 10%N :: replicate gap 10%N ++ x).
    rewrite splitBlocks_go_empty_line.
    rewrite rev_app_distr, rev_involutive. f_equal.
    inversion Hbs as [| ? ? Hb2 _]; subst.
    destruct (fileText_head b2 bs Hb2) as (c & more & Hmore & Hc10).
    rewrite Hmore.
    rewrite splitBlocks_go_separator by assumption.
    pose proof (IH b2 [] Hbs) as HI. rewrite Hmore in HI. exact HI.
Qed.

Lemma trimStart_padded lead s :
  forallb isWhiteSpace lead = true -> trimStart (lead ++ s) = trimStart s.
Proof.
  induction lead as [| c lead IH]; [reflexivity |].
  cbn [forallb app trimStart]. intros H. apply andb_prop in H as [-> H].
  by apply IH.
Qed.

Lemma trimStart_solid c s :
  isWhiteSpace c = false -> trimStart (c :: s) = c :: s.
Proof. intros H. cbn [trimStart]. by rewrite H. Qed.

Lemma forallb_rev {A} (f : A -> bool) l :
  forallb f (rev l) = forallb f l.
Proof.
  induction l as [| x l IH]; [reflexivity |].
  cbn [rev]. rewrite forallb_app, IH. cbn [forallb].
  rewrite andb_true_r. apply andb_comm.
Qed.

(** White space around a text that starts and ends with something else is
    trimmed away, and nothing more. *)
Lemma trim_padded lead s trail :
  forallb isWhiteSpace lead = true -> forallb isWhiteSpace trail = true ->
  solidEnds s = true -> trim (lead ++ s ++ trail) = s.
Proof.
  intros Hlead Htrail Hs. unfold solidEnds in Hs.
  destruct s as [| c s']; [discriminate |]. cbn [head] in Hs.
  destruct (last (c :: s')) as [d |] eqn:Hlast; [| discriminate].
  apply andb_prop in Hs as [Hc Hd]. apply negb_true_iff in Hc, Hd.
  unfold trim. rewrite trimStart_padded by assumption.
  change ((c :: s') ++ trail) with (c :: (s' ++ trail)).
  rewrite trimStart_solid by assumption.
  unfold trimEnd. change (c :: s' ++ trail) with ((c :: s') ++ trail).
  rewrite rev_app_distr, trimStart_padded by (by rewrite forallb_rev).
  apply last_Some in Hlast as [front Hfront]. rewrite Hfront.
  rewrite rev_app_distr. cbn [rev app].
  rewrite trimStart_solid by assumption.
  cbn [rev]. by rewrite rev_involutive.
Qed.

Lemma removeCR_id s : ~ In 13%N s -> removeCR s = s.
Proof.
  unfold removeCR. induction s as [| c s IH]; intros H; [reflexivity |].
  cbn [List.filter]. destruct (N.eqb_spec c 13%N) as [-> | Hne].
  - exfalso. apply H. by left.
  - cbn [negb]. f_equal. apply IH. intros Hin. apply H. by right.
Qed.

Lemma join_no_char (c : char) sep pieces :
  ~ In c sep -> Forall (fun piece => ~ In c piece) pieces ->
  ~ In c (join sep pieces).
Proof.
  intros Hsep. induction pieces as [| x l IH]; intros Hall;
    inversion Hall; subst; [intros [] |].
  destruct l as [| y l]; [assumption |].
  rewrite join_cons by discriminate. intros Hin.
  apply in_app_or in Hin as [Hin | Hin]; [contradiction |].
  apply in_app_or in Hin as [Hin | Hin]; [contradiction | by apply IH].
Qed.

Lemma fileText_no_CR blocks :
  Forall (fun b => isBlock (fst b) = true) blocks ->
  ~ In 13%N (fileText blocks).
Proof.
  induction 1 as [| [lines gap] rest Hb _ IH]; [intros [] |].
  cbn [fst] in Hb. destruct (isBlock_lines lines Hb) as (_ & Hcr & _).
  assert (Hlines : ~ In 13%N (join newline lines)).
  { apply join_no_char; [| exact Hcr]. intros [Hin | []]. discriminate. }
  cbn [fileText]. intros Hin.
  apply in_app_or in Hin as [Hin | Hin]; [contradiction |].
  destruct rest as [| b2 rest]; [destruct Hin |].
  apply in_app_or in Hin as [Hin | Hin]; [| contradiction].
  apply list_elem_of_In, elem_of_replicate_inv in Hin. discriminate.
Qed.

(** The parser on a text assembled from blocks, with white space around
    it: every block is parsed on its own. *)
Lemma parseSrt_fileText blocks lead trail :
  Forall (fun b => isBlock (fst b) = true) blocks ->
  blocks = [] \/ solidEnds (fileText blocks) = true ->
  forallb isWhiteSpace lead = true -> forallb isWhiteSpace trail = true ->
  parseSrt (lead ++ fileText blocks ++ trail)
  = omap (fun b => parseBlock (join newline (fst b))) blocks.
Proof.
  intros Hall Hends Hlead Htrail. unfold parseSrt.
  destruct blocks as [| b bs].
  - cbn [fileText app omap].
    assert (Hnil : trim (lead ++ trail) = []).
    { unfold trim. rewrite <- (app_nil_r (lead ++ trail)).
      rewrite trimStart_padded; [reflexivity |].
      by rewrite forallb_app, Hlead, Htrail. }
    rewrite Hnil. reflexivity.
  - destruct Hends as [Hends | Hends]; [discriminate |].
    rewrite trim_padded by assumption.
    rewrite removeCR_id by (by apply fileText_no_CR).
    unfold splitBlocks. rewrite splitBlocks_go_fileText by assumption.
    cbn [rev app].
    change (join newline (fst b) :: map (fun b => join newline (fst b)) bs)
      with (map (fun b => join newline (fst b)) (b :: bs)).
    rewrite omap_id_map. generalize (b :: bs) as blocks. clear.
    induction blocks as [| x l IH]; [reflexivity |].
    change (omap parseBlock (map (fun b => join newline (fst b)) (x :: l)))
      with (match parseBlock (join newline (fst x)) with
            | Some e =>
                e :: omap parseBlock (map (fun b => join newline (fst b)) l)
            | None => omap parseBlock (map (fun b => join newline (fst b)) l)
            end).
    by rewrite IH.
Qed.

Lemma find_app_first {A} (p : A -> bool) (before : list A) x after :
  Forall (fun y => p y = false) before -> p x = true ->
  List.find p (before ++ x :: after) = Some x.
Proof.
  intros Hbefore Hx. induction Hbefore as [| y l Hy _ IH].
  - cbn [app List.find]. by rewrite Hx.
  - cbn [app List.find]. by rewrite Hy.
Qed.

Lemma splitOn_lines lines :
  lines <> [] -> Forall (fun l => ~ In 10%N l) lines ->
  splitOn 10%N (join newline lines) = lines.
Proof. apply splitOn_join. Qed.

Lemma parseBlock_one_line lines :
  lines <> [] -> Forall (fun l => ~ In 10%N l) lines ->
  (length lines < 2)%nat -> parseBlock (join newline lines) = None.
Proof.
  intros Hne Hlines Hlen. unfold parseBlock.
  rewrite splitOn_lines by assumption.
  destruct lines as [| l [| l2 ls]]; [contradiction | reflexivity |].
  simpl in Hlen. lia.
Qed.

Lemma parseBlock_lines_no_arrow lines :
  lines <> [] -> Forall (fun l => ~ In 10%N l) lines ->
  Forall (fun l => includes arrow l = false) lines ->
  parseBlock (join newline lines) = None.
Proof.
  intros Hne Hlines Hnone. apply parseBlock_no_arrow.
  rewrite splitOn_lines by assumption.
  by apply List.Forall_forall.
Qed.

Lemma parseBlock_lines_unmatched before timeLine after :
  Forall (fun l => ~ In 10%N l) (before ++ timeLine :: after) ->
  Forall (fun l => includes arrow l = false) before ->
  includes arrow timeLine = true ->
  timeMatch timeLine = None ->
  parseBlock (join newline (before ++ timeLine :: after)) = None.
Proof.
  intros Hlines Hbefore Harrow Hm.
  apply (parseBlock_unmatched _ timeLine); [| assumption].
  rewrite splitOn_lines by (try assumption; by destruct before).
  by apply find_app_first.
Qed.

Lemma parseBlock_lines_entry before timeLine after g1 g2 :
  Forall (fun l => ~ In 10%N l) (before ++ timeLine :: after) ->
  Forall (fun l => includes arrow l = false) before ->
  includes arrow timeLine = true ->
  timeMatch timeLine = Some (g1, g2) ->
  (2 <= length (before ++ timeLine :: after))%nat ->
  exists lyric,
    parseBlock (join newline (before ++ timeLine :: after)) = Some lyric
    /\ text lyric = join newline after
    /\ timecodeValue g1 (startTime lyric)
    /\ timecodeValue g2 (endTime lyric).
Proof.
  intros Hlines Hbefore Harrow Hm Hlen.
  destruct (timeMatch_groups _ _ _ Hm) as (q1 & q2 & H1 & V1 & H2 & V2).
  exists (mkLyric (join newline after) q1 q2).
  split; [| by repeat split].
  assert (Hsplit : splitOn 10%N (join newline (before ++ timeLine :: after))
                   = before ++ timeLine :: after)
    by (apply splitOn_lines; [by destruct before | assumption]).
  apply parseBlock_Some. exists (length before), timeLine, g1, g2.
  rewrite Hsplit. cbn [text startTime endTime].
  repeat split; try assumption.
  - apply list_lookup_middle. reflexivity.
  - intros j l Hj Hl. rewrite lookup_app_l in Hl by assumption.
    rewrite List.Forall_forall in Hbefore. apply Hbefore.
    apply list_elem_of_In. by eapply list_elem_of_lookup_2.
  - rewrite (cons_middle timeLine before after), app_assoc.
    replace (S (length before)) with (length (before ++ [timeLine]))
      by (rewrite length_app; simpl; lia).
    by rewrite drop_app_length.
Qed.

Lemma includes_skip pat pre s :
  includes pat s = true -> includes pat (pre ++ s) = true.
Proof.
  intros H. induction pre as [| c pre IH]; [exact H |].
  cbn [app includes]. rewrite IH. apply orb_true_r.
Qed.

(** A line that starts with two timecodes around [" --> "] matches the
    pattern, with the two timecodes as its groups. *)
Lemma timeMatch_time_line g1 g2 q1 q2 rest :
  timecodeValue g1 q1 -> timecodeValue g2 q2 ->
  timeMatch (g1 ++ lit " --> " ++ g2 ++ rest) = Some (g1, g2)
  /\ includes arrow (g1 ++ lit " --> " ++ g2 ++ rest) = true.
Proof.
  intros (h1 & h2 & m1 & m2 & s1 & s2 & sep & f1 & f2 & f3 & Hg1 & Hd & Hsep
          & _)
         (h1' & h2' & m1' & m2' & s1' & s2' & sep' & f1' & f2' & f3' & Hg2 & Hd'
          & Hsep' & _).
  cbn [forallb] in Hd, Hd'.
  repeat (apply andb_prop in Hd as [? Hd]).
  repeat (apply andb_prop in Hd' as [? Hd']).
  assert (Hs : ((sep =? 44) || (sep =? 46))%N = true)
    by (destruct Hsep as [-> | ->]; reflexivity).
  assert (Hs' : ((sep' =? 44) || (sep' =? 46))%N = true)
    by (destruct Hsep' as [-> | ->]; reflexivity).
  assert (Hat : timeLineAt (g1 ++ lit " --> " ++ g2 ++ rest)
                = Some (g1, g2)).
  { rewrite Hg1, Hg2. unfold timeLineAt. cbn [app timecodeAt].
    repeat match goal with H : isDigit _ = true |- _ => rewrite H; clear H end.
    rewrite Hs. cbn [andb N.eqb Pos.eqb].
    change (lit " --> ") with [32%N; 45%N; 45%N; 62%N; 32%N].
    cbn [app startsWith N.eqb Pos.eqb andb drop timecodeAt].
    rewrite Hs'.
    repeat match goal with H : isDigit _ = true |- _ => rewrite H; clear H end.
    reflexivity. }
  split.
  - revert Hat. generalize (g1 ++ lit " --> " ++ g2 ++ rest) as line.
    intros line Hat. destruct line; cbn [timeMatch]; by rewrite Hat.
  - apply includes_skip. reflexivity.
Qed.

(** C8, amended.  [parseSrt] is a total function: no block makes it fail.
    Of a file made of blocks, with one empty line or more between two of
    them, white space around them and either kind of line ending, it
    returns in order the entries of the blocks that parse.  A block of one
    line is dropped, also when that line is a time line that matches.  A
    block without a line that contains the arrow is dropped; a block whose
    time line (its first line with the arrow) does not match
    [HH:MM:SS[,.]mmm --> HH:MM:SS[,.]mmm] is dropped.  A block of two lines
    or more whose time line matches gives one entry: the lines after the
    time line joined by line feeds, and the two timecodes in seconds, computed
    as JavaScript numbers.  A line that starts with two timecodes around
    [" --> "] matches, with these as its groups.  The import alerts the user
    about the subtitles exactly when no entry is left. *)
Theorem parseSrt_skips_malformed_blocks :
  (forall blocks lead trail,
      Forall (fun b => isBlock (fst b) = true) blocks ->
      blocks = [] \/ solidEnds (fileText blocks) = true ->
      forallb isWhiteSpace lead = true ->
      forallb isWhiteSpace trail = true ->
      parseSrt (lead ++ fileText blocks ++ trail)
      = omap (fun b => parseBlock (join newline (fst b))) blocks
      /\ parseSrt (crlf (lead ++ fileText blocks ++ trail))
         = omap (fun b => parseBlock (join newline (fst b))) blocks)
  /\ (forall lines,
        lines <> [] -> Forall (fun l => ~ In 10%N l) lines ->
        ((length lines < 2)%nat -> parseBlock (join newline lines) = None)
        /\ (Forall (fun l => includes arrow l = false) lines ->
            parseBlock (join newline lines) = None)
        /\ (forall before timeLine after,
              lines = before ++ timeLine :: after ->
              Forall (fun l => includes arrow l = false) before ->
              includes arrow timeLine = true ->
              (timeMatch timeLine = None ->
               parseBlock (join newline lines) = None)
              /\ (forall g1 g2,
                    timeMatch timeLine = Some (g1, g2) ->
                    (2 <= length lines)%nat ->
                    exists lyric,
                      parseBlock (join newline lines) = Some lyric
                      /\ text lyric = join newline after
                      /\ timecodeValue g1 (startTime lyric)
                      /\ timecodeValue g2 (endTime lyric))))
  /\ (forall g1 g2 q1 q2 rest,
        timecodeValue g1 q1 -> timecodeValue g2 q2 ->
        timeMatch (g1 ++ lit " --> " ++ g2 ++ rest) = Some (g1, g2)
        /\ includes arrow (g1 ++ lit " --> " ++ g2 ++ rest) = true)
  /\ (forall srt audioDuration,
        handleSrtImport (Some srt) (Some audioDuration) = AlertParseFailed
        <-> parseSrt srt = [])
  /\ map text (parseSrt sampleSrt)
     = [lit "Hello" ++ newline ++ lit "World"; lit "Bye"]
  /\ Forall2 Qeq (map startTime (parseSrt sampleSrt)) [1%Q; 63.25%Q]
  /\ Forall2 Qeq (map endTime (parseSrt sampleSrt)) [2.5%Q; 64%Q]
  /\ timecodeToSeconds (lit "00:00:00,100") = Some js_0_1.
Proof.
  split.
  { intros blocks lead trail Hblocks Hends Hlead Htrail.
    assert (Hlf : parseSrt (lead ++ fileText blocks ++ trail)
                  = omap (fun b => parseBlock (join newline (fst b))) blocks)
      by (by apply parseSrt_fileText).
    split; [exact Hlf |]. rewrite <- Hlf.
    unfold parseSrt. by rewrite trim_crlf, removeCR_crlf. }
  split.
  { intros lines Hne Hlines.
    split; [by apply parseBlock_one_line |].
    split; [by apply parseBlock_lines_no_arrow |].
    intros before timeLine after -> Hbefore Harrow.
    split; [by apply parseBlock_lines_unmatched |].
    intros g1 g2 Hm Hlen. by apply parseBlock_lines_entry. }
  split; [exact timeMatch_time_line |].
  split; [exact handleSrtImport_alert |].
  split; [vm_compute; reflexivity |].
  split; [vm_compute; repeat constructor |].
  split; [vm_compute; repeat constructor |].
  vm_compute. reflexivity.
Qed.

Lemma parseSrt_skips_malformed_blocks_witness :
  parseSrt (lit " " ++ fileText sampleBlocks ++ newline)
  = omap (fun b => parseBlock (join newline (fst b))) sampleBlocks
  /\ map text (omap (fun b => parseBlock (join newline (fst b))) sampleBlocks)
     = [lit "Hello"]
  /\ exists lyric,
       parseBlock (join newline [lit "7"; lit "00:01:03.250 --> 00:01:04,000";
                                 lit "Bye"; lit "now"])
       = Some lyric
       /\ text lyric = join newline [lit "Bye"; lit "now"]
       /\ timecodeValue (lit "00:01:03.250") (startTime lyric)
       /\ timecodeValue (lit "00:01:04,000") (endTime lyric).
Proof.
  split; [| split; [reflexivity |]].
  - apply (proj1 parseSrt_skips_malformed_blocks sampleBlocks);
      [repeat constructor | by right | reflexivity | reflexivity].
  - refine (proj2 (proj2 (proj2
              (proj1 (proj2 parseSrt_skips_malformed_blocks)
                 [lit "7"; lit "00:01:03.250 --> 00:01:04,000"; lit "Bye";
                  lit "now"] _ _))
              [lit "7"] (lit "00:01:03.250 --> 00:01:04,000")
              [lit "Bye"; lit "now"] eq_refl _ eq_refl)
              (lit "00:01:03.250") (lit "00:01:04,000") eq_refl _).
    + discriminate.
    + repeat constructor; vm_compute; intuition discriminate.
    + repeat constructor.
    + simpl. lia.
Defined.

(** C8 as stated fails: a block that is one time line matching the pattern
    has a line with the arrow and a time line that matches, and it is
    dropped all the same; a file of that block alone ends in the alert. *)
Lemma parseSrt_lone_time_line :
  isBlock [loneTimeLine] = true
  /\ solidEnds (fileText [([loneTimeLine], 0%nat)]) = true
  /\ fileText [([loneTimeLine], 0%nat)] = loneTimeLine
  /\ includes arrow loneTimeLine = true
  /\ timeMatch loneTimeLine = Some (lit "00:00:01,000", lit "00:00:02,000")
  /\ parseBlock loneTimeLine = None
  /\ parseSrt loneTimeLine = []
  /\ forall audioDuration,
       handleSrtImport (Some loneTimeLine) (Some audioDuration)
       = AlertParseFailed.
Proof.
  repeat split; vm_compute; reflexivity.
Qed.
End SrtFile.

(** ** The background generation, further *)

Lemma stanzasByTwo_nil ls : stanzasByTwo ls = [] <-> ls = [].
Proof. destruct ls as [| a [| b ls]]; split; (reflexivity || discriminate). Qed.

Lemma stanzasByTwo_texts ls :
  join newline (map Stanza.text (stanzasByTwo ls))
  = join newline (map text ls).
Proof.
  induction ls as [| a | a b ls IH] using list_pair_ind; [reflexivity.. |].
  destruct ls as [| c ls]; [reflexivity |].
  remember (c :: ls) as rest eqn:Hrest.
  cbn [stanzasByTwo map Stanza.text].
  assert (Hne : rest <> []) by (subst; discriminate).
  rewrite join_cons
    by (subst rest; destruct ls as [| d ls]; simpl; discriminate).
  rewrite IH. rewrite (join_cons newline (text a)) by discriminate.
  rewrite (join_cons newline (text b)) by (cbn [map]; subst; discriminate).
  by rewrite <- !app_assoc.
Qed.

(** X11. The stanzas lose and add nothing: their texts joined by line feeds
    are the texts of the grouped lines joined by line feeds, which is the
    full lyrics text the prompt model gets as context; the first stanza
    starts with the first line and there are half as many stanzas as lines,
    rounded up. *)
Theorem stanzas_cover_lyrics (toGroup : list TimedLyric) :
  exists stanzas,
    groupStanzas toGroup = Some stanzas
    /\ join newline (map Stanza.text stanzas)
       = join newline (map text toGroup)
    /\ length stanzas = Nat.div2 (S (length toGroup))
    /\ (stanzas = [] <-> toGroup = [])
    /\ (Stanza.startTime <$> head stanzas) = (startTime <$> head toGroup).
Proof.
  exists (stanzasByTwo toGroup).
  split; [apply groupStanzas_spec |].
  split; [apply stanzasByTwo_texts |].
  split; [apply stanzasByTwo_length |].
  split; [apply stanzasByTwo_nil |].
  by destruct toGroup as [| a [| b ls]].
Qed.

(** The image loop appends, for the tasks in order, the images of the calls
    that returned one. *)
Lemma imageLoop_Resolved generateImages tasks acc imgs :
  imageLoop generateImages tasks acc = Resolved imgs ->
  exists new,
    imgs = acc ++ new
    /\ Forall (fun img => truthy (AiImage.url img) = true) new
    /\ map imageSpan new `sublist_of` map taskSpan tasks
    /\ ((forall task, In task tasks ->
           exists bytes,
             generateImages (ImageGenerationTask.prompt task)
             = ImageBytes bytes) ->
        map imageSpan new = map taskSpan tasks).
Proof.
  revert acc. induction tasks as [| task tasks IH]; intros acc; simpl.
  - intros H. inversion H; subst. exists []. rewrite app_nil_r.
    repeat split; constructor.
  - destruct (generateImages (ImageGenerationTask.prompt task))
      as [bytes | |] eqn:Hcall; [| | discriminate].
    + intros H. apply IH in H as (new & -> & Hurls & Hsub & Hall).
      eexists (_ :: new). rewrite <- app_assoc. split; [reflexivity |].
      split; [constructor; [reflexivity | assumption] |].
      split; [by apply sublist_skip |].
      intros Hok. simpl. f_equal. apply Hall. intros t Ht. apply Hok. by right.
    + intros H. apply IH in H as (new & -> & Hurls & Hsub & Hall).
      exists new. split; [reflexivity |]. split; [assumption |].
      split; [by apply sublist_cons |].
      intros Hok. destruct (Hok task (or_introl eq_refl)) as (bytes & Hb).
      congruence.
Qed.

Lemma tasksOfStanzas_spans generatedPrompts songTitle stanzas :
  map taskSpan (tasksOfStanzas generatedPrompts songTitle stanzas)
  = map stanzaSpan stanzas.
Proof.
  unfold tasksOfStanzas. rewrite map_map. by apply map_ext.
Qed.

Lemma jsonImageLoop_Resolved generateImages tasks acc imgs :
  jsonImageLoop generateImages tasks acc = Resolved imgs ->
  exists new,
    imgs = acc ++ new
    /\ Forall (fun img => truthy (AiImage.url img) = true) new
    /\ map imageSpan new `sublist_of` map jsonTaskSpan tasks.
Proof.
  revert acc. induction tasks as [| task tasks IH]; intros acc; simpl.
  - intros H. inversion H; subst. exists []. rewrite app_nil_r.
    repeat split; constructor.
  - destruct (generateImages (JsonTask.prompt task))
      as [bytes | |] eqn:Hcall; [| | discriminate].
    + intros H. apply IH in H as (new & -> & Hurls & Hsub).
      eexists (_ :: new). rewrite <- app_assoc. split; [reflexivity |].
      split; [constructor; [reflexivity | assumption] |].
      by apply sublist_skip.
    + intros H. apply IH in H as (new & -> & Hurls & Hsub).
      exists new. split; [reflexivity |]. split; [assumption |].
      by apply sublist_cons.
Qed.

Lemma jsonTasksOfStanzas_spans generatedPrompts songTitle stanzas tasks :
  jsonTasksOfStanzas generatedPrompts songTitle stanzas = Some tasks ->
  map jsonTaskSpan tasks = map stanzaSpan stanzas.
Proof.
  revert tasks. induction stanzas as [| stanza stanzas IH]; intros tasks;
    cbn [jsonTasksOfStanzas].
  - intros H. by inversion H.
  - destruct (jsonTaskOfStanza generatedPrompts songTitle stanza)
      as [task |] eqn:Htask; [| discriminate].
    destruct (jsonTasksOfStanzas generatedPrompts songTitle stanzas)
      as [rest |]; [| discriminate].
    intros H. inversion H; subst. cbn [map]. rewrite (IH rest eq_refl).
    f_equal. unfold jsonTaskOfStanza in Htask.
    destruct generatedPrompts; try discriminate.
    destruct (findPrompt (Stanza.text stanza) elements); [| discriminate].
    by inversion Htask.
Qed.

Lemma generateVisuals_Parsed allLyrics songTitle generatedPrompts
    generateImages imgs :
  generateVisualsForLyrics allLyrics songTitle
    (PromptsParsed generatedPrompts) generateImages = Resolved imgs ->
  (lyricsToProcess allLyrics = [] /\ imgs = [])
  \/ imageLoop generateImages
       (tasksOfStanzas generatedPrompts songTitle
          (stanzasByTwo (lyricsToProcess allLyrics))) []
     = Resolved imgs.
Proof.
  unfold generateVisualsForLyrics.
  destruct (lyricsToProcess allLyrics) as [| l ls] eqn:Hlines.
  - intros H. inversion H. by left.
  - cbn [length Nat.eqb]. rewrite groupStanzas_spec. intros H. by right.
Qed.

(** The images of a generation that resolves, whatever was answered: none
    has an empty [url], and their windows are windows of the stanzas, in
    order. *)
Lemma generateVisuals_Resolved allLyrics songTitle promptResponse
    generateImages imgs :
  generateVisualsForLyrics allLyrics songTitle promptResponse generateImages
  = Resolved imgs ->
  Forall (fun img => truthy (AiImage.url img) = true) imgs
  /\ map imageSpan imgs
     `sublist_of` map stanzaSpan (stanzasByTwo (lyricsToProcess allLyrics)).
Proof.
  unfold generateVisualsForLyrics.
  destruct (lyricsToProcess allLyrics) as [| l ls] eqn:Hlines.
  - intros H. inversion H. split; [constructor | apply sublist_nil_l].
  - cbn [length Nat.eqb]. rewrite groupStanzas_spec.
    destruct promptResponse
      as [generatedPrompts | generatedPrompts generateImagesFrom | |];
      try discriminate.
    + intros H. apply imageLoop_Resolved in H as (new & -> & Hurls & Hsub & _).
      rewrite tasksOfStanzas_spans in Hsub. by split.
    + destruct (jsonTasksOfStanzas generatedPrompts songTitle
                  (stanzasByTwo (l :: ls))) as [tasks |] eqn:Htasks;
        [| discriminate].
      intros H. apply jsonImageLoop_Resolved in H as (new & -> & Hurls & Hsub).
      rewrite (jsonTasksOfStanzas_spans _ _ _ _ Htasks) in Hsub. by split.
Qed.

(** X12. Whatever the two models answer, a generation that resolves returns
    images whose [url] is never empty and whose windows are windows of the
    stanzas, in the order of the stanzas, each stanza at most once; so there
    are at most half as many images as grouped lines, rounded up. *)
Theorem generateVisuals_result_shape
  (allLyrics : list TimedLyric) (songTitle : jsstring)
  (promptResponse : PromptResponse)
  (generateImages : jsstring -> ImageResponse) (imgs : list AiImage.t) :
  generateVisualsForLyrics allLyrics songTitle promptResponse generateImages
  = Resolved imgs ->
  forallb (fun img => truthy (AiImage.url img)) imgs = true
  /\ map imageSpan imgs
     `sublist_of` map stanzaSpan (stanzasByTwo (lyricsToProcess allLyrics))
  /\ (length imgs <= Nat.div2 (S (length (lyricsToProcess allLyrics))))%nat.
Proof.
  intros H.
  apply generateVisuals_Resolved in H as (Hurls & Hsub).
  split.
  { clear Hsub. induction Hurls as [| img new Himg _ IH]; [reflexivity |].
    simpl. by rewrite Himg, IH. }
  split; [assumption |].
  apply sublist_length in Hsub.
  by rewrite !length_map, stanzasByTwo_length in Hsub.
Qed.

Lemma generateVisuals_result_shape_witness :
  exists imgs,
    generateVisualsForLyrics [lineA01; lineEnd; lineB] (lit "Song")
      (PromptsParsed []) alwaysImage = Resolved imgs
    /\ forallb (fun img => truthy (AiImage.url img)) imgs = true
    /\ (length imgs <= 1)%nat.
Proof.
  destruct (generateVisualsForLyrics [lineA01; lineEnd; lineB] (lit "Song")
              (PromptsParsed []) alwaysImage) as [imgs | e] eqn:H;
    [| vm_compute in H; discriminate].
  exists imgs. split; [reflexivity |].
  destruct (generateVisuals_result_shape _ _ _ _ _ H) as (Hurls & _ & Hlen).
  split; [exact Hurls | exact Hlen].
Defined.

(** X13. When the prompt model's answer parses and every image call returns
    an image, the generation resolves with exactly one image per stanza, in
    the order of the stanzas, each with the window of its stanza. *)
Theorem generateVisuals_one_image_per_stanza
  (allLyrics : list TimedLyric) (songTitle : jsstring)
  (generatedPrompts : list GeneratedPrompt.t)
  (generateImages : jsstring -> ImageResponse) :
  (forall prompt, exists bytes, generateImages prompt = ImageBytes bytes) ->
  exists imgs,
    generateVisualsForLyrics allLyrics songTitle
      (PromptsParsed generatedPrompts) generateImages = Resolved imgs
    /\ map imageSpan imgs
       = map stanzaSpan (stanzasByTwo (lyricsToProcess allLyrics))
    /\ length imgs = Nat.div2 (S (length (lyricsToProcess allLyrics))).
Proof.
  intros Hok.
  assert (Hloop : forall tasks acc,
            exists imgs, imageLoop generateImages tasks acc = Resolved imgs).
  { induction tasks as [| task tasks IH]; intros acc; simpl; [eauto |].
    destruct (Hok (ImageGenerationTask.prompt task)) as (bytes & ->).
    apply IH. }
  unfold generateVisualsForLyrics.
  destruct (lyricsToProcess allLyrics) as [| l ls] eqn:Hlines.
  { exists []. by repeat split. }
  cbn [length Nat.eqb]. rewrite groupStanzas_spec.
  destruct (Hloop (tasksOfStanzas generatedPrompts songTitle
                     (stanzasByTwo (l :: ls))) []) as (imgs & Himgs).
  exists imgs. split; [assumption |].
  apply imageLoop_Resolved in Himgs as (new & -> & _ & _ & Hall).
  simpl app.
  assert (Hspans := Hall (fun task _ => Hok _)).
  rewrite tasksOfStanzas_spans in Hspans. split; [exact Hspans |].
  apply (f_equal length) in Hspans.
  rewrite !length_map, stanzasByTwo_length in Hspans. exact Hspans.
Qed.

Lemma generateVisuals_one_image_per_stanza_witness :
  (forall prompt, exists bytes, alwaysImage prompt = ImageBytes bytes)
  /\ exists imgs,
       generateVisualsForLyrics [lineA01; lineB] (lit "Song")
         (PromptsParsed []) alwaysImage = Resolved imgs
       /\ length imgs = 1%nat.
Proof.
  assert (Hok : forall prompt,
            exists bytes, alwaysImage prompt = ImageBytes bytes)
    by (intros prompt; by exists (lit "QUJD")).
  split; [exact Hok |].
  destruct (generateVisuals_one_image_per_stanza [lineA01; lineB] (lit "Song")
              [] alwaysImage Hok) as (imgs & Hrun & _ & Hlen).
  exists imgs. split; [exact Hrun | exact Hlen].
Defined.











(** *** Windows in time order *)

Lemma orderedSpans_cons s l :
  orderedSpans (s :: l)
  <-> spanOk s /\ Forall (spanBefore s) l /\ orderedSpans l.
Proof.
  unfold orderedSpans. rewrite StronglySorted_cons, Forall_cons. tauto.
Qed.

Lemma Forall_sublist_of {A} (P : A -> Prop) (l1 l2 : list A) :
  l1 `sublist_of` l2 -> Forall P l2 -> Forall P l1.
Proof.
  induction 1 as [| x l1 l2 _ IH | x l1 l2 _ IH]; intros H.
  - constructor.
  - inversion H; subst. constructor; auto.
  - inversion H; subst. auto.
Qed.

Lemma orderedSpans_sublist_of l1 l2 :
  l1 `sublist_of` l2 -> orderedSpans l2 -> orderedSpans l1.
Proof.
  induction 1 as [| x l1 l2 Hsub IH | x l1 l2 Hsub IH].
  - done.
  - rewrite !orderedSpans_cons. intros (Hx & Hall & Hrest).
    split; [assumption |]. split; [| by apply IH].
    by apply (Forall_sublist_of _ l1 l2).
  - rewrite orderedSpans_cons. intros (_ & _ & Hrest). by apply IH.
Qed.

Lemma sortedWindows_orderedSpans ls :
  sortedWindows ls = true -> orderedSpans (map lineSpan ls).
Proof.
  induction ls as [| l ls IH]; [intros _; split; constructor |].
  cbn [sortedWindows map]. intros H.
  apply andb_prop in H as [H Hrest]. apply andb_prop in H as [Hok Hadj].
  apply Qleb_true in Hok. specialize (IH Hrest).
  apply orderedSpans_cons. split; [exact Hok |]. split; [| exact IH].
  destruct ls as [| l' ls]; [constructor |].
  apply Qleb_true in Hadj. cbn [map] in *.
  apply orderedSpans_cons in IH as (Hok' & Hall & _).
  constructor; [exact Hadj |].
  eapply Forall_impl; [exact Hall |].
  unfold spanBefore, spanOk in *. simpl in *. intros s Hs. lra.
Qed.

Lemma filter_spans_sublist_of (f : TimedLyric -> bool) ls :
  map lineSpan (List.filter f ls) `sublist_of` map lineSpan ls.
Proof.
  induction ls as [| l ls IH]; [constructor |].
  simpl. destruct (f l); simpl; [by apply sublist_skip | by apply sublist_cons].
Qed.

Lemma stanzasByTwo_starts (P : Q -> Prop) ls :
  Forall (fun s => P (fst s)) (map lineSpan ls) ->
  Forall (fun s => P (fst s)) (map stanzaSpan (stanzasByTwo ls)).
Proof.
  induction ls as [| a | a b ls IH] using list_pair_ind; intros H.
  - constructor.
  - exact H.
  - cbn [stanzasByTwo map] in *.
    inversion H as [| ? ? Ha H']; subst. inversion H' as [| ? ? Hb H'']; subst.
    constructor; [exact Ha | by apply IH].
Qed.

Lemma stanzasByTwo_orderedSpans ls :
  orderedSpans (map lineSpan ls) ->
  orderedSpans (map stanzaSpan (stanzasByTwo ls)).
Proof.
  induction ls as [| a | a b ls IH] using list_pair_ind; intros H.
  - exact H.
  - exact H.
  - cbn [stanzasByTwo map] in *.
    apply orderedSpans_cons in H as (Hoka & Halla & H).
    apply orderedSpans_cons in H as (Hokb & Hallb & H).
    inversion Halla as [| ? ? Hab _]; subst.
    apply orderedSpans_cons.
    unfold spanOk, spanBefore, stanzaSpan, lineSpan in *. simpl in *.
    split; [lra |]. split; [| by apply IH].
    apply (stanzasByTwo_starts (fun q => (endTime b <= q)%Q)). exact Hallb.
Qed.

(** X15. When the windows of the submitted lines are in time order and do
    not overlap, so are the windows of the images of a generation that
    resolves: every image starts no later than it ends, and ends no later
    than every later image starts. *)
Theorem generateVisuals_windows_ordered
  (allLyrics : list TimedLyric) (songTitle : jsstring)
  (promptResponse : PromptResponse)
  (generateImages : jsstring -> ImageResponse) (imgs : list AiImage.t) :
  sortedWindows allLyrics = true ->
  generateVisualsForLyrics allLyrics songTitle promptResponse generateImages
  = Resolved imgs ->
  orderedSpans (map imageSpan imgs).
Proof.
  intros Hsorted H.
  apply generateVisuals_Resolved in H as (_ & Hsub).
  apply (orderedSpans_sublist_of _ _ Hsub).
  apply stanzasByTwo_orderedSpans.
  apply (orderedSpans_sublist_of _ _ (filter_spans_sublist_of _ allLyrics)).
  by apply sortedWindows_orderedSpans.
Qed.

Lemma generateVisuals_windows_ordered_witness :
  sortedWindows [lineA01; lineEnd; lineB] = true
  /\ exists imgs,
       generateVisualsForLyrics [lineA01; lineEnd; lineB] (lit "Song")
         (PromptsParsed []) alwaysImage = Resolved imgs
       /\ orderedSpans (map imageSpan imgs).
Proof.
  assert (Hsorted : sortedWindows [lineA01; lineEnd; lineB] = true)
    by reflexivity.
  split; [exact Hsorted |].
  destruct (generateVisualsForLyrics [lineA01; lineEnd; lineB] (lit "Song")
              (PromptsParsed []) alwaysImage) as [imgs | e] eqn:H;
    [| vm_compute in H; discriminate].
  exists imgs. split; [reflexivity |].
  exact (generateVisuals_windows_ordered _ _ _ _ _ Hsorted H).
Defined.

(** *** The background during a stanza *)

Lemma inImageWindow_span t img :
  inImageWindow t img = true
  <-> (fst (imageSpan img) <= t)%Q /\ (t < snd (imageSpan img))%Q.
Proof.
  unfold inImageWindow. rewrite andb_true_iff, Qleb_true, Qltb_true.
  reflexivity.
Qed.

(** Among images whose windows are in time order the window that contains
    [t] is found first. *)
Lemma orderedSpans_find imgs t img :
  orderedSpans (map imageSpan imgs) ->
  In img imgs -> inImageWindow t img = true ->
  List.find (inImageWindow t) imgs = Some img.
Proof.
  induction imgs as [| x imgs IH]; [intros _ [] |].
  cbn [map]. intros Hord Hin Hwin.
  apply orderedSpans_cons in Hord as (Hok & Hall & Hord).
  cbn [List.find]. destruct (inImageWindow t x) eqn:Hx.
  - destruct Hin as [-> | Hin]; [reflexivity |].
    exfalso. rewrite List.Forall_map in Hall.
    rewrite List.Forall_forall in Hall. specialize (Hall img Hin).
    apply inImageWindow_span in Hx, Hwin. unfold spanBefore in Hall. lra.
  - destruct Hin as [-> | Hin]; [congruence | by apply IH].
Qed.

Lemma selectors_of_found aiImages imageUrl t img :
  List.find (inImageWindow t) aiImages = Some img ->
  truthy (AiImage.url img) = true ->
  currentBg aiImages imageUrl t = AiImage.url img
  /\ currentExportBgUrl aiImages imageUrl t = AiImage.url img.
Proof.
  intros Hfind Htruthy.
  unfold currentBg, currentExportBgUrl, find_.
  rewrite at_findIndex, Hfind, Htruthy.
  destruct aiImages; [discriminate | split; reflexivity].
Qed.

(** X16. When the windows of the submitted lines are in time order and do
    not overlap, every generated image is on screen during the whole of its
    own window: at a time inside the window of an image of the result, the
    playback background and the background of the exported frame are both
    the [url] of that image, whichever fallback image is set. *)
Theorem generated_image_shown_in_its_window
  (allLyrics : list TimedLyric) (songTitle : jsstring)
  (promptResponse : PromptResponse)
  (generateImages : jsstring -> ImageResponse) (imgs : list AiImage.t)
  (imageUrl : jsstring) (t : Q) (img : AiImage.t) :
  sortedWindows allLyrics = true ->
  generateVisualsForLyrics allLyrics songTitle promptResponse generateImages
  = Resolved imgs ->
  In img imgs ->
  (AiImage.startTime img <= t)%Q -> (t < AiImage.endTime img)%Q ->
  currentBg imgs imageUrl t = AiImage.url img
  /\ currentExportBgUrl imgs imageUrl t = AiImage.url img.
Proof.
  intros Hsorted H Hin Hstart Hend.
  assert (Hord : orderedSpans (map imageSpan imgs)).
  { apply generateVisuals_Resolved in H as (_ & Hsub).
    apply (orderedSpans_sublist_of _ _ Hsub).
    apply stanzasByTwo_orderedSpans.
    apply (orderedSpans_sublist_of _ _ (filter_spans_sublist_of _ allLyrics)).
    by apply sortedWindows_orderedSpans. }
  assert (Hurl : truthy (AiImage.url img) = true).
  { apply generateVisuals_Resolved in H as (Hurls & _).
    rewrite List.Forall_forall in Hurls. by apply Hurls. }
  apply selectors_of_found; [| exact Hurl].
  apply orderedSpans_find; [exact Hord | exact Hin |].
  apply inImageWindow_span. split; assumption.
Qed.

Lemma generated_image_shown_in_its_window_witness :
  currentBg [imageOfAB] (lit "cover.png") 1 = AiImage.url imageOfAB
  /\ currentExportBgUrl [imageOfAB] (lit "cover.png") 1
     = AiImage.url imageOfAB.
Proof.
  apply (generated_image_shown_in_its_window [lineA01; lineB] (lit "Song")
           (PromptsParsed []) alwaysImage [imageOfAB] (lit "cover.png") 1
           imageOfAB).
  - reflexivity.
  - vm_compute. reflexivity.
  - left. reflexivity.
  - unfold Qle. simpl. lia.
  - unfold Qlt. simpl. lia.
Defined.

(** Every line lies inside the window of its stanza, the stanza at half its
    index. *)
Lemma stanza_of_line ls i l :
  orderedSpans (map lineSpan ls) -> ls !! i = Some l ->
  exists st,
    stanzasByTwo ls !! Nat.div2 i = Some st
    /\ (Stanza.startTime st <= startTime l)%Q
    /\ (endTime l <= Stanza.endTime st)%Q.
Proof.
  revert i. induction ls as [| a | a b ls IH] using list_pair_ind;
    intros i Hord Hi.
  - discriminate.
  - destruct i as [| i]; [| destruct i; discriminate].
    inversion Hi; subst. eexists. split; [reflexivity |]. simpl. lra.
  - cbn [map] in Hord.
    apply orderedSpans_cons in Hord as (Hoka & Halla & Hord).
    apply orderedSpans_cons in Hord as (Hokb & Hallb & Hord).
    inversion Halla as [| ? ? Hab _]; subst.
    unfold spanOk, spanBefore, lineSpan in Hoka, Hokb, Hab. simpl in *.
    destruct i as [| [| i]].
    + inversion Hi; subst. eexists. split; [reflexivity |]. simpl. lra.
    + inversion Hi; subst. eexists. split; [reflexivity |]. simpl. lra.
    + destruct (IH i Hord Hi) as (st & Hst & Hbounds).
      exists st. split; [exact Hst | exact Hbounds].
Qed.

(** X17. When the windows of the submitted lines are in time order and do
    not overlap and every image call returns an image, the background
    follows the lyrics: at a time inside the window of the [i]-th processed
    line, the playback background and the background of the exported frame
    are both the image of the stanza of that line, the image at index
    [i div 2]. *)
Theorem background_follows_the_line
  (allLyrics : list TimedLyric) (songTitle : jsstring)
  (generatedPrompts : list GeneratedPrompt.t)
  (generateImages : jsstring -> ImageResponse) (imgs : list AiImage.t)
  (imageUrl : jsstring) (t : Q) (i : nat) (l : TimedLyric) :
  sortedWindows allLyrics = true ->
  (forall prompt, exists bytes, generateImages prompt = ImageBytes bytes) ->
  generateVisualsForLyrics allLyrics songTitle
    (PromptsParsed generatedPrompts) generateImages = Resolved imgs ->
  lyricsToProcess allLyrics !! i = Some l ->
  inWindow t l = true ->
  exists img,
    imgs !! Nat.div2 i = Some img
    /\ currentBg imgs imageUrl t = AiImage.url img
    /\ currentExportBgUrl imgs imageUrl t = AiImage.url img.
Proof.
  intros Hsorted Hok H Hi Hwin.
  assert (Hlines : orderedSpans (map lineSpan (lyricsToProcess allLyrics))).
  { apply (orderedSpans_sublist_of _ _ (filter_spans_sublist_of _ allLyrics)).
    by apply sortedWindows_orderedSpans. }
  apply generateVisuals_Parsed in H as [[Hnone ->] | H];
    [rewrite Hnone in Hi; discriminate |].
  apply imageLoop_Resolved in H as (new & -> & Hurls & _ & Hall).
  simpl app.
  assert (Hspans := Hall (fun task _ => Hok _)).
  rewrite tasksOfStanzas_spans in Hspans.
  destruct (stanza_of_line _ _ _ Hlines Hi) as (st & Hst & Hs & He).
  assert (Himg : map imageSpan new !! Nat.div2 i = Some (stanzaSpan st))
    by (by rewrite Hspans, list_lookup_fmap, Hst).
  rewrite list_lookup_fmap in Himg.
  destruct (new !! Nat.div2 i) as [img |] eqn:Hlookup; [| discriminate].
  assert (Hspan : imageSpan img = stanzaSpan st)
    by (simpl in Himg; congruence).
  assert (Hin : In img new)
    by (by apply list_elem_of_In, (list_elem_of_lookup_2 _ (Nat.div2 i))).
  exists img. split; [reflexivity |].
  apply selectors_of_found.
  - apply orderedSpans_find; [| exact Hin |].
    + rewrite Hspans. by apply stanzasByTwo_orderedSpans.
    + apply inImageWindow_span. rewrite Hspan. simpl.
      unfold inWindow in Hwin. apply andb_prop in Hwin as [Hw1 Hw2].
      apply Qleb_true in Hw1. apply Qltb_true in Hw2. lra.
  - rewrite List.Forall_forall in Hurls. by apply Hurls.
Qed.

Lemma background_follows_the_line_witness :
  exists img,
    [imageOfAB] !! Nat.div2 1 = Some img
    /\ currentBg [imageOfAB] (lit "cover.png") (5 # 2) = AiImage.url img
    /\ currentExportBgUrl [imageOfAB] (lit "cover.png") (5 # 2)
       = AiImage.url img.
Proof.
  apply (background_follows_the_line [lineA01; lineEnd; lineB] (lit "Song")
           [] alwaysImage [imageOfAB] (lit "cover.png") (5 # 2) 1 lineB).
  - reflexivity.
  - intros prompt. by exists (lit "QUJD").
  - vm_compute. reflexivity.
  - reflexivity.
  - reflexivity.
Defined.

(** ** The events of an export *)

Section ExportEvents.
Import ExportJob ExportScript.

Lemma Scripted_bind {A B} l1 l2 script (m : M A) (k : A -> M B) :
  Scripted l1 m -> (forall a, Scripted l2 (k a)) -> script = l1 ++ l2 ->
  Scripted script (bind m k).
Proof.
  intros Hm Hk -> s s' c H. unfold bind in H.
  destruct (m s) as [s1 c1] eqn:Hms.
  destruct (Hm _ _ _ Hms) as (new1 & E1 & P1 & N1).
  destruct c1 as [a | e |].
  - rewrite (N1 a eq_refl) in E1.
    destruct (Hk a _ _ _ H) as (new2 & E2 & P2 & N2).
    exists (l1 ++ new2). rewrite E2, E1, app_assoc. split; [done |].
    split; [by apply prefix_app |].
    intros b ->. by rewrite (N2 b eq_refl).
  - inversion H; subst. exists new1. split; [done |].
    split; [by apply prefix_app_r | discriminate].
  - inversion H; subst. exists new1. split; [done |].
    split; [by apply prefix_app_r | discriminate].
Qed.

(** A computation that leaves the log as it is. *)
Lemma Scripted_silent {A} (m : M A) :
  (forall s s' c, m s = (s', c) -> events s' = events s) -> Scripted [] m.
Proof.
  intros Hm s s' c H. exists []. rewrite app_nil_r.
  split; [by apply (Hm _ _ c) | by split].
Qed.

Lemma Scripted_ret {A} (a : A) : Scripted [] (ret a).
Proof. apply Scripted_silent. intros s s' c H. by inversion H. Qed.

Lemma Scripted_throw {A} e : Scripted [] (@throw A e).
Proof. apply Scripted_silent. intros s s' c H. by inversion H. Qed.

Lemma Scripted_emit e : Scripted [e] (emit e).
Proof. intros s s' c H. inversion H; subst. by exists [e]. Qed.

Lemma Scripted_setExportProgress n :
  Scripted [Progress n] (setExportProgress n).
Proof. intros s s' c H. inversion H; subst. by exists [Progress n]. Qed.

Lemma Scripted_ensureLoaded w : Scripted [] (ensureLoaded w).
Proof.
  apply Scripted_silent. intros s s' c H.
  by apply ensureLoaded_spec in H as [_ H].
Qed.

Lemma Scripted_fetchFile ok : Scripted [] (fetchFile ok).
Proof.
  apply Scripted_silent. intros s s' c H.
  by apply fetchFile_spec in H as [-> _].
Qed.

Lemma Scripted_writeFile name data : Scripted [] (writeFile name data).
Proof.
  apply Scripted_silent. intros s s' c H.
  by apply writeFile_spec in H as (_ & _ & H).
Qed.

Lemma Scripted_preloadImages w urls : Scripted [] (preloadImages w urls).
Proof.
  apply Scripted_silent. intros s s' c H.
  by apply preloadImages_spec in H as ->.
Qed.

Lemma Scripted_readFile name : Scripted [] (readFile name).
Proof.
  apply Scripted_silent. intros s s' c. unfold readFile, bind, gets.
  destruct (FS s !! name); intros H; by inversion H.
Qed.

Lemma Scripted_unlink name : Scripted [] (unlink name).
Proof.
  apply Scripted_silent. intros s s' c. unfold unlink, bind, gets.
  destruct (FS s !! name); intros H; by inversion H.
Qed.

Lemma Scripted_unlinkLoop fuel total i : Scripted [] (unlinkLoop fuel total i).
Proof.
  revert i. induction fuel as [| fuel IH]; intros i; simpl.
  - destruct (i <? total); [| apply Scripted_ret].
    apply Scripted_silent. intros s s' c H. by inversion H.
  - destruct (i <? total); [| apply Scripted_ret].
    eapply Scripted_bind; [apply Scripted_unlink | intros _; apply IH | done].
Qed.

Lemma Scripted_captureFrame w p total i :
  Scripted (frameEvents p total i) (captureFrame w p total i).
Proof.
  unfold captureFrame.
  eapply Scripted_bind;
    [apply Scripted_setExportProgress | intros _ | reflexivity].
  eapply Scripted_bind; [apply Scripted_emit | intros _ | reflexivity].
  eapply Scripted_bind; [apply Scripted_fetchFile | intros _ | reflexivity].
  apply Scripted_writeFile.
Qed.

Lemma Scripted_frameLoop fuel w p total i :
  Scripted (flat_map (frameEvents p total) (seqZ i (total - i)))
           (frameLoop fuel w p total i).
Proof.
  revert i. induction fuel as [| fuel IH]; intros i; simpl frameLoop;
    destruct (Z.ltb_spec i total) as [Hlt | Hge].
  - intros s s' c H. inversion H; subst. exists []. rewrite app_nil_r.
    split; [done |]. split; [apply prefix_nil | discriminate].
  - rewrite seqZ_nil by lia. apply Scripted_ret.
  - rewrite seqZ_cons by lia. cbn [flat_map].
    eapply Scripted_bind; [apply Scripted_captureFrame | intros _ | ].
    + apply IH.
    + do 3 f_equal; lia.
  - rewrite seqZ_nil by lia. apply Scripted_ret.
Qed.

Lemma Scripted_run w : Scripted [Encoded frameRate] (run w).
Proof.
  unfold run.
  eapply Scripted_bind; [apply Scripted_emit | intros _ | reflexivity].
  destruct (encodeSucceeds w); [apply Scripted_writeFile | apply Scripted_throw].
Qed.

Lemma Scripted_exportBody w p : Scripted (fullScript p) (exportBody w p).
Proof.
  unfold exportBody, fullScript.
  eapply Scripted_bind; [apply Scripted_ensureLoaded | intros _ | reflexivity].
  eapply Scripted_bind;
    [apply Scripted_setExportProgress | intros _ | reflexivity].
  eapply Scripted_bind; [apply Scripted_fetchFile | intros _ | reflexivity].
  eapply Scripted_bind; [apply Scripted_writeFile | intros _ | reflexivity].
  eapply Scripted_bind;
    [destruct (contextAvailable w); [apply Scripted_ret | apply Scripted_throw]
    | intros _ | reflexivity].
  eapply Scripted_bind; [apply Scripted_preloadImages | intros _ | reflexivity].
  eapply Scripted_bind; [apply Scripted_frameLoop | intros _ | ].
  2: { rewrite Z.sub_0_r. reflexivity. }
  eapply Scripted_bind;
    [apply Scripted_setExportProgress | intros _ | reflexivity].
  eapply Scripted_bind; [apply Scripted_run | intros _ | reflexivity].
  eapply Scripted_bind;
    [apply Scripted_setExportProgress | intros _ | reflexivity].
  eapply Scripted_bind; [apply Scripted_readFile | intros _ | reflexivity].
  eapply Scripted_bind; [apply Scripted_emit | intros _ | reflexivity].
  eapply Scripted_bind; [apply Scripted_unlinkLoop | intros _ | reflexivity].
  eapply Scripted_bind; [apply Scripted_unlink | intros _ | reflexivity].
  apply Scripted_unlink.
Qed.

(** The run of [handleExport] in terms of the run of its [try] block. *)
Lemma handleExport_run w p s :
  let s0 := mkState (isLoaded s) (FS s) true (Some 0)
                    (events s ++ [Progress 0]) in
  exists s1 c,
    exportBody w p s0 = (s1, c)
    /\ ((c = Normal tt
         /\ handleExport w p s
            = (mkState (isLoaded s1) (FS s1) false None (events s1),
               Normal tt))
        \/ (exists e, c = Threw e)
           /\ handleExport w p s
              = (mkState (isLoaded s1) (FS s1) false None
                         (events s1 ++ [Alert]),
                 Normal tt)).
Proof.
  intros s0. destruct (exportBody w p s0) as [s1 c] eqn:Hbody.
  exists s1, c. split; [reflexivity |].
  assert (Hrun : handleExport w p s
                 = tryCatchFinally (exportBody w p) (emit Alert)
                     (bind (setIsExporting false)
                           (fun _ => clearExportProgress)) s0)
    by reflexivity.
  rewrite Hrun. unfold tryCatchFinally. rewrite Hbody.
  destruct c as [[] | e |].
  - left. split; reflexivity.
  - right. split; [by exists e | reflexivity].
  - by apply exportBody_fuel_suffices in Hbody.
Qed.

Lemma handleExport_log w p s :
  let s' := fst (handleExport w p s) in
  events s' = events s ++ Progress 0 :: fullScript p
  \/ exists new,
       new `prefix_of` fullScript p
       /\ events s' = events s ++ Progress 0 :: new ++ [Alert].
Proof.
  intros s'. subst s'.
  destruct (handleExport_run w p s) as (s1 & c & Hbody & H).
  destruct (Scripted_exportBody w p _ _ _ Hbody) as (new & E & P & N).
  simpl in E. destruct H as [[-> ->] | [_ ->]]; simpl.
  - left. rewrite E, (N tt eq_refl), <- app_assoc. reflexivity.
  - right. exists new. split; [exact P |].
    rewrite E, <- !app_assoc. reflexivity.
Qed.

Lemma newEvents_app s s' new :
  events s' = events s ++ new -> newEvents s s' = new.
Proof. intros H. unfold newEvents. by rewrite H, drop_app_length. Qed.

(** X18. The events of an export are fixed in kind and order.  A run of
    [handleExport] keeps the log it finds and adds to it the report of
    progress 0 and then either the whole script of the [try] block
    (progress 5; for each frame in order its progress and its drawing;
    progress 90; the encoding at 30 frames a second; progress 99; the
    download named by title and artist), or an initial part of that script
    followed by one alert. *)
Theorem handleExport_events (w : World) (p : Props) (s : State) :
  let s' := fst (handleExport w p s) in
  let new := newEvents s s' in
  events s' = events s ++ new
  /\ (new = Progress 0 :: fullScript p
      \/ exists part,
           part `prefix_of` fullScript p
           /\ new = Progress 0 :: part ++ [Alert]).
Proof.
  intros s' new. subst s' new.
  destruct (handleExport_log w p s) as [H | (part & Hpart & H)];
    rewrite (newEvents_app _ _ _ H); (split; [exact H |]).
  - by left.
  - right. by exists part.
Qed.

(** *** The progress reported *)

Lemma frameProgress_bounds total i :
  0 <= i < total -> 10 <= frameProgress total i <= 90.
Proof.
  intros Hi. unfold frameProgress, Double.mul, Double.div.
  set (y := (inject_Z i / inject_Z total)%Q).
  assert (Htotal : (0 < inject_Z total)%Q)
    by (rewrite <- (Zlt_Qlt 0); lia).
  assert (Hy0 : (0 <= y)%Q).
  { apply Qle_shift_div_l; [exact Htotal |].
    rewrite Qmult_0_l. rewrite <- (Zle_Qle 0). lia. }
  assert (Hy1 : (y <= 1)%Q).
  { apply Qle_shift_div_r; [exact Htotal |].
    rewrite Qmult_1_l. rewrite <- Zle_Qle. lia. }
  destruct (round_between 0 1 y Hy0 Hy1) as [Hr0 Hr1].
  change (Double.round 0) with 0%Q in Hr0.
  change (Double.round 1) with 1%Q in Hr1.
  set (r := Double.round y) in *.
  destruct (round_between 0 80 (r * 80)) as [Hp0 Hp1]; [lra.. |].
  change (Double.round 0) with 0%Q in Hp0.
  change (Double.round 80) with 80%Q in Hp1.
  apply Qfloor_resp_le in Hp0, Hp1.
  change (Qfloor 0) with 0 in Hp0. change (Qfloor 80) with 80 in Hp1. lia.
Qed.

Lemma frameProgress_mono total i j :
  0 <= i -> i <= j -> j < total ->
  frameProgress total i <= frameProgress total j.
Proof.
  intros Hi Hij Hj. unfold frameProgress, Double.mul, Double.div.
  assert (Htotal : (0 < inject_Z total)%Q)
    by (rewrite <- (Zlt_Qlt 0); lia).
  assert (Hinv : (0 <= / inject_Z total)%Q)
    by (apply Qlt_le_weak, Qinv_lt_0_compat, Htotal).
  assert (Hle : (inject_Z i / inject_Z total
                 <= inject_Z j / inject_Z total)%Q).
  { unfold Qdiv. apply Qmult_le_compat_r; [| exact Hinv].
    by rewrite <- Zle_Qle. }
  apply round_mono in Hle.
  assert (H : Qfloor (Double.round
                        (Double.round (inject_Z i / inject_Z total) * 80))
              <= Qfloor (Double.round
                           (Double.round (inject_Z j / inject_Z total) * 80))).
  { apply Qfloor_resp_le, round_mono. lra. }
  lia.
Qed.

Lemma StronglySorted_map_seqZ (f : Z -> Z) lo len :
  (forall i j, lo <= i -> i <= j -> j < lo + len -> f i <= f j) ->
  StronglySorted Z.le (map f (seqZ lo len)).
Proof.
  remember (Z.to_nat len) as n eqn:Hn. revert lo len Hn.
  induction n as [| n IH]; intros lo len Hn Hf.
  - rewrite seqZ_nil by lia. constructor.
  - rewrite seqZ_cons by lia. cbn [map]. constructor.
    + apply IH; [lia |]. intros i j H1 H2 H3. apply Hf; lia.
    + apply List.Forall_map, Forall_forall. intros j Hj.
      apply elem_of_seqZ in Hj. apply Hf; lia.
Qed.

Lemma progressValues_app l1 l2 :
  progressValues (l1 ++ l2) = progressValues l1 ++ progressValues l2.
Proof. apply omap_app. Qed.

Lemma progressValues_frames p total l :
  progressValues (flat_map (frameEvents p total) l)
  = map (frameProgress total) l.
Proof.
  induction l as [| i l IH]; [reflexivity |].
  cbn [flat_map map]. rewrite progressValues_app, IH. reflexivity.
Qed.

Lemma progressValues_fullScript p :
  progressValues (fullScript p)
  = 5 :: map (frameProgress (totalFrames (duration p)))
           (seqZ 0 (totalFrames (duration p)))
      ++ [90; 99].
Proof.
  unfold fullScript. cbv zeta.
  rewrite !progressValues_app, progressValues_frames. reflexivity.
Qed.

(** The percentages of a complete run, from the report before the [try]
    block on. *)
Lemma full_progress_sorted total :
  StronglySorted Z.le
    (0 :: 5 :: map (frameProgress total) (seqZ 0 total) ++ [90; 99])
  /\ Forall (fun n => 0 <= n <= 99)
       (0 :: 5 :: map (frameProgress total) (seqZ 0 total) ++ [90; 99]).
Proof.
  assert (Hframes : Forall (fun n => 10 <= n <= 90)
                      (map (frameProgress total) (seqZ 0 total))).
  { apply List.Forall_map, Forall_forall. intros i Hi.
    apply elem_of_seqZ in Hi. apply frameProgress_bounds. lia. }
  split.
  - apply StronglySorted_cons. split.
    { constructor; [lia |]. apply Forall_app. split.
      - eapply Forall_impl; [exact Hframes | simpl; intros; lia].
      - repeat constructor; lia. }
    apply StronglySorted_cons. split.
    { apply Forall_app. split.
      - eapply Forall_impl; [exact Hframes | simpl; intros; lia].
      - repeat constructor; lia. }
    apply StronglySorted_app. split; [| split].
    + intros x1 x2 Hx1 Hx2. rewrite Forall_forall in Hframes.
      specialize (Hframes x1 Hx1). simpl in Hframes.
      apply list_elem_of_In in Hx2. destruct Hx2 as [<- | [<- | []]]; lia.
    + apply StronglySorted_map_seqZ. intros i j H1 H2 H3.
      apply frameProgress_mono; lia.
    + repeat constructor; lia.
  - constructor; [lia |]. constructor; [lia |]. apply Forall_app. split.
    + eapply Forall_impl; [exact Hframes | simpl; intros; lia].
    + repeat constructor; lia.
Qed.

(** X19. The progress shown during an export never moves backwards: the
    percentages a run of [handleExport] reports start with 0, never
    decrease, and stay between 0 and 99, for every duration and whichever
    step fails. *)
Theorem export_progress_never_decreases
  (w : World) (p : Props) (s : State) :
  let reported :=
    progressValues (newEvents s (fst (handleExport w p s))) in
  head reported = Some 0
  /\ StronglySorted Z.le reported
  /\ Forall (fun n => 0 <= n <= 99) reported.
Proof.
  intros reported.
  destruct (full_progress_sorted (totalFrames (duration p)))
    as [Hsorted Hbounds].
  assert (Hfull : progressValues (Progress 0 :: fullScript p)
                  = 0 :: 5 :: map (frameProgress (totalFrames (duration p)))
                                (seqZ 0 (totalFrames (duration p)))
                         ++ [90; 99]).
  { change (Progress 0 :: fullScript p) with ([Progress 0] ++ fullScript p).
    by rewrite progressValues_app, progressValues_fullScript. }
  rewrite <- Hfull in Hsorted, Hbounds. clear Hfull.
  assert (Hprefix : exists new rest,
            reported = progressValues (Progress 0 :: new)
            /\ fullScript p = new ++ rest).
  { subst reported. destruct (handleExport_log w p s) as [H | H].
    - exists (fullScript p), []. rewrite app_nil_r.
      split; [| reflexivity]. by rewrite (newEvents_app _ _ _ H).
    - destruct H as (new & [rest Hrest] & H). exists new, rest.
      split; [| exact Hrest]. rewrite (newEvents_app _ _ _ H).
      rewrite app_comm_cons, progressValues_app. apply app_nil_r. }
  destruct Hprefix as (new & rest & -> & Hrest).
  split; [reflexivity |].
  rewrite Hrest in Hsorted, Hbounds.
  rewrite app_comm_cons, progressValues_app in Hsorted, Hbounds.
  split.
  - by apply StronglySorted_app_1_l in Hsorted.
  - by apply Forall_app in Hbounds as [Hbounds _].
Qed.

(** *** The frames drawn *)

Lemma selectors_agree aiImages imageUrl t :
  forallb (fun img => truthy (AiImage.url img)) aiImages = true ->
  currentBg aiImages imageUrl t = currentExportBgUrl aiImages imageUrl t.
Proof.
  intros Hurls. destruct (List.find (inImageWindow t) aiImages) as [img |]
    eqn:Hfind.
  - assert (Htruthy : truthy (AiImage.url img) = true).
    { apply (truthy_url_of_forallb aiImages); [assumption |].
      by apply find_some in Hfind as [Hin _]. }
    destruct (selectors_of_found aiImages imageUrl t img Hfind Htruthy)
      as [-> ->]. reflexivity.
  - unfold currentBg, currentExportBgUrl, find_.
    rewrite at_findIndex, Hfind.
    destruct aiImages as [| img0 imgs]; [reflexivity |].
    simpl in Hurls. apply andb_prop in Hurls as [Hurl _].
    simpl. unfold at_. simpl. by rewrite Hurl.
Qed.

Lemma newEvents_in_script w p s e :
  In e (newEvents s (fst (handleExport w p s))) ->
  e = Progress 0 \/ e = Alert \/ In e (fullScript p).
Proof.
  destruct (handleExport_log w p s) as [H | (new & [rest Hrest] & H)];
    rewrite (newEvents_app _ _ _ H).
  - intros [<- | Hin]; auto.
  - intros [<- | Hin]; [auto |].
    apply in_app_or in Hin as [Hin | [<- | []]]; [| auto].
    right. right. rewrite Hrest. apply in_or_app. by left.
Qed.

(** X20. What is exported is what is previewed.  Every frame a run of
    [handleExport] draws has an index [i] below the number of frames and is
    drawn for the time [i / 30], the quotient of JavaScript numbers; it
    shows the lyric window that playback shows at that time, and, when no
    generated image has an empty [url], the background that playback shows
    at that time. *)
Theorem exported_frame_is_the_preview
  (w : World) (p : Props) (s : State)
  (i : Z) (frameTime : Q) (bgUrl : jsstring) (window : LyricWindow)
  (karaoke : option JsNum) :
  In (Drawn i frameTime bgUrl window karaoke)
     (newEvents s (fst (handleExport w p s))) ->
  0 <= i < totalFrames (duration p)
  /\ frameTime = Double.div (inject_Z i) 30
  /\ window = lyricLines (timedLyrics p) frameTime
  /\ (forallb (fun img => truthy (AiImage.url img)) (aiImages p) = true ->
      bgUrl = currentBg (aiImages p) (imageUrl p) frameTime).
Proof.
  intros Hin. apply newEvents_in_script in Hin as [H | [H | Hin]];
    [discriminate.. |].
  unfold fullScript in Hin. cbv zeta in Hin.
  apply in_app_or in Hin as [[H | []] | Hin]; [discriminate |].
  apply in_app_or in Hin as [Hin | Hin].
  - apply in_flat_map in Hin as (j & Hj & Hin).
    apply list_elem_of_In, elem_of_seqZ in Hj.
    destruct Hin as [H | [H | []]]; [discriminate |].
    inversion H; subst. split; [lia |]. split; [reflexivity |].
    split; [reflexivity |].
    intros Hurls. symmetry. by apply selectors_agree.
  - destruct Hin as [H | [H | [H | [H | []]]]]; discriminate.
Qed.

Lemma exported_frame_is_the_preview_witness :
  0 <= 1 < totalFrames (duration (someProps (1 # 10)))
  /\ frameTimeOf 1 = Double.div (inject_Z 1) 30
  /\ currentLyricLines [hello] (frameTimeOf 1)
     = lyricLines (timedLyrics (someProps (1 # 10))) (frameTimeOf 1)
  /\ (forallb (fun img => truthy (AiImage.url img))
        (aiImages (someProps (1 # 10))) = true ->
      currentExportBgUrl [] (lit "cover.jpg") (frameTimeOf 1)
      = currentBg (aiImages (someProps (1 # 10)))
          (imageUrl (someProps (1 # 10))) (frameTimeOf 1)).
Proof.
  apply (exported_frame_is_the_preview allSucceeds (someProps (1 # 10))
           freshState 1 (frameTimeOf 1)
           (currentExportBgUrl [] (lit "cover.jpg") (frameTimeOf 1))
           (currentLyricLines [hello] (frameTimeOf 1))
           (frameKaraokeProgress [hello] (frameTimeOf 1))).
  assert (Hrun : newEvents freshState
                   (fst (handleExport allSucceeds (someProps (1 # 10))
                           freshState))
                 = Progress 0 :: fullScript (someProps (1 # 10)))
    by (vm_compute; reflexivity).
  rewrite Hrun. right. right. right. right. right. left. reflexivity.
Defined.

(** *** What a run leaves alone *)

Lemma RestKept_refl names s : RestKept names s s.
Proof. by split. Qed.

Lemma RestKept_trans names s1 s2 s3 :
  RestKept names s1 s2 -> RestKept names s2 s3 -> RestKept names s1 s3.
Proof.
  intros [F1 L1] [F2 L2]. split; [| auto].
  intros name Hname. by rewrite F2, F1.
Qed.

Lemma Keeps_bind {A B} names (m : M A) (k : A -> M B) :
  Keeps names m -> (forall a, Keeps names (k a)) -> Keeps names (bind m k).
Proof.
  intros Hm Hk s s' c H. unfold bind in H.
  destruct (m s) as [s1 c1] eqn:Hms. specialize (Hm _ _ _ Hms).
  destruct c1 as [a | e |].
  - eapply RestKept_trans; [exact Hm | by eapply Hk].
  - by inversion H; subst.
  - by inversion H; subst.
Qed.

Lemma Keeps_same {A} names (m : M A) :
  (forall s s' c, m s = (s', c) -> FS s' = FS s /\ isLoaded s' = isLoaded s) ->
  Keeps names m.
Proof.
  intros Hm s s' c H. destruct (Hm _ _ _ H) as [HF HL].
  split; [intros; by rewrite HF | by rewrite HL].
Qed.

Lemma Keeps_ret {A} names (a : A) : Keeps names (ret a).
Proof. apply Keeps_same. intros s s' c H. by inversion H. Qed.

Lemma Keeps_throw {A} names e : Keeps names (@throw A e).
Proof. apply Keeps_same. intros s s' c H. by inversion H. Qed.

Lemma Keeps_emit names e : Keeps names (emit e).
Proof. apply Keeps_same. intros s s' c H. by inversion H. Qed.

Lemma Keeps_setExportProgress names n : Keeps names (setExportProgress n).
Proof. apply Keeps_same. intros s s' c H. by inversion H. Qed.

Lemma Keeps_fetchFile names ok : Keeps names (fetchFile ok).
Proof.
  apply Keeps_same. intros s s' c H. by apply fetchFile_spec in H as [-> _].
Qed.

Lemma Keeps_preloadImages names w urls : Keeps names (preloadImages w urls).
Proof.
  apply Keeps_same. intros s s' c H. by apply preloadImages_spec in H as ->.
Qed.

Lemma Keeps_readFile names name : Keeps names (readFile name).
Proof.
  apply Keeps_same. intros s s' c. unfold readFile, bind, gets.
  destruct (FS s !! name); intros H; by inversion H.
Qed.

Lemma Keeps_ensureLoaded names w : Keeps names (ensureLoaded w).
Proof.
  intros s s' c. unfold ensureLoaded, bind, gets.
  destruct (negb (isLoaded s)); [destruct (loadSucceeds w) |]; intros H;
    inversion H; subst; by split.
Qed.

Lemma Keeps_writeFile names name data :
  In name names -> Keeps names (writeFile name data).
Proof.
  intros Hin s s' c H. inversion H; subst. split; [| done].
  intros name' Hname. simpl. apply lookup_insert_ne. by intros ->.
Qed.

Lemma Keeps_unlink names name : In name names -> Keeps names (unlink name).
Proof.
  intros Hin s s' c. unfold unlink, bind, gets.
  destruct (FS s !! name); intros H; inversion H; subst; [| by split].
  split; [| done]. intros name' Hname. simpl.
  apply lookup_delete_ne. by intros ->.
Qed.

Lemma frameName_transient total i :
  0 <= i < total -> In (frameName i) (transientNames total).
Proof.
  intros Hi. unfold transientNames. apply in_or_app. left.
  apply in_map, list_elem_of_In, elem_of_seqZ. lia.
Qed.

Lemma inputName_transient total : In inputName (transientNames total).
Proof. unfold transientNames. apply in_or_app. right. by left. Qed.

Lemma outputName_transient total : In outputName (transientNames total).
Proof. unfold transientNames. apply in_or_app. right. right. by left. Qed.

Lemma Keeps_frameLoop fuel w p total i :
  0 <= i -> Keeps (transientNames total) (frameLoop fuel w p total i).
Proof.
  revert i. induction fuel as [| fuel IH]; intros i Hi; simpl frameLoop;
    destruct (Z.ltb_spec i total) as [Hlt | Hge]; try apply Keeps_ret.
  - intros s s' c H. inversion H; subst. apply RestKept_refl.
  - apply Keeps_bind; [| intros _; apply IH; lia].
    unfold captureFrame.
    apply Keeps_bind; [apply Keeps_setExportProgress | intros _].
    apply Keeps_bind; [apply Keeps_emit | intros _].
    apply Keeps_bind; [apply Keeps_fetchFile | intros _].
    apply Keeps_writeFile, frameName_transient. lia.
Qed.

Lemma Keeps_unlinkLoop fuel total i :
  0 <= i -> Keeps (transientNames total) (unlinkLoop fuel total i).
Proof.
  revert i. induction fuel as [| fuel IH]; intros i Hi; simpl unlinkLoop;
    destruct (Z.ltb_spec i total) as [Hlt | Hge]; try apply Keeps_ret.
  - intros s s' c H. inversion H; subst. apply RestKept_refl.
  - apply Keeps_bind; [| intros _; apply IH; lia].
    apply Keeps_unlink, frameName_transient. lia.
Qed.

Lemma Keeps_exportBody w p :
  Keeps (transientNames (totalFrames (duration p))) (exportBody w p).
Proof.
  unfold exportBody.
  apply Keeps_bind; [apply Keeps_ensureLoaded | intros _].
  apply Keeps_bind; [apply Keeps_setExportProgress | intros _].
  apply Keeps_bind; [apply Keeps_fetchFile | intros _].
  apply Keeps_bind;
    [apply Keeps_writeFile, inputName_transient | intros _].
  apply Keeps_bind;
    [destruct (contextAvailable w); [apply Keeps_ret | apply Keeps_throw]
    | intros _].
  apply Keeps_bind; [apply Keeps_preloadImages | intros _].
  apply Keeps_bind; [apply Keeps_frameLoop; lia | intros _].
  apply Keeps_bind; [apply Keeps_setExportProgress | intros _].
  apply Keeps_bind.
  { unfold run. apply Keeps_bind; [apply Keeps_emit | intros _].
    destruct (encodeSucceeds w);
      [apply Keeps_writeFile, outputName_transient | apply Keeps_throw]. }
  intros _.
  apply Keeps_bind; [apply Keeps_setExportProgress | intros _].
  apply Keeps_bind; [apply Keeps_readFile | intros _].
  apply Keeps_bind; [apply Keeps_emit | intros _].
  apply Keeps_bind; [apply Keeps_unlinkLoop; lia | intros _].
  apply Keeps_bind; [apply Keeps_unlink, inputName_transient | intros _].
  apply Keeps_unlink, outputName_transient.
Qed.

(** X21. Whatever fails, [handleExport] returns, and it returns with the
    exporting flag off and the progress cleared; an encoder that was loaded
    is still loaded. *)
Theorem handleExport_always_resets (w : World) (p : Props) (s : State) :
  let s' := fst (handleExport w p s) in
  snd (handleExport w p s) = Normal tt
  /\ isExporting s' = false
  /\ exportProgress s' = None
  /\ (isLoaded s = true -> isLoaded s' = true).
Proof.
  intros s'. subst s'.
  destruct (handleExport_run w p s) as (s1 & c & Hbody & H).
  apply Keeps_exportBody in Hbody as [_ Hloaded]. simpl in Hloaded.
  destruct H as [[-> ->] | [_ ->]]; simpl; auto.
Qed.

(** X22. An export touches no file but its own: a file of the encoder's
    storage whose name is not [input.mp3], [output.mp4] or the name of one
    of the frames is, after [handleExport], what it was before, whether the
    run succeeds or fails. *)
Theorem handleExport_keeps_other_files
  (w : World) (p : Props) (s : State) (name : jsstring) :
  ~ In name (transientNames (totalFrames (duration p))) ->
  FS (fst (handleExport w p s)) !! name = FS s !! name.
Proof.
  intros Hname.
  destruct (handleExport_run w p s) as (s1 & c & Hbody & H).
  apply Keeps_exportBody in Hbody as [Hfiles _].
  specialize (Hfiles name Hname). simpl in Hfiles.
  destruct H as [[-> ->] | [_ ->]]; exact Hfiles.
Qed.

Lemma handleExport_keeps_other_files_witness :
  FS (fst (handleExport allSucceeds (someProps (1 # 30)) afterFailedExport))
    !! frameName 1
  = FS afterFailedExport !! frameName 1.
Proof.
  apply (handleExport_keeps_other_files allSucceeds (someProps (1 # 30))
           afterFailedExport (frameName 1)).
  vm_compute. intuition discriminate.
Defined.

(** *** The names of the frame files *)

Lemma lit_inj s1 s2 : lit s1 = lit s2 -> s1 = s2.
Proof.
  revert s2. induction s1 as [| a s1 IH]; intros [| b s2] H;
    try discriminate; [reflexivity |].
  simpl in H. injection H as Hab Hs. f_equal; [| by apply IH].
  apply (f_equal Ascii.ascii_of_N) in Hab.
  by rewrite !Ascii.ascii_N_embedding in Hab.
Qed.

(** The decimal numeral of a positive number does not start with [0]. *)
Lemma pretty_N_go_head x s :
  (0 < x)%N ->
  exists c s', pretty_N_go x s = String c s' /\ c <> Ascii.ascii_of_N 48.
Proof.
  revert s. induction (N.lt_wf_0 x) as [x _ IH]; intros s Hx.
  rewrite pretty_N_go_step by done.
  destruct (decide (x `div` 10 = 0)%N) as [Hq | Hq].
  - rewrite Hq, pretty_N_go_0. eexists _, _. split; [reflexivity |].
    apply N.div_small_iff in Hq; [| lia].
    assert (x = 1 \/ x = 2 \/ x = 3 \/ x = 4 \/ x = 5 \/ x = 6
            \/ x = 7 \/ x = 8 \/ x = 9)%N as Hcases by lia.
    destruct Hcases as [-> | [-> | [-> | [-> | [-> | [-> | [-> | [-> | ->]]]]]]]];
      compute; discriminate.
  - apply IH; [apply N.div_lt; lia | by apply N.neq_0_lt_0].
Qed.

Lemma digits_head i rest :
  0 <= i -> lit (pretty i) = 48%N :: rest -> rest = [].
Proof.
  intros Hi. destruct i as [| x | x]; [| | lia].
  - intros H. by inversion H.
  - unfold pretty, pretty_Z, pretty, pretty_positive, pretty, pretty_N.
    destruct (decide (N.pos x = 0)%N) as [| _]; [discriminate |].
    destruct (pretty_N_go_head (N.pos x) EmptyString) as (c & s' & -> & Hc);
      [lia |].
    simpl. intros H. injection H as Hhead _. exfalso. apply Hc.
    rewrite <- Hhead. symmetry. apply Ascii.ascii_N_embedding.
Qed.

Lemma digits_nonempty i : 0 <= i -> lit (pretty i) <> [].
Proof.
  intros Hi. destruct i as [| x | x]; [discriminate | | lia].
  unfold pretty, pretty_Z, pretty, pretty_positive, pretty, pretty_N.
  destruct (decide (N.pos x = 0)%N) as [| _]; [discriminate |].
  destruct (pretty_N_go_head (N.pos x) EmptyString) as (c & s' & -> & _);
    [lia | discriminate].
Qed.

Lemma padStart_longer n m (s1 s2 : jsstring) :
  (forall rest, s1 = 48%N :: rest -> rest = []) -> s2 <> [] ->
  replicate n 48%N ++ s1 = replicate (n + S m) 48%N ++ s2 -> False.
Proof.
  intros Hhead Hne H. rewrite replicate_add, <- app_assoc in H.
  apply app_inv_head in H. simpl in H. apply Hhead in H.
  apply app_eq_nil in H as [_ H]. contradiction.
Qed.

Lemma frameNum_inj i j : 0 <= i -> 0 <= j -> frameNum i = frameNum j -> i = j.
Proof.
  intros Hi Hj. unfold frameNum, padStart.
  set (s1 := lit (pretty i)). set (s2 := lit (pretty j)).
  set (n1 := (5 - length s1)%nat). set (n2 := (5 - length s2)%nat).
  intros H.
  assert (Hcases : (n1 = n2 \/ (exists m, n2 = n1 + S m)
                    \/ exists m, n1 = n2 + S m)%nat).
  { destruct (lt_eq_lt_dec n1 n2) as [[Hlt | Heq] | Hgt]; [| by left |].
    - right. left. exists (n2 - n1 - 1)%nat. lia.
    - right. right. exists (n1 - n2 - 1)%nat. lia. }
  destruct Hcases as [Heq | [[m Hm] | [m Hm]]].
  - rewrite Heq in H. apply app_inv_head in H.
    apply lit_inj in H. by apply (inj pretty).
  - exfalso. rewrite Hm in H.
    apply (padStart_longer n1 m s1 s2);
      [intros rest; by apply digits_head | by apply digits_nonempty | exact H].
  - exfalso. rewrite Hm in H. symmetry in H.
    apply (padStart_longer n2 m s2 s1);
      [intros rest; by apply digits_head | by apply digits_nonempty | exact H].
Qed.

Lemma frameName_inj i j :
  0 <= i -> 0 <= j -> frameName i = frameName j -> i = j.
Proof.
  intros Hi Hj H. unfold frameName in H.
  apply app_inv_head, app_inv_tail in H. by apply frameNum_inj.
Qed.

Lemma frameName_not_input i : frameName i <> inputName.
Proof. discriminate. Qed.

Lemma frameName_not_output i : frameName i <> outputName.
Proof. discriminate. Qed.

(** X23. No two frames share a file: the files of two different frames,
    whatever their indices from 0 on, have different names, also when an
    index has more than five digits; and no frame file is named
    [input.mp3] or [output.mp4]. *)
Theorem frames_never_share_a_file (i j : Z) :
  0 <= i -> 0 <= j -> i <> j ->
  frameName i <> frameName j
  /\ frameName i <> inputName /\ frameName i <> outputName.
Proof.
  intros Hi Hj Hij. split; [| split; discriminate].
  intros H. by apply Hij, frameName_inj.
Qed.

Lemma frames_never_share_a_file_witness :
  frameName 7 <> frameName 700000
  /\ frameName 7 <> inputName /\ frameName 7 <> outputName.
Proof. apply (frames_never_share_a_file 7 700000); lia. Defined.

(** *** When every step succeeds *)

Lemma Succeeds_bind {A B} (m : M A) (k : A -> M B) s post1 post :
  Succeeds m s post1 ->
  (forall a s1, post1 s1 -> Succeeds (k a) s1 post) ->
  Succeeds (bind m k) s post.
Proof.
  intros (a & s1 & Hm & H1) Hk.
  destruct (Hk a s1 H1) as (b & s' & Hk' & H).
  exists b, s'. split; [| exact H]. unfold bind. by rewrite Hm.
Qed.

Lemma Succeeds_modify f s (post : State -> Prop) :
  post (f s) -> Succeeds (modify f) s post.
Proof. intros H. by exists tt, (f s). Qed.

Lemma Succeeds_ret {A} (a : A) s (post : State -> Prop) :
  post s -> Succeeds (ret a) s post.
Proof. intros H. by exists a, s. Qed.

Lemma Succeeds_writeFile name data s (post : State -> Prop) :
  post (mkState (isLoaded s) (<[name := data]> (FS s)) (isExporting s)
                (exportProgress s) (events s)) ->
  Succeeds (writeFile name data) s post.
Proof. intros H. eexists tt, _. split; [reflexivity | exact H]. Qed.

Lemma Succeeds_unlink name s (post : State -> Prop) :
  Present name s ->
  post (mkState (isLoaded s) (delete name (FS s)) (isExporting s)
                (exportProgress s) (events s)) ->
  Succeeds (unlink name) s post.
Proof.
  intros [data Hdata] H. eexists tt, _. split; [| exact H].
  unfold unlink, bind, gets. by rewrite Hdata.
Qed.

Lemma Succeeds_readFile name s (post : State -> Prop) :
  Present name s -> post s -> Succeeds (readFile name) s post.
Proof.
  intros [data Hdata] H. exists data, s. split; [| exact H].
  unfold readFile, bind, gets. by rewrite Hdata.
Qed.

Lemma Present_insert name name' data s s' :
  FS s' = <[name' := data]> (FS s) ->
  (name = name' \/ Present name s) -> Present name s'.
Proof.
  unfold Present. intros -> H. apply lookup_insert_is_Some.
  destruct (decide (name' = name)); [by left | right].
  split; [done |]. destruct H; [congruence | done].
Qed.

Lemma frameLoop_ok fuel w p total i s :
  total - i <= Z.of_nat fuel ->
  (forall j, i <= j < total -> frameFetchSucceeds w j = true) ->
  Succeeds (frameLoop fuel w p total i) s
    (fun s' =>
       (forall name, Present name s -> Present name s')
       /\ forall j, i <= j < total -> Present (frameName j) s').
Proof.
  revert i s. induction fuel as [| fuel IH]; intros i s Hfuel Hfetch;
    simpl frameLoop; destruct (Z.ltb_spec i total) as [Hlt | Hge];
    try lia; try (apply Succeeds_ret; split; [done | intros; lia]).
  assert (Hcap : exists s1,
            captureFrame w p total i s = (s1, Normal tt)
            /\ FS s1 = <[frameName i := FrameImage i]> (FS s)).
  { unfold captureFrame, bind, setExportProgress, emit, modify, fetchFile,
      writeFile, gets, setFS, ret.
    rewrite (Hfetch i) by lia. eexists. split; reflexivity. }
  destruct Hcap as (s1 & Hcap & HFS).
  destruct (IH (i + 1) s1 ltac:(lia) ltac:(intros; apply Hfetch; lia))
    as ([] & s' & Hloop & Hkeep & Hframes).
  exists tt, s'. split; [unfold bind; by rewrite Hcap |].
  split.
  - intros name Hname. apply Hkeep.
    apply (Present_insert _ _ _ _ _ HFS). by right.
  - intros j Hj. destruct (decide (j = i)) as [-> | Hne].
    + apply Hkeep. apply (Present_insert _ _ _ _ _ HFS). by left.
    + apply Hframes. lia.
Qed.

Lemma unlinkLoop_ok fuel total i s :
  0 <= i -> total - i <= Z.of_nat fuel ->
  (forall j, i <= j < total -> Present (frameName j) s) ->
  Succeeds (unlinkLoop fuel total i) s
    (fun s' =>
       forall name, (forall j, name <> frameName j) ->
                    Present name s -> Present name s').
Proof.
  revert i s. induction fuel as [| fuel IH]; intros i s Hi Hfuel Hframes;
    simpl unlinkLoop; destruct (Z.ltb_spec i total) as [Hlt | Hge];
    try lia; try (by apply Succeeds_ret).
  eapply Succeeds_bind.
  - apply Succeeds_unlink; [apply Hframes; lia |].
    instantiate (1 := fun s1 => FS s1 = delete (frameName i) (FS s)).
    reflexivity.
  - intros [] s1 HFS.
    destruct (IH (i + 1) s1 ltac:(lia) ltac:(lia)) as ([] & s' & Hloop & Hkeep).
    { intros j Hj. unfold Present. rewrite HFS, lookup_delete_ne.
      - apply Hframes. lia.
      - intros Heq. apply frameName_inj in Heq; lia. }
    exists tt, s'. split; [exact Hloop |].
    intros name Hname Hpresent. apply Hkeep; [exact Hname |].
    unfold Present. rewrite HFS, lookup_delete_ne; [exact Hpresent |].
    intros Heq. by apply (Hname i).
Qed.

Lemma allStepsSucceed_true w p s :
  allStepsSucceed w p s = true
  <-> (isLoaded s = true \/ loadSucceeds w = true)
      /\ audioFetchSucceeds w = true
      /\ contextAvailable w = true
      /\ forallb (imageLoads w) (imageUrl p :: map AiImage.url (aiImages p))
         = true
      /\ (forall j, 0 <= j < totalFrames (duration p) ->
                    frameFetchSucceeds w j = true)
      /\ encodeSucceeds w = true.
Proof.
  unfold allStepsSucceed. rewrite !andb_true_iff, orb_true_iff.
  assert (Hframes :
            forallb (frameFetchSucceeds w)
              (seqZ 0 (totalFrames (duration p))) = true
            <-> (forall j, 0 <= j < totalFrames (duration p) ->
                           frameFetchSucceeds w j = true)).
  { rewrite forallb_forall. split; intros H j Hj; apply H.
    - apply list_elem_of_In, elem_of_seqZ. lia.
    - apply list_elem_of_In, elem_of_seqZ in Hj. lia. }
  rewrite Hframes. tauto.
Qed.

(** When every step succeeds the [try] block completes. *)
Lemma exportBody_ok w p s :
  allStepsSucceed w p s = true ->
  exists s', exportBody w p s = (s', Normal tt).
Proof.
  intros Hok.
  apply allStepsSucceed_true in Hok
    as (Hload & Haudio & Hctx & Himgs & Hframes & Hencode).
  cut (Succeeds (exportBody w p) s (fun _ => True)).
  { intros ([] & s' & H & _). by exists s'. }
  unfold exportBody. rewrite Haudio, Hctx.
  eapply Succeeds_bind with (post1 := fun _ => True).
  { assert (H : exists s1, ensureLoaded w s = (s1, Normal tt)).
    { unfold ensureLoaded, bind, gets, modify, ret.
      destruct (isLoaded s); cbn [negb]; [by eexists |].
      destruct Hload as [Hload | Hload]; [discriminate |].
      rewrite Hload. by eexists. }
    destruct H as [s1 H]. by exists tt, s1. }
  intros _ s1 _.
  eapply Succeeds_bind with (post1 := fun _ => True);
    [by apply Succeeds_modify | intros _ s2 _].
  eapply Succeeds_bind with (post1 := fun _ => True);
    [by apply Succeeds_ret | intros _ s3 _].
  eapply Succeeds_bind with (post1 := Present inputName).
  { apply Succeeds_writeFile. unfold Present. simpl.
    rewrite lookup_insert_eq. by eexists. }
  intros _ s4 Hinput.
  eapply Succeeds_bind with (post1 := Present inputName);
    [by apply Succeeds_ret | intros _ s5 Hinput5].
  eapply Succeeds_bind with (post1 := Present inputName).
  { unfold preloadImages. rewrite Himgs. by apply Succeeds_ret. }
  intros _ s6 Hinput6.
  eapply Succeeds_bind.
  { apply frameLoop_ok; [lia | exact Hframes]. }
  intros _ s7 [Hkeep7 Hframes7]. cbv beta in Hkeep7, Hframes7.
  eapply Succeeds_bind
    with (post1 := fun s8 => Present inputName s8
                             /\ forall j, 0 <= j < totalFrames (duration p) ->
                                          Present (frameName j) s8).
  { apply Succeeds_modify. split; [by apply Hkeep7 | exact Hframes7]. }
  intros _ s8 [Hinput8 Hframes8].
  eapply Succeeds_bind
    with (post1 := fun s9 => Present inputName s9
                             /\ Present outputName s9
                             /\ forall j, 0 <= j < totalFrames (duration p) ->
                                          Present (frameName j) s9).
  { unfold run. rewrite Hencode.
    eapply Succeeds_bind
      with (post1 := fun s' => FS s' = FS s8);
      [by apply Succeeds_modify | intros _ s' HFS].
    apply Succeeds_writeFile. unfold Present in *. simpl. rewrite HFS.
    split; [| split].
    - rewrite lookup_insert_ne by discriminate. exact Hinput8.
    - rewrite lookup_insert_eq. by eexists.
    - intros j Hj. rewrite lookup_insert_ne by discriminate.
      by apply Hframes8. }
  intros _ s9 (Hinput9 & Houtput9 & Hframes9).
  eapply Succeeds_bind
    with (post1 := fun s10 => Present inputName s10
                              /\ Present outputName s10
                              /\ forall j, 0 <= j < totalFrames (duration p) ->
                                           Present (frameName j) s10).
  { by apply Succeeds_modify. }
  intros _ s10 (Hinput10 & Houtput10 & Hframes10).
  eapply Succeeds_bind
    with (post1 := fun s11 => Present inputName s11
                              /\ Present outputName s11
                              /\ forall j, 0 <= j < totalFrames (duration p) ->
                                           Present (frameName j) s11).
  { by apply Succeeds_readFile. }
  intros _ s11 (Hinput11 & Houtput11 & Hframes11).
  eapply Succeeds_bind
    with (post1 := fun s12 => Present inputName s12
                              /\ Present outputName s12
                              /\ forall j, 0 <= j < totalFrames (duration p) ->
                                           Present (frameName j) s12).
  { by apply Succeeds_modify. }
  intros _ s12 (Hinput12 & Houtput12 & Hframes12).
  eapply Succeeds_bind.
  { apply unlinkLoop_ok; [lia | lia | exact Hframes12]. }
  intros _ s13 Hkeep13. cbv beta in Hkeep13.
  eapply Succeeds_bind with (post1 := Present outputName).
  { apply Succeeds_unlink.
    - apply Hkeep13; [intros j; discriminate | exact Hinput12].
    - unfold Present. simpl. rewrite lookup_delete_ne by discriminate.
      apply Hkeep13; [intros j; discriminate | exact Houtput12]. }
  intros _ s14 Houtput14.
  by apply Succeeds_unlink.
Qed.

(** *** When a step fails *)

Lemma Quiet_of_Scripted {A} e (cond : Prop) script (m : M A) :
  Scripted script m -> ~ In e script ->
  (forall s s' a, m s = (s', Normal a) -> cond) ->
  Quiet e cond m.
Proof.
  intros Hm He Hcond s s' c H.
  destruct (Hm _ _ _ H) as (new & E & [rest Hrest] & _).
  split.
  - exists new. split; [exact E |]. intros Hin. apply He.
    rewrite Hrest. apply in_or_app. by left.
  - intros a ->. by apply (Hcond s s' a).
Qed.

Lemma Staged_of_Scripted {A} e script (m : M A) :
  Scripted script m -> Staged e True m.
Proof.
  intros Hm s s' c H. destruct (Hm _ _ _ H) as (new & E & _).
  exists new. by split.
Qed.

Lemma Staged_bind {A B} e (c1 c2 : Prop) (m : M A) (k : A -> M B) :
  Quiet e c1 m -> (forall a, Staged e c2 (k a)) ->
  Staged e (c1 /\ c2) (bind m k).
Proof.
  intros Hm Hk s s' c H. unfold bind in H.
  destruct (m s) as [s1 cm] eqn:Hms.
  destruct (Hm _ _ _ Hms) as [(new1 & E1 & Hnot) Hc1].
  destruct cm as [a | err |].
  - destruct (Hk a _ _ _ H) as (new2 & E2 & Hin2 & Hc2).
    exists (new1 ++ new2). rewrite E2, E1, app_assoc. split; [done |].
    split.
    + intros Hin. apply in_app_or in Hin as [Hin | Hin]; [contradiction |].
      split; [by apply (Hc1 a) | by apply Hin2].
    + intros b ->. split; [by apply (Hc1 a) | by apply (Hc2 b)].
  - inversion H; subst. exists new1. split; [done |].
    split; [intros Hin; contradiction | discriminate].
  - inversion H; subst. exists new1. split; [done |].
    split; [intros Hin; contradiction | discriminate].
Qed.

Lemma frameLoop_Normal_fetch fuel w p total i s s' :
  frameLoop fuel w p total i s = (s', Normal tt) ->
  forall j, i <= j < total -> frameFetchSucceeds w j = true.
Proof.
  revert i s. induction fuel as [| fuel IH]; intros i s H j Hj;
    simpl frameLoop in H; destruct (Z.ltb_spec i total) as [Hlt | Hge];
    try lia; [discriminate |].
  apply bind_Normal in H as ([] & s1 & Hcap & H).
  destruct (decide (j = i)) as [-> | Hne]; [| apply (IH _ _ H); lia].
  unfold captureFrame in Hcap.
  apply bind_Normal in Hcap as ([] & s2 & _ & Hcap).
  apply bind_Normal in Hcap as ([] & s3 & _ & Hcap).
  apply bind_Normal in Hcap as ([] & s4 & Hfetch & _).
  apply fetchFile_spec in Hfetch as [_ Hfetch]. by apply Hfetch.
Qed.

Lemma frames_no_download p total l fileName :
  ~ In (Downloaded fileName) (flat_map (frameEvents p total) l).
Proof.
  intros Hin. apply in_flat_map in Hin as (j & _ & [H | [H | []]]);
    discriminate.
Qed.

(** The part of the [try] block after the loading of the encoder: it logs
    the download, and completes, only if every collaborator answered with
    success. *)
Lemma exportBody_staged w p fileName (k : M unit) :
  k = (setExportProgress 5 ;;
       fetchFile (audioFetchSucceeds w) ;;
       writeFile inputName AudioData ;;
       (if contextAvailable w then ret tt
        else throw (lit "no canvas context")) ;;
       preloadImages w (imageUrl p :: map AiImage.url (aiImages p)) ;;
       frameLoop (Z.to_nat (totalFrames (duration p))) w p
         (totalFrames (duration p)) 0 ;;
       setExportProgress 90 ;;
       run w ;;
       setExportProgress 99 ;;
       _ <- readFile outputName ;;
       emit (Downloaded (songTitle p ++ lit " - " ++ artistName p
                         ++ lit ".mp4")) ;;
       unlinkLoop (Z.to_nat (totalFrames (duration p)))
         (totalFrames (duration p)) 0 ;;
       unlink inputName ;;
       unlink outputName) ->
  Staged (Downloaded fileName)
    (audioFetchSucceeds w = true
     /\ contextAvailable w = true
     /\ forallb (imageLoads w) (imageUrl p :: map AiImage.url (aiImages p))
        = true
     /\ (forall j, 0 <= j < totalFrames (duration p) ->
                   frameFetchSucceeds w j = true)
     /\ encodeSucceeds w = true) k.
Proof.
  intros ->.
  assert (Hweaken : forall (c1 c2 : Prop) (m : M unit),
            (c1 -> c2) -> Staged (Downloaded fileName) c1 m ->
            Staged (Downloaded fileName) c2 m).
  { intros c1 c2 m Himp Hm s s' c H.
    destruct (Hm _ _ _ H) as (new & E & Hin & Hc).
    exists new. split; [exact E |]. split; [auto | eauto]. }
  eapply Hweaken; [| eapply Staged_bind].
  2: { apply (Quiet_of_Scripted _ True _ _ (Scripted_setExportProgress 5));
         [intros [H | []]; discriminate | done]. }
  2: { intros _. eapply Staged_bind.
       { apply (Quiet_of_Scripted _ (audioFetchSucceeds w = true) _ _
                  (Scripted_fetchFile _)); [intros [] |].
         intros s s' [] H. apply fetchFile_spec in H as [_ H]. by apply H. }
       intros _. eapply Staged_bind.
       { apply (Quiet_of_Scripted _ True _ _ (Scripted_writeFile _ _));
           [intros [] | done]. }
       intros _. eapply Staged_bind.
       { apply (Quiet_of_Scripted _ (contextAvailable w = true) [] _).
         - destruct (contextAvailable w);
             [apply Scripted_ret | apply Scripted_throw].
         - intros [].
         - intros s s' a. destruct (contextAvailable w);
             [done | discriminate]. }
       intros _. eapply Staged_bind.
       { apply (Quiet_of_Scripted _
                  (forallb (imageLoads w)
                     (imageUrl p :: map AiImage.url (aiImages p)) = true)
                  _ _ (Scripted_preloadImages _ _)); [intros [] |].
         intros s s' a. unfold preloadImages.
         destruct (forallb _ _); [done | discriminate]. }
       intros _. eapply Staged_bind.
       { apply (Quiet_of_Scripted _
                  (forall j, 0 <= j < totalFrames (duration p) ->
                             frameFetchSucceeds w j = true)
                  _ _ (Scripted_frameLoop _ _ _ _ _));
           [apply frames_no_download |].
         intros s s' [] H. exact (frameLoop_Normal_fetch _ _ _ _ _ _ _ H). }
       intros _. eapply Staged_bind.
       { apply (Quiet_of_Scripted _ True _ _ (Scripted_setExportProgress 90));
           [intros [H | []]; discriminate | done]. }
       intros _. eapply Staged_bind.
       { apply (Quiet_of_Scripted _ (encodeSucceeds w = true) _ _
                  (Scripted_run w)); [intros [H | []]; discriminate |].
         intros s s' a H. unfold run in H.
         apply bind_Normal in H as ([] & s1 & _ & H).
         destruct (encodeSucceeds w); [done | discriminate]. }
       intros _.
       apply (Staged_of_Scripted _
                ([Progress 99]
                 ++ [] ++ [Downloaded (songTitle p ++ lit " - "
                                       ++ artistName p ++ lit ".mp4")]
                 ++ [] ++ [] ++ [])).
       eapply Scripted_bind;
         [apply Scripted_setExportProgress | intros _ | reflexivity].
       eapply Scripted_bind;
         [apply Scripted_readFile | intros _ | reflexivity].
       eapply Scripted_bind; [apply Scripted_emit | intros _ | reflexivity].
       eapply Scripted_bind;
         [apply Scripted_unlinkLoop | intros _ | reflexivity].
       eapply Scripted_bind; [apply Scripted_unlink | intros _ | reflexivity].
       apply Scripted_unlink. }
  tauto.
Qed.

(** The [try] block logs the download, and completes, only if every step
    succeeded. *)
Lemma exportBody_only_if w p s s' c fileName :
  exportBody w p s = (s', c) ->
  exists new,
    events s' = events s ++ new
    /\ (In (Downloaded fileName) new -> allStepsSucceed w p s = true)
    /\ (c = Normal tt -> allStepsSucceed w p s = true).
Proof.
  intros H. unfold exportBody in H. unfold bind at 1 in H.
  destruct (ensureLoaded w s) as [s1 c1] eqn:Hload.
  assert (Hevents : events s1 = events s)
    by (by apply ensureLoaded_spec in Hload as [_ Hload]).
  destruct c1 as [[] | err |].
  - assert (Hloaded : isLoaded s = true \/ loadSucceeds w = true).
    { unfold ensureLoaded, bind, gets in Hload.
      destruct (isLoaded s); [by left | right]. cbn [negb] in Hload.
      destruct (loadSucceeds w); [done | discriminate]. }
    destruct (exportBody_staged w p fileName _ eq_refl _ _ _ H)
      as (new & E & Hin & Hc).
    exists new. rewrite E, Hevents. split; [done |].
    split; [intros Hd | intros ->];
      apply allStepsSucceed_true; first [specialize (Hin Hd)
                                        | specialize (Hc tt eq_refl)]; tauto.
  - inversion H; subst. exists []. rewrite app_nil_r.
    split; [done |]. split; [intros [] | discriminate].
  - inversion H; subst. exists []. rewrite app_nil_r.
    split; [done |]. split; [intros [] | discriminate].
Qed.

Lemma fullScript_no_alert p : ~ In Alert (fullScript p).
Proof.
  unfold fullScript. cbv zeta. intros Hin.
  apply in_app_or in Hin as [[H | []] | Hin]; [discriminate |].
  apply in_app_or in Hin as [Hin | Hin].
  - apply in_flat_map in Hin as (j & _ & [H | [H | []]]); discriminate.
  - destruct Hin as [H | [H | [H | [H | []]]]]; discriminate.
Qed.

Lemma fullScript_download p :
  In (Downloaded (songTitle p ++ lit " - " ++ artistName p ++ lit ".mp4"))
     (fullScript p).
Proof.
  unfold fullScript. cbv zeta. apply in_or_app. right.
  apply in_or_app. right. do 3 right. by left.
Qed.

(** X24. An export succeeds exactly when every step does.  The run of
    [handleExport] shows no alert if and only if the encoder is loaded or
    loads, the audio is fetched, the canvas gives a context, every image
    loads, every frame is fetched and the encoder runs; the download happens
    under the same condition, and under no other.  Then the log gains the
    whole script and none of the files the run created is left. *)
Theorem export_succeeds_iff_every_step_does
  (w : World) (p : Props) (s : State) :
  let s' := fst (handleExport w p s) in
  let new := newEvents s s' in
  (allStepsSucceed w p s = true <-> ~ In Alert new)
  /\ (allStepsSucceed w p s = true
      <-> exists fileName, In (Downloaded fileName) new)
  /\ (allStepsSucceed w p s = true ->
      new = Progress 0 :: fullScript p
      /\ forall name,
           In name (transientNames (totalFrames (duration p))) ->
           FS s' !! name = None).
Proof.
  intros s' new. subst s' new.
  destruct (handleExport_run w p s) as (s1 & c & Hbody & Hcases).
  cbv zeta in Hbody.
  set (s0 := mkState (isLoaded s) (FS s) true (Some 0)
                     (events s ++ [Progress 0])) in *.
  destruct (Scripted_exportBody w p _ _ _ Hbody) as (new1 & E & _ & N).
  change (events s0) with (events s ++ [Progress 0]) in E.
  destruct Hcases as [[-> Hrun] | [[err ->] Hrun]]; rewrite Hrun;
    cbn [fst events FS].
  - assert (Hok : allStepsSucceed w p s = true).
    { destruct (exportBody_only_if w p s0 s1 (Normal tt) [] Hbody)
        as (_ & _ & _ & H). exact (H eq_refl). }
    assert (Hnew : newEvents s
                     (mkState (isLoaded s1) (FS s1) false None (events s1))
                   = Progress 0 :: fullScript p).
    { apply newEvents_app. cbn [events].
      rewrite E, (N tt eq_refl), <- app_assoc. reflexivity. }
    rewrite Hnew. split; [| split].
    + split; [intros _ | done]. intros [H | Hin]; [discriminate |].
      by apply (fullScript_no_alert p).
    + split; [intros _ | done]. eexists. right. apply fullScript_download.
    + intros _. split; [reflexivity |].
      apply exportBody_completed in Hbody as [_ Hgone]. exact Hgone.
  - assert (Hnot : allStepsSucceed w p s = false).
    { destruct (allStepsSucceed w p s) eqn:Hok; [| reflexivity].
      destruct (exportBody_ok w p s0 Hok) as (s2 & H2).
      rewrite Hbody in H2. discriminate. }
    assert (Hnew : newEvents s
                     (mkState (isLoaded s1) (FS s1) false None
                              (events s1 ++ [Alert]))
                   = Progress 0 :: new1 ++ [Alert]).
    { apply newEvents_app. cbn [events].
      rewrite E, <- !app_assoc. reflexivity. }
    rewrite Hnew, Hnot. split; [| split].
    + split; [discriminate |]. intros H. exfalso. apply H.
      right. apply in_or_app. right. by left.
    + split; [discriminate |]. intros (fileName & [H | Hin]);
        [discriminate |].
      apply in_app_or in Hin as [Hin | [H | []]]; [| discriminate].
      destruct (exportBody_only_if w p s0 s1 _ fileName Hbody)
        as (new2 & E2 & Hdown & _).
      change (events s0) with (events s ++ [Progress 0]) in E2.
      rewrite E in E2. apply app_inv_head in E2. subst new2.
      pose proof (Hdown Hin) as Hd.
      change (allStepsSucceed w p s = true) in Hd. congruence.
    + discriminate.
Qed.

End ExportEvents.

(** ** The gate of the image generation *)

Section AiGateProperties.
Import AiGate.

Lemma handleUnlockAi_unlocked isAiUnlocked password :
  fst (handleUnlockAi isAiUnlocked password) = true
  <-> isAiUnlocked = true \/ password = Some (lit "8888").
Proof.
  unfold handleUnlockAi. destruct isAiUnlocked; [split; auto |].
  destruct password as [pw |].
  - unfold streq. destruct (decide (pw = lit "8888")) as [-> | Hne].
    + rewrite bool_decide_eq_true_2 by done. split; auto.
    + rewrite bool_decide_eq_false_2 by done.
      assert (Hlocked : fst (if negb (isEmpty pw)
                             then (false, [NoticeWrongPassword])
                             else (false, [])) = false)
        by (by destruct (negb (isEmpty pw))).
      rewrite Hlocked. split; [discriminate |].
      intros [H | H]; [discriminate |]. injection H as H. contradiction.
  - split; [discriminate | intros [H | H]; discriminate].
Qed.

(** X25. The image generation is unlocked by the password and by nothing
    else: after any clicks on the unlock button the feature is unlocked if
    and only if it was unlocked before or one of the dialogs was answered
    with exactly [8888]; once unlocked it is never locked again. *)
Theorem unlock_needs_the_password
  (isAiUnlocked : bool) (answers : list (option jsstring)) :
  unlockClicks isAiUnlocked answers = true
  <-> isAiUnlocked = true \/ In (Some (lit "8888")) answers.
Proof.
  unfold unlockClicks. revert isAiUnlocked.
  induction answers as [| password answers IH]; intros isAiUnlocked.
  - simpl. split; [by left | by intros [H | []]].
  - cbn [foldl]. rewrite IH, handleUnlockAi_unlocked. cbn [In].
    split; [intros [[H | H] | H] | intros [H | [H | H]]]; auto.
Qed.

Lemma generateVisuals_urls allLyrics songTitle promptResponse
    generateImages imgs :
  generateVisualsForLyrics allLyrics songTitle promptResponse generateImages
  = Resolved imgs ->
  forallb (fun img => truthy (AiImage.url img)) imgs = true.
Proof.
  intros H.
  apply generateVisuals_Resolved in H as (Hurls & _).
  induction Hurls as [| img new Himg _ IH]; [reflexivity |].
  simpl. by rewrite Himg, IH.
Qed.

Lemma generateClicks_snoc isAiUnlocked timedLyrics songTitle clicks answers :
  generateClicks isAiUnlocked timedLyrics songTitle (clicks ++ [answers])
  = handleAiGenerate isAiUnlocked timedLyrics songTitle answers
      (generateClicks isAiUnlocked timedLyrics songTitle clicks).
Proof. unfold generateClicks. by rewrite foldl_app. Qed.


Lemma generateClicks_reachable isAiUnlocked timedLyrics songTitle clicks :
  Reachable (generateClicks isAiUnlocked timedLyrics songTitle clicks).
Proof.
  induction clicks as [| answers clicks IH] using rev_ind;
    [apply reachable_mounted |].
  rewrite generateClicks_snoc. by apply reachable_generate.
Qed.



(** X26. The images in the player are always fit for both selectors, and
    they are there only behind the gate.  After any clicks on the generation
    button, whatever the models answered and however many generations
    failed, no image of the player has an empty [url], so that playback and
    export choose the same background at every time; no generation is left
    running; and while the feature is locked there is no image at all and
    the background is the fallback image. *)
Theorem generated_images_fit_both_selectors
  (isAiUnlocked : bool) (timedLyrics : list TimedLyric) (songTitle : jsstring)
  (clicks : list Answers) :
  let st := generateClicks isAiUnlocked timedLyrics songTitle clicks in
  forallb (fun img => truthy (AiImage.url img)) (aiImages st) = true
  /\ (forall imageUrl t,
        currentBg (aiImages st) imageUrl t
        = currentExportBgUrl (aiImages st) imageUrl t)
  /\ isGeneratingAi st = false
  /\ aiGenerationProgress st = None
  /\ (isAiUnlocked = false ->
      aiImages st = []
      /\ forall imageUrl t, currentBg (aiImages st) imageUrl t = imageUrl).
Proof.
  intros st. subst st.
  assert (Hinv :
            let st := generateClicks isAiUnlocked timedLyrics songTitle clicks
            in forallb (fun img => truthy (AiImage.url img)) (aiImages st)
               = true
               /\ isGeneratingAi st = false
               /\ aiGenerationProgress st = None
               /\ (isAiUnlocked = false -> aiImages st = [])).
  { induction clicks as [| answers clicks IH] using rev_ind;
      [by repeat split |].
    rewrite generateClicks_snoc. cbv zeta in IH |- *.
    destruct IH as (Hurls & Hgen & Hprog & Hlocked).
    unfold handleAiGenerate. destruct isAiUnlocked; simpl.
    - destruct (generateVisualsForLyrics timedLyrics songTitle
                  (promptResponse answers) (generateImages answers))
        as [images | message] eqn:Hrun; simpl.
      + split; [by apply generateVisuals_urls in Hrun |].
        by repeat split.
      + by repeat split.
    - by repeat split; auto. }
  cbv zeta in Hinv. destruct Hinv as (Hurls & Hgen & Hprog & Hlocked).
  split; [exact Hurls |].
  split; [intros imageUrl t; by apply selectors_agree |].
  split; [exact Hgen |]. split; [exact Hprog |].
  intros Hl. split; [by apply Hlocked |].
  intros imageUrl t. by rewrite (Hlocked Hl).
Qed.

End AiGateProperties.

(** ** The time display *)

Lemma Qfloor_unique (x : Q) (a : Z) :
  (inject_Z a <= x)%Q -> (x < inject_Z (a + 1))%Q -> Qfloor x = a.
Proof.
  intros Hle Hlt.
  pose proof (Qfloor_resp_le _ _ Hle) as H1. rewrite Qfloor_Z in H1.
  assert (H2 : Qfloor x < a + 1).
  { rewrite Zlt_Qlt. eapply Qle_lt_trans; [apply Qfloor_le | exact Hlt]. }
  lia.
Qed.

Lemma two_digits r :
  0 <= r < 60 -> length (ExportJob.padStart 2 48%N (lit (pretty r))) = 2%nat.
Proof.
  intros Hr.
  assert (Hall : forallb (fun r => (length (ExportJob.padStart 2 48%N
                                               (lit (pretty r))) =? 2)%nat)
                         (seqZ 0 60) = true) by (vm_compute; reflexivity).
  rewrite forallb_forall in Hall. apply Nat.eqb_eq, Hall.
  apply list_elem_of_In, elem_of_seqZ. lia.
Qed.

(** X27. The time display of a time that is not negative reads
    minutes, a colon and seconds in exactly two characters: the minutes are
    the whole seconds divided by 60 and the seconds are the rest, from 0 to
    59. *)
Theorem formatTime_minutes_and_seconds (q : Q) :
  (0 <= q)%Q ->
  let whole := Qfloor q in
  formatTime (Finite q)
  = lit (pretty (whole / 60)) ++ lit ":"
    ++ ExportJob.padStart 2 48%N (lit (pretty (whole mod 60)))
  /\ 0 <= whole mod 60 < 60
  /\ length (ExportJob.padStart 2 48%N (lit (pretty (whole mod 60)))) = 2%nat.
Proof.
  intros Hq whole.
  pose proof (Z.mod_pos_bound whole 60 ltac:(lia)) as Hr.
  pose proof (Z.div_mod whole 60 ltac:(lia)) as Hdiv.
  pose proof (Qfloor_le q) as Hlo. pose proof (Qlt_floor q) as Hhi.
  fold whole in Hlo, Hhi.
  set (k := whole / 60) in *. set (r := whole mod 60) in *.
  assert (Ew : (inject_Z whole == 60 * inject_Z k + inject_Z r)%Q).
  { rewrite Hdiv, inject_Z_plus, inject_Z_mult. reflexivity. }
  assert (Ew1 : (inject_Z (whole + 1) == inject_Z whole + 1)%Q)
    by (rewrite inject_Z_plus; reflexivity).
  assert (Er0 : (0 <= inject_Z r)%Q) by (rewrite <- (Zle_Qle 0); lia).
  assert (Er1 : (inject_Z r <= 59)%Q)
    by (change 59%Q with (inject_Z 59); rewrite <- Zle_Qle; lia).
  assert (Ek1 : (inject_Z (k + 1) == inject_Z k + 1)%Q)
    by (rewrite inject_Z_plus; reflexivity).
  assert (Er2 : (inject_Z (r + 1) == inject_Z r + 1)%Q)
    by (rewrite inject_Z_plus; reflexivity).
  assert (Hminutes : Qfloor (q / 60) = k).
  { change (q / 60)%Q with (q * (1 # 60))%Q.
    apply Qfloor_unique; lra. }
  assert (Htrunc : Qtrunc (q / 60) = k).
  { unfold Qtrunc. rewrite <- Hminutes.
    assert (Hnn : Qltb (q / 60) 0 = false).
    { apply Qltb_false. change (q / 60)%Q with (q * (1 # 60))%Q. lra. }
    by rewrite Hnn. }
  assert (Hsecs : Qfloor (jsRem q 60) = r).
  { unfold jsRem. rewrite Htrunc. apply Qfloor_unique; lra. }
  split; [| split; [exact Hr | by apply two_digits]].
  unfold formatTime. cbv zeta. by rewrite Hminutes, Hsecs.
Qed.

Lemma formatTime_minutes_and_seconds_witness :
  formatTime (Finite 125)
  = lit (pretty (Qfloor 125 / 60)) ++ lit ":"
    ++ ExportJob.padStart 2 48%N (lit (pretty (Qfloor 125 mod 60)))
  /\ 0 <= Qfloor 125 mod 60 < 60
  /\ length (ExportJob.padStart 2 48%N (lit (pretty (Qfloor 125 mod 60))))
     = 2%nat.
Proof.
  apply (formatTime_minutes_and_seconds 125). unfold Qle. simpl. lia.
Defined.

(** ** The progress of a generation *)

Lemma imageProgress_bounds total i :
  0 <= i < total -> 20 <= imageProgress total i <= 100.
Proof.
  intros Hi. unfold imageProgress, jsRound, Double.mul, Double.div.
  set (y := (inject_Z i / inject_Z total)%Q).
  assert (Htotal : (0 < inject_Z total)%Q)
    by (rewrite <- (Zlt_Qlt 0); lia).
  assert (Hy0 : (0 <= y)%Q).
  { apply Qle_shift_div_l; [exact Htotal |].
    rewrite Qmult_0_l. rewrite <- (Zle_Qle 0). lia. }
  assert (Hy1 : (y <= 1)%Q).
  { apply Qle_shift_div_r; [exact Htotal |].
    rewrite Qmult_1_l. rewrite <- Zle_Qle. lia. }
  destruct (round_between 0 1 y Hy0 Hy1) as [Hr0 Hr1].
  change (Double.round 0) with 0%Q in Hr0.
  change (Double.round 1) with 1%Q in Hr1.
  set (r := Double.round y) in *.
  destruct (round_between 0 80 (r * 80)) as [Hp0 Hp1]; [lra.. |].
  change (Double.round 0) with 0%Q in Hp0.
  change (Double.round 80) with 80%Q in Hp1.
  set (v := Double.round (r * 80)) in *.
  assert (H0 : Qfloor 0 <= Qfloor (v + (1 # 2)))
    by (apply Qfloor_resp_le; lra).
  assert (H80 : Qfloor (v + (1 # 2)) <= Qfloor (80 + (1 # 2)))
    by (apply Qfloor_resp_le; lra).
  change (Qfloor 0) with 0 in H0.
  change (Qfloor (80 + (1 # 2))) with 80 in H80. lia.
Qed.

Lemma imageProgress_mono total i j :
  0 <= i -> i <= j -> j < total ->
  imageProgress total i <= imageProgress total j.
Proof.
  intros Hi Hij Hj. unfold imageProgress, jsRound, Double.mul, Double.div.
  assert (Htotal : (0 < inject_Z total)%Q)
    by (rewrite <- (Zlt_Qlt 0); lia).
  assert (Hinv : (0 <= / inject_Z total)%Q)
    by (apply Qlt_le_weak, Qinv_lt_0_compat, Htotal).
  assert (Hle : (inject_Z i / inject_Z total
                 <= inject_Z j / inject_Z total)%Q).
  { unfold Qdiv. apply Qmult_le_compat_r; [| exact Hinv].
    by rewrite <- Zle_Qle. }
  apply round_mono in Hle.
  assert (Hle' : (Double.round (Double.round (inject_Z i / inject_Z total)
                                * 80)
                  <= Double.round (Double.round (inject_Z j / inject_Z total)
                                   * 80))%Q)
    by (apply round_mono; lra).
  assert (H : Qfloor (Double.round
                        (Double.round (inject_Z i / inject_Z total) * 80)
                      + (1 # 2))
              <= Qfloor (Double.round
                           (Double.round (inject_Z j / inject_Z total) * 80)
                         + (1 # 2)))
    by (apply Qfloor_resp_le; lra).
  lia.
Qed.

Lemma imageLoopProgress_prefix generateImages tasks total i :
  imageLoopProgress generateImages tasks total i
  `prefix_of` map (imageProgress total) (seqZ i (Z.of_nat (length tasks))).
Proof.
  revert i. induction tasks as [| task tasks IH]; intros i;
    [apply prefix_nil |].
  cbn [imageLoopProgress length]. rewrite seqZ_cons by lia. cbn [map].
  replace (Z.pred (Z.of_nat (S (length tasks))))
    with (Z.of_nat (length tasks)) by lia.
  replace (Z.succ i) with (i + 1) by lia.
  apply prefix_cons.
  destruct (generateImages (ImageGenerationTask.prompt task));
    [apply IH | apply IH | apply prefix_nil].
Qed.

Lemma jsonImageLoopProgress_prefix generateImages tasks total i :
  jsonImageLoopProgress generateImages tasks total i
  `prefix_of` map (imageProgress total) (seqZ i (Z.of_nat (length tasks))).
Proof.
  revert i. induction tasks as [| task tasks IH]; intros i;
    [apply prefix_nil |].
  cbn [jsonImageLoopProgress length]. rewrite seqZ_cons by lia. cbn [map].
  replace (Z.pred (Z.of_nat (S (length tasks))))
    with (Z.of_nat (length tasks)) by lia.
  replace (Z.succ i) with (i + 1) by lia.
  apply prefix_cons.
  destruct (generateImages (JsonTask.prompt task));
    [apply IH | apply IH | apply prefix_nil].
Qed.

(** The percentages of a run that reaches the image loop: 0, 10, those of
    the loop as far as it gets, and 100 when it is done. *)
Lemma progress_of_image_loop (loop done : list Z) (total : Z) :
  loop `prefix_of` map (imageProgress total) (seqZ 0 total) ->
  done = [100] \/ done = [] ->
  StronglySorted Z.le (0 :: 10 :: loop ++ done)
  /\ Forall (fun n => 0 <= n <= 100) (0 :: 10 :: loop ++ done).
Proof.
  intros [rest Hrest] Hdone'.
  assert (Hall : Forall (fun n => 20 <= n <= 100)
                   (map (imageProgress total) (seqZ 0 total))).
  { apply List.Forall_map, Forall_forall. intros i Hi.
    apply elem_of_seqZ in Hi. apply imageProgress_bounds. lia. }
  assert (Hsorted : StronglySorted Z.le
                      (map (imageProgress total) (seqZ 0 total))).
  { apply StronglySorted_map_seqZ. intros i j H1 H2 H3.
    apply imageProgress_mono; lia. }
  rewrite Hrest in Hall, Hsorted.
  apply Forall_app in Hall as [Hall _].
  apply StronglySorted_app_1_l in Hsorted.
  assert (Hdone : Forall (fun n => n = 100) done)
    by (destruct Hdone' as [-> | ->]; repeat constructor).
  assert (Htail : StronglySorted Z.le (loop ++ done)
                  /\ Forall (fun n => 20 <= n <= 100) (loop ++ done)).
  { split.
    - apply StronglySorted_app. split; [| split; [exact Hsorted |]].
      + intros x1 x2 Hx1 Hx2. rewrite Forall_forall in Hall, Hdone.
        specialize (Hall x1 Hx1). specialize (Hdone x2 Hx2).
        simpl in Hall. lia.
      + destruct Hdone' as [-> | ->]; repeat constructor.
    - apply Forall_app. split; [exact Hall |].
      eapply Forall_impl; [exact Hdone | simpl; intros; lia]. }
  destruct Htail as [Hs Hb].
  split.
  - apply StronglySorted_cons. split.
    { constructor; [lia |].
      eapply Forall_impl; [exact Hb | simpl; intros; lia]. }
    apply StronglySorted_cons. split; [| exact Hs].
    eapply Forall_impl; [exact Hb | simpl; intros; lia].
  - constructor; [lia |]. constructor; [lia |].
    eapply Forall_impl; [exact Hb | simpl; intros; lia].
Qed.

(** X28. The progress of a generation never moves backwards: the
    percentages handed to [onProgress] start with 0, never decrease and stay
    between 0 and 100, whatever the models answer; a generation that finds
    lines to process and resolves ends with 100. *)
Theorem generation_progress_never_decreases
  (allLyrics : list TimedLyric) (songTitle : jsstring)
  (promptResponse : PromptResponse)
  (generateImages : jsstring -> ImageResponse) :
  let reported :=
    generateVisualsProgress allLyrics songTitle promptResponse
      generateImages in
  head reported = Some 0
  /\ StronglySorted Z.le reported
  /\ Forall (fun n => 0 <= n <= 100) reported
  /\ (forall imgs,
        lyricsToProcess allLyrics <> [] ->
        generateVisualsForLyrics allLyrics songTitle promptResponse
          generateImages = Resolved imgs ->
        last reported = Some 100).
Proof.
  intros reported. subst reported.
  unfold generateVisualsProgress, generateVisualsForLyrics.
  destruct (lyricsToProcess allLyrics) as [| l ls] eqn:Hlines.
  { simpl. split; [reflexivity |]. split; [repeat constructor |].
    split; [repeat constructor; lia | intros imgs H; contradiction]. }
  cbn [length Nat.eqb]. rewrite groupStanzas_spec. cbv zeta.
  destruct promptResponse
    as [generatedPrompts | generatedPrompts generateImagesFrom | |].
  3, 4: split; [reflexivity |]; split; [repeat constructor; lia |];
        split; [repeat constructor; lia | intros imgs _ H; discriminate].
  - set (tasks := tasksOfStanzas generatedPrompts songTitle
                    (stanzasByTwo (l :: ls))).
    destruct (progress_of_image_loop
                (imageLoopProgress generateImages tasks
                   (Z.of_nat (length tasks)) 0)
                (match imageLoop generateImages tasks [] with
                 | Resolved _ => [100]
                 | Rejected _ => []
                 end)
                (Z.of_nat (length tasks))) as (Hs & Hb).
    { apply imageLoopProgress_prefix. }
    { destruct (imageLoop _ _ _); [by left | by right]. }
    split; [reflexivity |]. split; [exact Hs |]. split; [exact Hb |].
    intros imgs _ H. rewrite H. rewrite !app_comm_cons. apply last_snoc.
  - destruct (jsonTasksOfStanzas generatedPrompts songTitle
                (stanzasByTwo (l :: ls))) as [tasks |].
    2: split; [reflexivity |]; split; [repeat constructor; lia |];
       split; [repeat constructor; lia | intros imgs _ H; discriminate].
    set (ask := askImage generateImages generateImagesFrom).
    destruct (progress_of_image_loop
                (jsonImageLoopProgress ask tasks (Z.of_nat (length tasks)) 0)
                (match jsonImageLoop ask tasks [] with
                 | Resolved _ => [100]
                 | Rejected _ => []
                 end)
                (Z.of_nat (length tasks))) as (Hs & Hb).
    { apply jsonImageLoopProgress_prefix. }
    { destruct (jsonImageLoop _ _ _); [by left | by right]. }
    split; [reflexivity |]. split; [exact Hs |]. split; [exact Hb |].
    intros imgs _ H. rewrite H. rewrite !app_comm_cons. apply last_snoc.
Qed.
